(** * Image Gallery: path tree, folder cache and EXIF decoder

    A shallow embedding of the algorithmic core of the gallery client:

    - [buildTree] (App.tsx): the folder/story tree built from a flat list of
      slash-delimited paths;
    - [loadImagesForFolder] and [handleRefreshFolders] (App.tsx): the lazily
      filled folder cache;
    - [readRational], [readTags] and [getExifData] (MainPanel.tsx): the EXIF
      decoder that walks a JPEG byte stream;
    - [findFirstSelectablePath] and [handleUpdateImageDetails] (App.tsx),
      [navigateImage] (MainPanel.tsx): the default selection, the update of
      cached images and the step to the next or previous image;
    - [toggleFolder], [toggleStory] and [toggleImageList] (LeftPanel.tsx):
      the sets of expanded tree nodes.

    JavaScript objects used as dictionaries ([children], [imagesByFolder],
    the tag maps) are finite maps keyed by strings, which hold their own
    properties.  What a [children] object inherits from [Object.prototype]
    (under a path segment spelled [constructor] or [__proto__], say) is
    modelled in [Proto], the tree as the code builds it; [Tree] is the same
    walk on own properties alone.  For [imagesByFolder], folder paths
    spelled like a property of [Object.prototype] are outside the model;
    the tag tables are read at numbers only.  JavaScript numbers are IEEE binary64 values and are
    modelled by the primitive floats; integers below [2^53], such as byte
    counts and nearly all byte offsets, are kept as integers.  Strings are
    strings of code units below 256. *)

From Stdlib Require Import ZArith Lia Ascii.
From Stdlib Require Import Strings.Byte.
From Stdlib Require Import Floats.PrimFloat Floats.FloatOps Floats.SpecFloat.
From Stdlib Require Import Numbers.Cyclic.Int63.Uint63.
From stdpp Require Import gmap strings list pretty.

Set Warnings "-register-all".

(** ** Strings *)

Module Str.

(** [s.split(c)] for a one-character separator: the pieces between the
    occurrences of [c]; the empty string splits into one empty piece. *)
Fixpoint split (c : ascii) (s : string) : list string :=
  match s with
  | EmptyString => [EmptyString]
  | String a s' =>
      if decide (a = c) then EmptyString :: split c s'
      else match split c s' with
           | h :: t => String a h :: t
           | [] => [String a EmptyString]
           end
  end.

(** [parts.join(c)]. *)
Fixpoint join (c : ascii) (parts : list string) : string :=
  match parts with
  | [] => EmptyString
  | [p] => p
  | p :: rest => p +:+ String c (join c rest)
  end.

(** [arr.pop()] on a freshly split string: its last piece. *)
Definition pop (parts : list string) : string := List.last parts EmptyString.

(** [s.includes(c)] for a one-character [c]. *)
Fixpoint contains (c : ascii) (s : string) : bool :=
  match s with
  | EmptyString => false
  | String a s' => bool_decide (a = c) || contains c s'
  end.

(** The first character of [s] is [c]. *)
Definition startsWith (c : ascii) (s : string) : bool :=
  match s with
  | String a _ => bool_decide (a = c)
  | EmptyString => false
  end.

End Str.

(** ** The path tree (App.tsx, [buildTree])

    The walk of [buildTree] as it goes while every lookup
    [currentNode.children[part]] is settled by the own properties of
    [children].  What the lookup inherits comes in with [Proto] below, which
    is the walk of the code; on lists without inherited names the two give
    the same tree, and a tree the code returns always lies within the tree
    defined here. *)

Module Tree.

(** [interface TreeNode] of types.ts. *)
Inductive TreeNode : Type := mkTreeNode {
  name : string;
  path : string;
  isSelectable : bool;
  children : gmap string TreeNode }.

Definition setSelectable (n : TreeNode) : TreeNode :=
  mkTreeNode (name n) (path n) true (children n).

Definition setChildren (n : TreeNode) (cs : gmap string TreeNode) : TreeNode :=
  mkTreeNode (name n) (path n) (isSelectable n) cs.

(** [currentPath ? `${currentPath}/${part}` : part] *)
Definition extendPath (currentPath part : string) : string :=
  if decide (currentPath = "") then part
  else currentPath +:+ "/" +:+ part.

(** The node [currentNode.children[part]] after the creation step of the
    inner loop, by own properties: the child already there, or a fresh
    unselectable leaf. *)
Definition childOrNew (currentNode : TreeNode) (part currentPath : string)
  : TreeNode :=
  match children currentNode !! part with
  | Some child => child
  | None => mkTreeNode part currentPath false ∅
  end.

(** [if (pathSet.has(currentPath)) currentNode.isSelectable = true] *)
Definition mark (pathSet : gset string) (currentPath : string)
    (n : TreeNode) : TreeNode :=
  if decide (currentPath ∈ pathSet) then setSelectable n else n.

(** The inner [parts.forEach]: descend from [currentNode] along [parts],
    creating and marking nodes; the in-place updates of the source are
    returned as the rebuilt [currentNode]. *)
Fixpoint walkParts (pathSet : gset string) (parts : list string)
    (currentPath : string) (currentNode : TreeNode) : TreeNode :=
  match parts with
  | [] => currentNode
  | part :: rest =>
      let currentPath' := extendPath currentPath part in
      let child := mark pathSet currentPath'
                     (childOrNew currentNode part currentPath') in
      setChildren currentNode
        (<[part := walkParts pathSet rest currentPath' child]>
           (children currentNode))
  end.

(** One round of the outer [paths.forEach]. *)
Definition addPath (pathSet : gset string) (root : TreeNode) (path : string)
  : TreeNode :=
  if decide (path = "") then root
  else walkParts pathSet (Str.split "/"%char path) "" root.

Definition emptyRoot : TreeNode := mkTreeNode "root" "" false ∅.

Definition buildTree (paths : list string) : TreeNode :=
  foldl (addPath (list_to_set paths)) emptyRoot paths.

(** The node reached from [t] by following the child names [segs]. *)
Fixpoint nodeAt (segs : list string) (t : TreeNode) : option TreeNode :=
  match segs with
  | [] => Some t
  | s :: rest =>
      match children t !! s with
      | Some c => nodeAt rest c
      | None => None
      end
  end.

(** The value of [currentPath] after walking [segs] from [currentPath]. *)
Definition pathFrom (currentPath : string) (segs : list string) : string :=
  foldl extendPath currentPath segs.

(** What the walk maintains below a node whose own path is [currentPath]:
    every proper descendant carries the path and name its position gives
    it, and is selectable exactly when that path is in [pathSet]. *)
Definition described (pathSet : gset string) (currentPath : string)
    (t : TreeNode) : Prop :=
  ∀ segs n, segs ≠ [] → nodeAt segs t = Some n →
    path n = pathFrom currentPath segs
    ∧ name n = Str.pop segs
    ∧ (isSelectable n = true ↔ pathFrom currentPath segs ∈ pathSet).

(** No child name anywhere below [t] contains a slash. *)
Definition slashFree (t : TreeNode) : Prop :=
  ∀ segs n, nodeAt segs t = Some n →
    Forall (λ seg, Str.contains "/"%char seg = false) segs.

End Tree.

(** ** The path tree on plain objects (App.tsx, [buildTree])

    [children] is a plain object, so [currentNode.children[part]] finds the
    own property [part] when there is one and otherwise what the object
    inherits from [Object.prototype] under that name.  [Tree] above is the
    walk as it goes while every lookup is settled by own properties; here is
    the walk with the inherited values.

    An inherited value is truthy, so no node is made for it and it becomes
    [currentNode].  When the path so far is listed, [isSelectable] is then
    written on that value; written on [Object.prototype] it becomes an
    inherited property of every plain object, for the rest of this call and
    for later calls.  Whether [Object.prototype] has it is the one piece of
    state of the realm that [buildTree] reads and writes; apart from it
    [Object.prototype] is taken to have its standard properties.  An
    inherited value has no [children], so a walk that goes on after it
    throws. *)

Module Proto.

Import Tree.

Inductive exn : Type := TypeError.

Inductive outcome (A : Type) : Type :=
| Ok (a : A)
| Throw (e : exn).
Arguments Ok {A} a.
Arguments Throw {A} e.

(** The properties of the standard [Object.prototype]. *)
Definition prototypeNames : list string :=
  [ "constructor"; "__defineGetter__"; "__defineSetter__"; "hasOwnProperty";
    "__lookupGetter__"; "__lookupSetter__"; "isPrototypeOf";
    "propertyIsEnumerable"; "toString"; "valueOf"; "__proto__";
    "toLocaleString" ].

(** The values a lookup can inherit: [Object.prototype] itself (the getter
    [__proto__]), a function (the other standard properties), and [true]
    (an [isSelectable] written on [Object.prototype] earlier). *)
Inductive Inherited : Type :=
| PrototypeObject
| FunctionObject
| TrueValue.

(** [children[part]] when [children] has no own property [part]; [None] is
    [undefined].  [protoSelectable] says that [Object.prototype] has the
    property [isSelectable]. *)
Definition lookupInherited (protoSelectable : bool) (part : string)
  : option Inherited :=
  if decide (part = "__proto__") then Some PrototypeObject
  else if decide (part ∈ prototypeNames) then Some FunctionObject
  else if protoSelectable && bool_decide (part = "isSelectable")
       then Some TrueValue
  else None.

(** [currentNode.isSelectable = true] with an inherited value as
    [currentNode]: [Object.prototype] after it has the property.  On a
    function the write makes an own property nothing here reads.  On the
    primitive [true] the write is refused: a [TypeError] in strict code (a
    module is strict code), ignored otherwise. *)
Definition assignSelectable (strict : bool) (v : Inherited)
    (protoSelectable : bool) : outcome bool :=
  match v with
  | PrototypeObject => Ok true
  | FunctionObject => Ok protoSelectable
  | TrueValue => if strict then Throw TypeError else Ok protoSelectable
  end.

(** The inner [parts.forEach] from [currentNode], a node of the tree: the
    rebuilt node, or the exception, and [Object.prototype] afterwards. *)
Fixpoint walkParts (strict : bool) (pathSet : gset string)
    (parts : list string) (currentPath : string) (currentNode : TreeNode)
    (protoSelectable : bool) : outcome TreeNode * bool :=
  match parts with
  | [] => (Ok currentNode, protoSelectable)
  | part :: rest =>
      let currentPath' := extendPath currentPath part in
      let descend child :=
        match walkParts strict pathSet rest currentPath'
                (mark pathSet currentPath' child) protoSelectable with
        | (Ok child', protoSelectable') =>
            (Ok (setChildren currentNode
                   (<[part := child']> (children currentNode))),
             protoSelectable')
        | (Throw e, protoSelectable') => (Throw e, protoSelectable')
        end in
      match children currentNode !! part with
      | Some child => descend child
      | None =>
          match lookupInherited protoSelectable part with
          | None => descend (mkTreeNode part currentPath' false ∅)
          | Some v =>
              let assigned :=
                if decide (currentPath' ∈ pathSet)
                then assignSelectable strict v protoSelectable
                else Ok protoSelectable in
              match assigned with
              | Throw e => (Throw e, protoSelectable)
              | Ok protoSelectable' =>
                  match rest with
                  | [] => (Ok currentNode, protoSelectable')
                  | _ :: _ => (Throw TypeError, protoSelectable')
                  end
              end
          end
      end
  end.

(** One round of the outer [paths.forEach]. *)
Definition addPath (strict : bool) (pathSet : gset string) (root : TreeNode)
    (path : string) (protoSelectable : bool) : outcome TreeNode * bool :=
  if decide (path = "") then (Ok root, protoSelectable)
  else walkParts strict pathSet (Str.split "/"%char path) "" root
         protoSelectable.

(** The outer [paths.forEach]: an exception ends it. *)
Fixpoint forEach (strict : bool) (pathSet : gset string)
    (paths : list string) (root : TreeNode) (protoSelectable : bool)
  : outcome TreeNode * bool :=
  match paths with
  | [] => (Ok root, protoSelectable)
  | path :: rest =>
      match addPath strict pathSet root path protoSelectable with
      | (Ok root', protoSelectable') =>
          forEach strict pathSet rest root' protoSelectable'
      | (Throw e, protoSelectable') => (Throw e, protoSelectable')
      end
  end.

(** [buildTree(paths)], called when [Object.prototype] has [isSelectable]
    or not as [protoSelectable] says: the tree returned, or the exception,
    and [Object.prototype] afterwards. *)
Definition buildTree (strict protoSelectable : bool) (paths : list string)
  : outcome TreeNode * bool :=
  forEach strict (list_to_set paths) paths emptyRoot protoSelectable.

(** *** Notions the properties are stated with *)

(** The parts of a path that the outer loop walks: none for the empty
    path. *)
Definition segments (path : string) : list string :=
  if decide (path = "") then [] else Str.split "/"%char path.

(** The tree after the walks of [Tree] along the segment lists [l]. *)
Definition walks (pathSet : gset string) (root : TreeNode)
    (l : list (list string)) : TreeNode :=
  foldl (λ t parts, Tree.walkParts pathSet parts "" t) root l.

(** Every child name anywhere below [t] satisfies [P]. *)
Definition namesAll (P : string → Prop) (t : TreeNode) : Prop :=
  ∀ segs n, nodeAt segs t = Some n → Forall P segs.

(** [part] is not the name of an inherited property. *)
Definition plain (protoSelectable : bool) (part : string) : Prop :=
  lookupInherited protoSelectable part = None.

(** [pre] is what a walk of [parts] can have made nodes for when
    [Object.prototype] is as [protoSelectable] says at its end: a prefix of
    [parts] that reaches at least as far as the parts before the first
    inherited name. *)
Definition keeps (protoSelectable : bool) (parts pre : list string) : Prop :=
  pre `prefix_of` parts
  ∧ ∀ segs, segs `prefix_of` parts →
      Forall (plain protoSelectable) segs → segs `prefix_of` pre.

(** The parts a walk makes nodes for when no own property it meets has an
    inherited name: the parts before the first inherited one; [None] when
    the walk throws. *)
Fixpoint walked (strict : bool) (pathSet : gset string)
    (protoSelectable : bool) (currentPath : string) (parts : list string)
  : option (list string) :=
  match parts with
  | [] => Some []
  | part :: rest =>
      let currentPath' := extendPath currentPath part in
      match lookupInherited protoSelectable part with
      | None =>
          (part ::.) <$> walked strict pathSet protoSelectable currentPath' rest
      | Some v =>
          let assigned :=
            if decide (currentPath' ∈ pathSet)
            then assignSelectable strict v protoSelectable
            else Ok protoSelectable in
          match assigned, rest with
          | Ok _, [] => Some []
          | _, _ => None
          end
      end
  end.

End Proto.

(** ** The folder cache (App.tsx, [loadImagesForFolder]) *)

Module Cache.

(** The fields of [interface Image] that [loadImagesForFolder] fills. *)
Record Image : Type := mkImage {
  id : string;
  name : string;
  fullPath : string;
  format : string }.

Inductive LogLevel : Type := INFO | WARN | ERROR | API.

(** The part of the component state the loader reads and writes, with the
    two collaborators it talks to: [requests] lists the folder paths sent
    to [api.getImages], oldest first, and [log] the [addLog] entries. *)
Record State : Type := mkState {
  imagesByFolder : gmap string (list Image);
  isAppBusy : bool;
  requests : list string;
  log : list (LogLevel * string) }.

(** [s.toLowerCase()] on strings of code units below 256. *)
Definition lowerChar (a : ascii) : ascii :=
  let n := N_of_ascii a in
  if ((65 <=? n) && (n <=? 90))%N then ascii_of_N (n + 32)
  else if ((192 <=? n) && (n <=? 222) && negb (n =? 215))%N
       then ascii_of_N (n + 32)
  else a.

Fixpoint toLowerCase (s : string) : string :=
  match s with
  | EmptyString => EmptyString
  | String a s' => String (lowerChar a) (toLowerCase s')
  end.

(** [a || b] on strings: the empty string is falsy. *)
Definition orElse (a b : string) : string :=
  if decide (a = "") then b else a.

(** The mapping applied to each path returned by the service. *)
Definition toImage (fullPath : string) : Image :=
  {| id := fullPath;
     name := orElse (Str.pop (Str.split "/" fullPath)) fullPath;
     fullPath := fullPath;
     format := orElse (toLowerCase (Str.pop (Str.split "." fullPath)))
                 "unknown" |}.

(** [loadImagesForFolder], run to completion against a service whose
    answer to this request is [getImages folderPath]: [Some] of the path
    list, or [None] when the promise rejects.  The cache read at the top
    is the current one, that is, calls are taken one after the other, each
    after the previous one has settled and the component has rendered. *)
Definition loadImagesForFolder (getImages : string → option (list string))
    (folderPath : string) (st : State) : State :=
  match imagesByFolder st !! folderPath with
  | Some _ => st
  | None =>
      let log1 :=
        log st
        ++ [(INFO, "Fetching images for sidebar view: " +:+ folderPath)] in
      let requests1 := requests st ++ [folderPath] in
      match getImages folderPath with
      | Some imagePaths =>
          {| imagesByFolder :=
               <[folderPath := toImage <$> imagePaths]> (imagesByFolder st);
             isAppBusy := false;
             requests := requests1;
             log := log1 |}
      | None =>
          {| imagesByFolder := <[folderPath := []]> (imagesByFolder st);
             isAppBusy := false;
             requests := requests1;
             log :=
               log1 ++ [(ERROR, "Failed to fetch images for " +:+ folderPath)] |}
      end
  end.

(** The effect of [handleRefreshFolders] on this state:
    [setImagesByFolder({})]. *)
Definition handleRefreshFolders (st : State) : State :=
  {| imagesByFolder := ∅;
     isAppBusy := isAppBusy st;
     requests := requests st;
     log := log st |}.

End Cache.

(** ** The EXIF decoder (MainPanel.tsx) *)

Module Exif.

Local Open Scope Z_scope.

(** *** Results

    A [DataView] read outside the buffer throws a [RangeError], which
    nothing in the decoder catches. *)
Inductive exn : Type := RangeError.

Inductive outcome (A : Type) : Type :=
| Ok (a : A)
| Throw (e : exn).
Arguments Ok {A} a.
Arguments Throw {A} e.

(** Sequencing, written [x ← r; k]: an exception ends the run. *)
#[global] Instance outcome_bind : MBind outcome := λ A B k r,
  match r with
  | Ok a => k a
  | Throw e => Throw e
  end.

(** *** Numbers and values *)

(** The Number with the value of a non-negative integer below [2^53]
    (every integer the decoder reads is below [2^32]). *)
Definition Num (z : Z) : float := PrimFloat.of_uint63 (Uint63.of_Z z).

(** The values a tag can hold: a Number, a string or an array of Numbers. *)
Inductive Value : Type :=
| VNum (x : float)
| VStr (s : string)
| VArr (xs : list float).

(** Truthiness: [0], [-0], [NaN] and the empty string are falsy. *)
Definition truthy (v : Value) : bool :=
  match v with
  | VNum x => negb (PrimFloat.eqb x 0) && PrimFloat.eqb x x
  | VStr s => negb (bool_decide (s = ""))
  | VArr _ => true
  end.

(** [Math.round]: an integral or non-finite argument is returned as it
    is; otherwise the integer nearest to the argument, the larger one on a
    tie, and [-0] when that is zero and the argument negative. *)
Definition mathRound (x : float) : float :=
  match Prim2SF x with
  | S754_finite s m e =>
      if (0 <=? e)%Z then x
      else
        let d := (2 ^ (- e))%Z in
        let q := (Z.pos m / d)%Z in
        let r := (Z.pos m mod d)%Z in
        if (r =? 0)%Z then x
        else if s then
          let n := if (2 * r <=? d)%Z then q else (q + 1)%Z in
          PrimFloat.opp (Num n)
        else
          Num (if (d <=? 2 * r)%Z then q + 1 else q)%Z
  | _ => x
  end.

(** [Math.round(x * 10000) / 10000] *)
Definition round4 (x : float) : float :=
  PrimFloat.div (mathRound (PrimFloat.mul x (Num 10000))) (Num 10000).

(** The integer a Number stands for, when it is a non-negative integer. *)
Definition toInteger (x : float) : option Z :=
  match Prim2SF x with
  | S754_zero _ => Some 0%Z
  | S754_finite false m e =>
      if (0 <=? e)%Z then Some (Z.pos m * 2 ^ e)%Z
      else
        let d := (2 ^ (- e))%Z in
        if (Z.pos m mod d =? 0)%Z then Some (Z.pos m / d)%Z else None
  | _ => None
  end.

(** *** Strings *)

(** [String.fromCharCode(b)] for a byte [b]. *)
Definition fromCharCode (b : Z) : ascii := ascii_of_N (Z.to_N b).

(** The white space of [String.prototype.trim] among the code units below
    256: TAB, LF, VT, FF, CR, SP and NBSP. *)
Definition isWhiteSpace (a : ascii) : bool :=
  let n := N_of_ascii a in
  ((9 <=? n) && (n <=? 13) || (n =? 32) || (n =? 160))%N.

Fixpoint trimStart (s : string) : string :=
  match s with
  | EmptyString => EmptyString
  | String a s' => if isWhiteSpace a then trimStart s' else s
  end.

Fixpoint trimEnd (s : string) : string :=
  match s with
  | EmptyString => EmptyString
  | String a s' =>
      match trimEnd s' with
      | EmptyString => if isWhiteSpace a then EmptyString
                       else String a EmptyString
      | t => String a t
      end
  end.

Definition trim (s : string) : string := trimEnd (trimStart s).

(** The string whose characters have the given bytes as their codes. *)
Fixpoint charsOf (bytes : list byte) : string :=
  match bytes with
  | [] => EmptyString
  | b :: rest => String (fromCharCode (Z.of_N (Byte.to_N b))) (charsOf rest)
  end.

(** *** Offsets

    The offsets handed to the [DataView] are JavaScript values.  Nearly all
    are integers, and sums of integers below [2^53] are exact.  The start of
    a sub-directory is [tiffHeaderOffset + tags.ExifIFDPointer] (or the GPS
    pointer), and the decoder may have stored a Number with a fraction, a
    string or an array under that tag; [+] then adds Numbers as doubles, or
    concatenates strings, and every later [+] goes on in the same way. *)
Inductive Offset : Type :=
| OInt (z : Z)
| ONum (x : float)
| OStr (s : string)
| OList.

(** [offset + k] for an integer [k] that is not negative.  [OList] stands
    for the string made from an array of two or more Numbers: it has a
    comma in it and keeps it. *)
Definition plus (offset : Offset) (k : Z) : Offset :=
  match offset with
  | OInt z => OInt (z + k)
  | ONum x => ONum (PrimFloat.add x (Num k))
  | OStr s => OStr (s +:+ pretty k)
  | OList => OList
  end.

(** [tiffHeaderOffset + v] for the value [v] of a pointer tag. *)
Definition pointerOffset (tiffHeaderOffset : Z) (v : Value) : Offset :=
  match v with
  | VNum x =>
      match toInteger x with
      | Some z => OInt (tiffHeaderOffset + z)
      | None => ONum (PrimFloat.add (Num tiffHeaderOffset) x)
      end
  | VStr s => OStr (pretty tiffHeaderOffset +:+ s)
  | VArr _ => OList
  end.

(** [ToIndex] of a Number: the fraction is dropped, [NaN] is 0, and a
    negative or infinite value is a [RangeError]. *)
Definition numberToIndex (x : float) : outcome Z :=
  match Prim2SF x with
  | S754_zero _ | S754_nan => Ok 0
  | S754_infinity _ => Throw RangeError
  | S754_finite s m e =>
      let t := if 0 <=? e then Z.pos m * 2 ^ e else Z.pos m / 2 ^ (- e) in
      if s && (0 <? t) then Throw RangeError else Ok t
  end.

(** *** Tag tables *)

Definition EXIF_TAGS : gmap Z string := list_to_map [
  (0x0100, "ImageWidth"); (0x0101, "ImageHeight"); (0x0102, "BitsPerSample");
  (0x0103, "Compression"); (0x0106, "PhotometricInterpretation");
  (0x010E, "ImageDescription"); (0x010F, "Make"); (0x0110, "Model");
  (0x0112, "Orientation"); (0x0115, "SamplesPerPixel");
  (0x011A, "XResolution"); (0x011B, "YResolution");
  (0x011C, "PlanarConfiguration"); (0x0128, "ResolutionUnit");
  (0x0132, "DateTime"); (0x013B, "Artist"); (0x8298, "Copyright");
  (0x8769, "ExifIFDPointer"); (0x8825, "GPSInfoIFDPointer");
  (0x9000, "ExifVersion"); (0x9003, "DateTimeOriginal");
  (0x9004, "DateTimeDigitized"); (0x9201, "ShutterSpeedValue");
  (0x9202, "ApertureValue"); (0x9204, "ExposureTime"); (0x9205, "FNumber");
  (0x9209, "Flash"); (0x920A, "FocalLength"); (0x927C, "MakerNote");
  (0x9286, "UserComment"); (0x8827, "ISOSpeedRatings");
  (0xA001, "ColorSpace"); (0xA002, "PixelXDimension");
  (0xA003, "PixelYDimension"); (0xA402, "ExposureMode");
  (0xA403, "WhiteBalance"); (0xA406, "SceneCaptureType") ].

Definition GPS_TAGS : gmap Z string := list_to_map [
  (0x0001, "GPSLatitudeRef"); (0x0002, "GPSLatitude");
  (0x0003, "GPSLongitudeRef"); (0x0004, "GPSLongitude") ].

(** [[0, 1, 1, 2, 4, 8, 1, 1, 2, 4, 8, 4, 8][format]], with [None] for
    [undefined]. *)
Definition typeSizes : list Z := [0; 1; 1; 2; 4; 8; 1; 1; 2; 4; 8; 4; 8].

Definition typeSizeOf (format : Z) : option Z := typeSizes !! Z.to_nat format.

(** *** The byte-stream reader *)

Abbreviation DataView := (list byte).
Abbreviation FieldMap := (gmap string Value).

Definition byteLength (file : DataView) : Z := Z.of_nat (length file).

Definition byteAt (file : DataView) (i : Z) : Z :=
  match file !! Z.to_nat i with
  | Some b => Z.of_N (Byte.to_N b)
  | None => 0
  end.

Definition inRange (file : DataView) (index size : Z) : bool :=
  (0 <=? index) && (index + size <=? byteLength file).

(** The reads at an index, with the bounds check of the [DataView]. *)
Definition uint8At (file : DataView) (index : Z) : outcome Z :=
  if inRange file index 1 then Ok (byteAt file index)
  else Throw RangeError.

Definition uint16At (file : DataView) (index : Z) (littleEndian : bool)
  : outcome Z :=
  if inRange file index 2 then
    let b0 := byteAt file index in
    let b1 := byteAt file (index + 1) in
    Ok (if littleEndian then b0 + 256 * b1 else 256 * b0 + b1)
  else Throw RangeError.

Definition uint32At (file : DataView) (index : Z) (littleEndian : bool)
  : outcome Z :=
  if inRange file index 4 then
    let b0 := byteAt file index in
    let b1 := byteAt file (index + 1) in
    let b2 := byteAt file (index + 2) in
    let b3 := byteAt file (index + 3) in
    Ok (if littleEndian
        then b0 + 256 * (b1 + 256 * (b2 + 256 * b3))
        else 256 * (256 * (256 * b0 + b1) + b2) + b3)
  else Throw RangeError.

Section Engine.

(** [ToIndex] of a string, that is, of the Number the string converts to.
    ECMAScript lets the engine choose among neighbouring Numbers for a
    literal of more than 20 digits, so the conversion is taken from the
    engine. *)
Context (stringToIndex : string → outcome Z).

Definition toIndex (offset : Offset) : outcome Z :=
  match offset with
  | OInt z => Ok z
  | ONum x => numberToIndex x
  | OStr s => stringToIndex s
  | OList => Ok 0
  end.

Definition getUint8 (file : DataView) (byteOffset : Offset) : outcome Z :=
  index ← toIndex byteOffset; uint8At file index.

Definition getUint16 (file : DataView) (byteOffset : Offset)
    (littleEndian : bool) : outcome Z :=
  index ← toIndex byteOffset; uint16At file index littleEndian.

Definition getUint32 (file : DataView) (byteOffset : Offset)
    (littleEndian : bool) : outcome Z :=
  index ← toIndex byteOffset; uint32At file index littleEndian.

(** *** [readRational] *)

Definition readRational (file : DataView) (offset : Offset) (bigEnd : bool)
  : outcome float :=
  numerator ← getUint32 file offset (negb bigEnd);
  denominator ← getUint32 file (plus offset 4) (negb bigEnd);
  if denominator =? 0 then Ok (Num 0)
  else Ok (PrimFloat.div (Num numerator) (Num denominator)).

(** *** [readTags] *)

Section ReadTags.
Context (file : DataView) (tiffStart : Z) (dirStart : Offset)
        (tags : gmap Z string) (bigEnd : bool).

(** The ASCII loop: [k] rounds are left, [n] is the loop counter. *)
Fixpoint asciiLoop (valueAddress : Offset) (k : nat) (n : Z) (str : string)
  : outcome string :=
  match k with
  | O => Ok str
  | S k' =>
      b ← getUint8 file (plus valueAddress n);
      asciiLoop valueAddress k' (n + 1)
        (str +:+ String (fromCharCode b) EmptyString)
  end.

(** The loop over the components of a RATIONAL array. *)
Fixpoint rationalLoop (valueAddress : Offset) (k : nat) (j : Z)
    (value : list float) : outcome (list float) :=
  match k with
  | O => Ok value
  | S k' =>
      x ← readRational file (plus valueAddress (j * 8)) bigEnd;
      rationalLoop valueAddress k' (j + 1) (value ++ [x])
  end.

(** The value decoded for one entry; [None] is [undefined]. *)
Definition readValue (format components totalSize : Z) (dataOffset : Offset)
    (valuePointer : Z) (valueAddress : Offset) : outcome (option Value) :=
  if format =? 2 then
    str ← asciiLoop valueAddress
            (Z.to_nat (Z.min (components - 1) 100)) 0 EmptyString;
    Ok (Some (VStr (trim str)))
  else if format =? 5 then
    if 1 <? components then
      value ← rationalLoop valueAddress (Z.to_nat components) 0 [];
      Ok (Some (VArr value))
    else
      x ← readRational file valueAddress bigEnd;
      Ok (Some (VNum x))
  else if (components =? 1) && (totalSize <=? 4) then
    short ← (if format =? 3
             then x ← getUint16 file dataOffset (negb bigEnd);
                  Ok (Some (VNum (Num x)))
             else Ok None);
    if format =? 4
    then x ← getUint32 file dataOffset (negb bigEnd);
         Ok (Some (VNum (Num x)))
    else Ok short
  else Ok (Some (VNum (Num valuePointer))).

(** The body of the loop over the entries, for entry [i]: the tag map
    [result] after it. *)
Definition readEntry (i : Z) (result : FieldMap) : outcome FieldMap :=
  let entryOffset := plus (plus dirStart (i * 12)) 2 in
  tagId ← getUint16 file entryOffset (negb bigEnd);
  match tags !! tagId with
  | None => Ok result
  | Some tagName =>
      format ← getUint16 file (plus entryOffset 2) (negb bigEnd);
      components ← getUint32 file (plus entryOffset 4) (negb bigEnd);
      let dataOffset := plus entryOffset 8 in
      match typeSizeOf format with
      | None => Ok result
      | Some typeSize =>
          if typeSize =? 0 then Ok result
          else
            let totalSize := components * typeSize in
            valuePointer ← getUint32 file dataOffset (negb bigEnd);
            let valueAddress :=
              if 4 <? totalSize then OInt (tiffStart + valuePointer)
              else dataOffset in
            value ← readValue format components totalSize dataOffset
                      valuePointer valueAddress;
            match value with
            | Some v => Ok (<[tagName := v]> result)
            | None => Ok result
            end
      end
  end.

(** The loop over the entries: [k] rounds are left, [i] is the counter. *)
Fixpoint entryLoop (k : nat) (i : Z) (result : FieldMap)
  : outcome FieldMap :=
  match k with
  | O => Ok result
  | S k' =>
      result' ← readEntry i result;
      entryLoop k' (i + 1) result'
  end.

Definition readTags : outcome FieldMap :=
  entries ← getUint16 file dirStart (negb bigEnd);
  entryLoop (Z.to_nat entries) 0 ∅.

End ReadTags.

(** *** [getExifData] *)

(** [if (tags[pointer]) { const sub = readTags(...); for (const tag in sub)
    tags[tag] = sub[tag]; }] *)
Definition mergeDirectory (dataView : DataView) (tiffHeaderOffset : Z)
    (bigEnd : bool) (pointer : string) (table : gmap Z string)
    (tags : FieldMap) : outcome FieldMap :=
  match tags !! pointer with
  | Some v =>
      if truthy v then
        sub ← readTags dataView tiffHeaderOffset
                (pointerOffset tiffHeaderOffset v) table bigEnd;
        Ok (sub ∪ tags)
      else Ok tags
  | None => Ok tags
  end.

(** The three directories of the segment at [offset], merged; [None] when
    the segment does not carry the Exif signature. *)
Definition app1Tags (dataView : DataView) (offset : Z)
  : outcome (option FieldMap) :=
  let tiffHeaderOffset := offset + 10 in
  signature ← getUint32 dataView (OInt (offset + 4)) false;
  if negb (signature =? 0x45786966) then Ok None
  else
    order ← getUint16 dataView (OInt tiffHeaderOffset) false;
    let bigEnd := order =? 0x4D4D in
    ifdOffset ← getUint32 dataView (OInt (tiffHeaderOffset + 4)) (negb bigEnd);
    tags ← readTags dataView tiffHeaderOffset
             (OInt (tiffHeaderOffset + ifdOffset)) EXIF_TAGS bigEnd;
    tags ← mergeDirectory dataView tiffHeaderOffset bigEnd
             "ExifIFDPointer" EXIF_TAGS tags;
    tags ← mergeDirectory dataView tiffHeaderOffset bigEnd
             "GPSInfoIFDPointer" GPS_TAGS tags;
    Ok (Some tags).

Definition truthyAt (tags : FieldMap) (key : string) : bool :=
  match tags !! key with
  | Some v => truthy v
  | None => false
  end.

(** [x[0] + x[1] / 60 + x[2] / 3600] *)
Definition toDecimal (d m s : float) : float :=
  (d + m / 60 + s / 3600)%float.

(** [(ref.trim() === hemisphere ? 1 : -1) * degrees] *)
Definition signed (ref hemisphere : string) (degrees : float) : float :=
  ((if bool_decide (trim ref = hemisphere) then 1 else -1) * degrees)%float.

(** The [try] block of the conversion: the tags after it, or [None] when
    it throws. *)
Definition gpsTry (tags : FieldMap) : option FieldMap :=
  match tags !! "GPSLatitude", tags !! "GPSLongitude" with
  | Some (VArr [d; m; s]), Some (VArr [d'; m'; s']) =>
      let latitude := toDecimal d m s in
      let longitude := toDecimal d' m' s' in
      match tags !! "GPSLatitudeRef" with
      | Some (VStr ref) =>
          let tags1 := <["GPSLatitude" := VNum (signed ref "N" latitude)]> tags in
          match tags1 !! "GPSLongitudeRef" with
          | Some (VStr ref') =>
              Some (<["GPSLongitude" := VNum (signed ref' "E" longitude)]> tags1)
          | _ => None
          end
      | _ => None
      end
  | _, _ => None
  end.

(** The guard of the conversion: all four fields are there and truthy. *)
Definition gpsComplete (tags : FieldMap) : bool :=
  truthyAt tags "GPSLatitude" && truthyAt tags "GPSLongitude"
  && truthyAt tags "GPSLatitudeRef" && truthyAt tags "GPSLongitudeRef".

(** Both magnitudes are arrays of three Numbers and both references are
    strings. *)
Definition gpsValid (tags : FieldMap) : Prop :=
  ∃ d m s d' m' s' ref ref',
    tags !! "GPSLatitude" = Some (VArr [d; m; s])
    ∧ tags !! "GPSLongitude" = Some (VArr [d'; m'; s'])
    ∧ tags !! "GPSLatitudeRef" = Some (VStr ref)
    ∧ tags !! "GPSLongitudeRef" = Some (VStr ref').

(** [if (all four present) { try {...} catch {...} finally {...} }] *)
Definition convertGPS (tags : FieldMap) : FieldMap :=
  if gpsComplete tags
  then
    let tags' :=
      match gpsTry tags with
      | Some converted => converted
      | None => delete "GPSLongitude" (delete "GPSLatitude" tags)
      end in
    delete "GPSLongitudeRef" (delete "GPSLatitudeRef" tags')
  else tags.

Definition roundValue (v : Value) : Value :=
  match v with
  | VNum x => VNum (round4 x)
  | _ => v
  end.

(** From the merged tags to the returned value: conversion of the
    coordinates, removal of the pointers, rounding, and [null] for an
    empty map. *)
Definition finishTags (tags : FieldMap) : option FieldMap :=
  let tags := convertGPS tags in
  let tags := delete "GPSInfoIFDPointer" (delete "ExifIFDPointer" tags) in
  let tags := roundValue <$> tags in
  if (0 <? size tags)%nat then Some tags else None.

(** One round of the [while] loop at [offset]: the value returned, or the
    offset of the next round. *)
Inductive step : Type :=
| Done (r : option FieldMap)
| Continue (offset : Z).

Definition scanStep (dataView : DataView) (offset : Z) : outcome step :=
  if negb (offset <? byteLength dataView) then Ok (Done None)
  else if byteLength dataView <? offset + 4 then Ok (Done None)
  else
    prefix ← getUint8 dataView (OInt offset);
    if negb (prefix =? 0xFF) then Ok (Done None)
    else
      marker ← getUint8 dataView (OInt (offset + 1));
      if marker =? 0xE1 then
        tags ← app1Tags dataView offset;
        Ok (Done (tags ≫= finishTags))
      else
        size ← getUint16 dataView (OInt (offset + 2)) false;
        Ok (Continue (offset + (2 + size))).

(** The loop, for at most [fuel] rounds; [None] when they do not suffice. *)
Fixpoint scan (fuel : nat) (dataView : DataView) (offset : Z)
  : option (outcome (option FieldMap)) :=
  match fuel with
  | O => None
  | S fuel' =>
      match scanStep dataView offset with
      | Throw e => Some (Throw e)
      | Ok (Done r) => Some (Ok r)
      | Ok (Continue offset') => scan fuel' dataView offset'
      end
  end.

(** [getUint8(0) !== 0xFF || getUint8(1) !== 0xD8] *)
Definition notJpeg (dataView : DataView) : outcome bool :=
  b0 ← getUint8 dataView (OInt 0);
  if negb (b0 =? 0xFF) then Ok true
  else b1 ← getUint8 dataView (OInt 1); Ok (negb (b1 =? 0xD8)).

Definition getExifDataFuel (fuel : nat) (arrayBuffer : DataView)
  : option (outcome (option FieldMap)) :=
  match notJpeg arrayBuffer with
  | Throw e => Some (Throw e)
  | Ok true => Some (Ok None)
  | Ok false => scan fuel arrayBuffer 2
  end.

(** One round of the loop for every byte of the buffer is more than the
    loop can use. *)
Definition getExifData (arrayBuffer : DataView)
  : option (outcome (option FieldMap)) :=
  getExifDataFuel (length arrayBuffer) arrayBuffer.

End Engine.

End Exif.

(** ** Sample buffers *)

Module Samples.

(** An engine for the samples: it converts every string to [NaN], index 0.
    None of the samples forms an offset from a string, so that any other
    engine gives the same results on them. *)
Definition engine : string → Exif.outcome Z := λ _, Exif.Ok 0%Z.

(** A JPEG whose Exif segment has a GPS directory with the latitude
    [40, 0, 0] north and the longitude [74, 0, 0] west. *)
Definition gpsNorthWest : list byte :=
  [ xff; xd8; xff; xe1; x00; x8a; x45; x78; x69; x66; x00; x00;
    x4d; x4d; x00; x2a; x00; x00; x00; x08;
    x00; x01;
    x88; x25; x00; x04; x00; x00; x00; x01; x00; x00; x00; x1a;
    x00; x00; x00; x00;
    x00; x04;
    x00; x01; x00; x02; x00; x00; x00; x02; x4e; x00; x00; x00;
    x00; x02; x00; x05; x00; x00; x00; x03; x00; x00; x00; x50;
    x00; x03; x00; x02; x00; x00; x00; x02; x57; x00; x00; x00;
    x00; x04; x00; x05; x00; x00; x00; x03; x00; x00; x00; x68;
    x00; x00; x00; x00;
    x00; x00; x00; x28; x00; x00; x00; x01;
    x00; x00; x00; x00; x00; x00; x00; x01;
    x00; x00; x00; x00; x00; x00; x00; x01;
    x00; x00; x00; x4a; x00; x00; x00; x01;
    x00; x00; x00; x00; x00; x00; x00; x01;
    x00; x00; x00; x00; x00; x00; x00; x01 ].

(** A JPEG whose GPS directory has only a latitude reference ["N"] and a
    latitude made of the single rational [5/1]. *)
Definition gpsLatitudeOnly : list byte :=
  [ xff; xd8; xff; xe1; x00; x4a; x45; x78; x69; x66; x00; x00;
    x4d; x4d; x00; x2a; x00; x00; x00; x08;
    x00; x01;
    x88; x25; x00; x04; x00; x00; x00; x01; x00; x00; x00; x1a;
    x00; x00; x00; x00;
    x00; x02;
    x00; x01; x00; x02; x00; x00; x00; x02; x4e; x00; x00; x00;
    x00; x02; x00; x05; x00; x00; x00; x01; x00; x00; x00; x38;
    x00; x00; x00; x00;
    x00; x00; x00; x05; x00; x00; x00; x01 ].

(** A directory with the single entry Orientation, of format BYTE with one
    component. *)
Definition byteEntry : list byte :=
  [ x00; x01; x01; x12; x00; x01; x00; x00; x00; x01; x05; x00; x00; x00 ].

(** A directory with the single entry ExifVersion, of format UNDEFINED with
    four components. *)
Definition undefinedEntry : list byte :=
  [ x00; x01; x90; x00; x00; x07; x00; x00; x00; x04; x30; x32; x32; x30 ].

(** A directory with the single entry Make, an ASCII string of three
    components: a space, [a] and the terminating zero. *)
Definition asciiEntry : list byte :=
  [ x00; x01; x01; x0f; x00; x02; x00; x00; x00; x03; x20; x61; x00; x00 ].

(** A JPEG with an APP0 segment of two bytes followed by the end marker. *)
Definition twoSegments : list byte :=
  [ xff; xd8; xff; xe0; x00; x02; xff; xd9; x00; x00 ].

(** A JPEG cut off inside the signature of its Exif segment. *)
Definition truncated : list byte :=
  [ xff; xd8; xff; xe1; x00; x10; x45; x78 ].

End Samples.

(** ** The default selection (App.tsx, [findFirstSelectablePath]) *)

Module Selection.

Import Tree.

(** The number of levels of a tree. *)
Fixpoint depth (t : TreeNode) : nat :=
  S (map_fold (λ _ child acc, depth child `max` acc) 0 (children t)).

(** The [for] loop over the results of the children:
    [if (foundPath) return foundPath], and [null] after the loop.  The empty
    string is falsy. *)
Fixpoint firstFound (results : list (option string)) : option string :=
  match results with
  | [] => None
  | Some foundPath :: rest =>
      if decide (foundPath = "") then firstFound rest else Some foundPath
  | None :: rest => firstFound rest
  end.

(** [type SelectedItem] of types.ts, without [null]. *)
Inductive SelectedItem : Type :=
| imageItem (data : Cache.Image)
| folderItem (path : string) (images : list Cache.Image).

(** [!!localStorage.getItem('imageGallerySelection')]: the item is there
    and is not the empty string. *)
Definition wasStateRestored (stored : option string) : bool :=
  match stored with
  | Some item => negb (bool_decide (item = ""))
  | None => false
  end.

Section Sort.

(** [Object.values(node.children).sort((a, b) =>
    a.name.localeCompare(b.name))], on the children carried with their
    keys.  The order [localeCompare] gives depends on the locale of the
    engine, so the sorted list is taken from the engine. *)
Context (sortChildren : list (string * TreeNode) → list (string * TreeNode)).

Fixpoint findFirstSelectablePath (node : TreeNode) : option string :=
  if isSelectable node then Some (path node)
  else
    let found := findFirstSelectablePath <$> children node in
    firstFound
      ((λ entry, found !! entry.1 ≫= id)
         <$> sortChildren (map_to_list (children node))).

(** The default-selection effect: the item it hands to [handleSelectItem],
    or [None] when it selects nothing.  [stored] is what
    [localStorage.getItem('imageGallerySelection')] returns, [selectedItem]
    and [folderTree] are the state of the component, [None] for [null]. *)
Definition defaultSelection (stored : option string)
    (selectedItem : option SelectedItem) (folderTree : option TreeNode)
  : option SelectedItem :=
  if wasStateRestored stored then None
  else
    match selectedItem, folderTree with
    | None, Some tree =>
        match firstFound [findFirstSelectablePath tree] with
        | Some firstPath => Some (folderItem firstPath [])
        | None => None
        end
    | _, _ => None
    end.

End Sort.

End Selection.

(** ** Image details and navigation (App.tsx, MainPanel.tsx) *)

Module Gallery.

Import Cache.

Local Open Scope Z_scope.

(** [s.lastIndexOf(c)] for a one-character [c]: the index of its last
    occurrence, or [-1]. *)
Fixpoint lastIndexOf (c : ascii) (s : string) : Z :=
  match s with
  | EmptyString => -1
  | String a s' =>
      let r := lastIndexOf c s' in
      if 0 <=? r then r + 1
      else if decide (a = c) then 0 else -1
  end.

Definition stringLength (s : string) : Z := Z.of_nat (String.length s).

(** [s.substring(start, end)]: both arguments are brought into
    [0 .. s.length] and swapped when [start] is the larger. *)
Definition substring (s : string) (start end_ : Z) : string :=
  let a := Z.max 0 (Z.min start (stringLength s)) in
  let b := Z.max 0 (Z.min end_ (stringLength s)) in
  String.substring (Z.to_nat (Z.min a b)) (Z.to_nat (Z.max a b - Z.min a b)) s.

(** [imageId.substring(0, imageId.lastIndexOf('/'))], the folder an image
    path lies in. *)
Definition folderOf (imageId : string) : string :=
  substring imageId 0 (lastIndexOf "/" imageId).

(** [handleUpdateImageDetails], on the cache.  [merge] stands for
    [img => ({ ...img, ...details })]. *)
Definition handleUpdateImageDetails (imageId : string) (merge : Image → Image)
    (st : State) : State :=
  let folderPath := folderOf imageId in
  match imagesByFolder st !! folderPath with
  | None => st
  | Some folderImages =>
      let newImages :=
        (λ img, if decide (id img = imageId) then merge img else img)
          <$> folderImages in
      {| imagesByFolder := <[folderPath := newImages]> (imagesByFolder st);
         isAppBusy := isAppBusy st;
         requests := requests st;
         log := log st |}
  end.

(** [list.findIndex(pred)]: the first index at which [pred] holds, or
    [-1]. *)
Fixpoint findIndex {A} (pred : A → bool) (list : list A) : Z :=
  match list with
  | [] => -1
  | x :: rest =>
      if pred x then 0
      else let r := findIndex pred rest in
           if 0 <=? r then r + 1 else -1
  end.

(** The [useMemo] of MainPanel for a selected image: the list of its folder
    and its index there; [None] for [null]. *)
Definition imageList (imagesByFolder : gmap string (list Image))
    (selected : Image) : option (list Image) :=
  imagesByFolder !! folderOf (fullPath selected).

Definition currentIndex (imagesByFolder : gmap string (list Image))
    (selected : Image) : Z :=
  match imageList imagesByFolder selected with
  | None => -1
  | Some list => findIndex (λ img, bool_decide (id img = id selected)) list
  end.

Inductive direction : Type := next | prev.

(** [navigateImage]: the image handed to [onSelectItem], or [None] when the
    function returns without a selection.  Looking up an index outside the
    list gives [undefined], here [Some None]. *)
Definition navigateImage (imagesByFolder : gmap string (list Image))
    (selected : Image) (d : direction) : option (option Image) :=
  match imageList imagesByFolder selected with
  | None => None
  | Some list =>
      let index := currentIndex imagesByFolder selected in
      if index =? -1 then None
      else
        let length := Z.of_nat (length list) in
        let newIndex :=
          match d with
          | next => Z.rem (index + 1) length
          | prev => Z.rem (index - 1 + length) length
          end in
        Some (list !! Z.to_nat newIndex)
  end.

End Gallery.

(** ** The expanded sets of the left panel (LeftPanel.tsx) *)

Module Panel.

Import Tree.

(** The loop that fills [newSet]: [currentPath] grows by one part a round
    and is added to the set. *)
Fixpoint addPrefixes (parts : list string) (currentPath : string)
    (newSet : gset string) : gset string :=
  match parts with
  | [] => newSet
  | part :: rest =>
      let currentPath' := extendPath currentPath part in
      addPrefixes rest currentPath' ({[ currentPath' ]} ∪ newSet)
  end.

(** The updater of [toggleFolder]: from the expanded folders [prev] to the
    new set.  Collapsing runs the loop over all parts but the last. *)
Definition toggleFolder (path : string) (prev : gset string) : gset string :=
  let isCurrentlyExpanded := bool_decide (path ∈ prev) in
  let parts := Str.split "/" path in
  if isCurrentlyExpanded
  then addPrefixes (take (length parts - 1) parts) "" ∅
  else addPrefixes parts "" ∅.

(** The updater of [toggleStory]: a copy of [prev] with [path] deleted when
    it was there, added when it was not. *)
Definition toggleStory (path : string) (prev : gset string) : gset string :=
  let newSet := prev in
  if bool_decide (path ∈ newSet) then newSet ∖ {[ path ]}
  else {[ path ]} ∪ newSet.

(** The updater of [toggleImageList], the same on the expanded image
    lists. *)
Definition toggleImageList (path : string) (prev : gset string)
  : gset string :=
  let newSet := prev in
  if bool_decide (path ∈ newSet) then newSet ∖ {[ path ]}
  else {[ path ]} ∪ newSet.

End Panel.

(** ** The shape of decoded values *)

Module Decoded.

Import Exif.

(** [key] is one of the names of the tag table [tags]. *)
Definition fromTable (tags : gmap Z string) (key : string) : Prop :=
  ∃ tagId, tags !! tagId = Some key.

(** A value as [readTags] stores it: a string is trimmed and has at most
    100 characters, an array has at least two elements. *)
Definition stored (v : Value) : Prop :=
  match v with
  | VNum _ => True
  | VStr s => trim s = s ∧ String.length s ≤ 100
  | VArr xs => 2 ≤ length xs
  end.


End Decoded.

(** * Properties *)

Import Tree.

Example buildTree_ex1 :
  buildTree ["a/b"; "a"] =
  mkTreeNode "root" "" false
    {[ "a" := mkTreeNode "a" "a" true
                {[ "b" := mkTreeNode "b" "a/b" true ∅ ]} ]}.
Proof. vm_compute. reflexivity. Qed.

(** ** The path tree *)

Section TreeFacts.
Context (pathSet : gset string).

Lemma walkParts_name parts cp n : name (walkParts pathSet parts cp n) = name n.
Proof. by destruct parts. Qed.

Lemma walkParts_path parts cp n : path (walkParts pathSet parts cp n) = path n.
Proof. by destruct parts. Qed.

Lemma walkParts_isSelectable parts cp n :
  isSelectable (walkParts pathSet parts cp n) = isSelectable n.
Proof. by destruct parts. Qed.

Lemma walkParts_setSelectable parts cp n :
  walkParts pathSet parts cp (setSelectable n)
  = setSelectable (walkParts pathSet parts cp n).
Proof. by destruct parts. Qed.

Lemma walkParts_mark parts cp cp' n :
  walkParts pathSet parts cp (mark pathSet cp' n)
  = mark pathSet cp' (walkParts pathSet parts cp n).
Proof.
  unfold mark. case_decide; [apply walkParts_setSelectable | done].
Qed.

Lemma mark_idemp cp n : mark pathSet cp (mark pathSet cp n) = mark pathSet cp n.
Proof. unfold mark. by case_decide. Qed.

(** Walking two segment lists from the same node commutes. *)
Lemma walkParts_comm ps qs cp n :
  walkParts pathSet ps cp (walkParts pathSet qs cp n)
  = walkParts pathSet qs cp (walkParts pathSet ps cp n).
Proof.
  revert qs cp n. induction ps as [|p ps IH]; intros [|q qs] cp n; try done.
  destruct n as [nm pa sel ch]. cbn [walkParts].
  unfold setChildren, childOrNew; cbn [name path isSelectable children].
  destruct (decide (p = q)) as [->|Hne].
  - rewrite !lookup_insert_eq, !insert_insert_eq.
    rewrite <- !walkParts_mark, !mark_idemp. by rewrite IH.
  - rewrite (lookup_insert_ne _ q p), (lookup_insert_ne _ p q) by done.
    f_equal. by apply insert_insert_ne.
Qed.

(** Walking the same segment list twice changes nothing more. *)
Lemma walkParts_idemp ps cp n :
  walkParts pathSet ps cp (walkParts pathSet ps cp n)
  = walkParts pathSet ps cp n.
Proof.
  revert cp n. induction ps as [|p ps IH]; intros cp n; [done|].
  destruct n as [nm pa sel ch]. cbn [walkParts].
  unfold setChildren, childOrNew; cbn [name path isSelectable children].
  rewrite lookup_insert_eq, insert_insert_eq.
  by rewrite <- !walkParts_mark, mark_idemp, IH.
Qed.

End TreeFacts.

(** ** The root *)

Lemma foldl_addPath_name S l t : name (foldl (addPath S) t l) = name t.
Proof.
  revert t. induction l as [|p l IH]; intros t; [done|]. cbn. rewrite IH.
  unfold addPath. case_decide; [done | apply walkParts_name].
Qed.

Lemma foldl_addPath_path S l t : path (foldl (addPath S) t l) = path t.
Proof.
  revert t. induction l as [|p l IH]; intros t; [done|]. cbn. rewrite IH.
  unfold addPath. case_decide; [done | apply walkParts_path].
Qed.

Lemma foldl_addPath_isSelectable S l t :
  isSelectable (foldl (addPath S) t l) = isSelectable t.
Proof.
  revert t. induction l as [|p l IH]; intros t; [done|]. cbn. rewrite IH.
  unfold addPath. case_decide; [done | apply walkParts_isSelectable].
Qed.

Lemma buildTree_root_fields (paths : list string) :
  name (buildTree paths) = name emptyRoot
  ∧ path (buildTree paths) = path emptyRoot
  ∧ isSelectable (buildTree paths) = isSelectable emptyRoot.
Proof.
  unfold buildTree.
  by rewrite foldl_addPath_name, foldl_addPath_path, foldl_addPath_isSelectable.
Qed.

(** C9, as the code has it: the root of [buildTree paths] is named ["root"],
    has the empty path and is not selectable. *)
Theorem C9_buildTree_root (paths : list string) :
  name (buildTree paths) = "root"
  ∧ path (buildTree paths) = ""
  ∧ isSelectable (buildTree paths) = false.
Proof. apply buildTree_root_fields. Qed.

(** C9 as stated fails: the root's name is not empty. *)
Lemma C9_root_name_counterexample : name (buildTree []) ≠ "".
Proof. discriminate. Qed.

(** ** Splitting and joining *)

Section SplitJoin.
Context (c : ascii).

Lemma split_cons s : ∃ h t, Str.split c s = h :: t.
Proof.
  induction s as [|a s (h & t & IH)]; cbn; [by eauto|].
  case_decide; [by eauto|]. rewrite IH. by eauto.
Qed.

Lemma join_split s : Str.join c (Str.split c s) = s.
Proof.
  induction s as [|a s IH]; [done|]. cbn [Str.split].
  destruct (split_cons s) as (h & t & Hs). rewrite Hs in *.
  case_decide as Ha.
  - subst a. destruct t; cbn in *; by rewrite IH.
  - destruct t; cbn in *; by rewrite <- IH.
Qed.

Lemma split_no_sep s : Forall (λ seg, Str.contains c seg = false) (Str.split c s).
Proof.
  induction s as [|a s IH]; cbn [Str.split]; [by repeat constructor|].
  case_decide as Ha; [by constructor|].
  destruct (Str.split c s) as [|h t]; inversion IH; subst;
    constructor; try done; cbn; by rewrite bool_decide_eq_false_2.
Qed.

Lemma split_append_sep h s :
  Str.contains c h = false →
  Str.split c (h +:+ String c s) = h :: Str.split c s.
Proof.
  induction h as [|a h IH]; cbn [Str.contains]; intros Hh.
  - change ("" +:+ String c s) with (String c s). cbn [Str.split].
    by rewrite decide_True.
  - apply orb_false_iff in Hh as [Ha Hh]. apply bool_decide_eq_false in Ha.
    change (String a h +:+ String c s) with (String a (h +:+ String c s)).
    cbn [Str.split]. rewrite decide_False by done. by rewrite IH.
Qed.

Lemma split_no_sep_id h :
  Str.contains c h = false → Str.split c h = [h].
Proof.
  induction h as [|a h IH]; cbn [Str.contains Str.split]; intros Hh; [done|].
  apply orb_false_iff in Hh as [Ha Hh]. apply bool_decide_eq_false in Ha.
  rewrite decide_False by done. by rewrite IH.
Qed.

Lemma split_join segs :
  segs ≠ [] → Forall (λ seg, Str.contains c seg = false) segs →
  Str.split c (Str.join c segs) = segs.
Proof.
  intros Hne Hall. induction Hall as [|h t Hh Ht IH]; [done|].
  destruct t as [|h' t']; cbn [Str.join].
  - by apply split_no_sep_id.
  - rewrite split_append_sep by done. f_equal. by apply IH.
Qed.

Lemma split_head_nonempty s :
  s ≠ "" → Str.startsWith c s = false →
  ∃ h t, Str.split c s = h :: t ∧ h ≠ "".
Proof.
  destruct s as [|a s]; [done|]. cbn [Str.startsWith Str.split]. intros _ Ha.
  apply bool_decide_eq_false in Ha. rewrite decide_False by done.
  destruct (split_cons s) as (h & t & ->). by eauto.
Qed.

End SplitJoin.

(** ** Nodes by position *)

Section TreeInvariant.
Context (pathSet : gset string).

Lemma children_mark cp n : children (mark pathSet cp n) = children n.
Proof. unfold mark. by case_decide. Qed.

Lemma path_mark cp n : path (mark pathSet cp n) = path n.
Proof. unfold mark. by case_decide. Qed.

Lemma name_mark cp n : name (mark pathSet cp n) = name n.
Proof. unfold mark. by case_decide. Qed.

Lemma nodeAt_children segs t t' :
  segs ≠ [] → children t = children t' → nodeAt segs t = nodeAt segs t'.
Proof. destruct segs; [done|]. cbn. by intros _ ->. Qed.

Lemma nodeAt_walkParts_cons s rest p r cp t :
  nodeAt (s :: rest) (walkParts pathSet (p :: r) cp t)
  = if decide (s = p)
    then nodeAt rest (walkParts pathSet r (extendPath cp p)
                        (mark pathSet (extendPath cp p)
                           (childOrNew t p (extendPath cp p))))
    else nodeAt (s :: rest) t.
Proof.
  cbn. case_decide as Hs.
  - subst. by rewrite lookup_insert_eq.
  - by rewrite lookup_insert_ne.
Qed.

Lemma described_childOrNew cp p t :
  described pathSet cp t →
  described pathSet (extendPath cp p)
    (mark pathSet (extendPath cp p) (childOrNew t p (extendPath cp p))).
Proof.
  intros Ht segs n Hne Hn.
  rewrite (nodeAt_children segs _ (childOrNew t p (extendPath cp p))) in Hn
    by (done || apply children_mark).
  unfold childOrNew in Hn. destruct (children t !! p) as [c|] eqn:Hc.
  - destruct (Ht (p :: segs) n) as (H1 & H2 & H3); [done| |].
    { cbn. by rewrite Hc. }
    split_and!; try done. rewrite H2. by destruct segs.
  - destruct segs; [done|]. cbn in Hn. by rewrite lookup_empty in Hn.
Qed.

Lemma described_top cp p t :
  described pathSet cp t →
  let cp' := extendPath cp p in
  let c := mark pathSet cp' (childOrNew t p cp') in
  path c = cp' ∧ name c = p ∧ (isSelectable c = true ↔ cp' ∈ pathSet).
Proof.
  intros Ht cp' c. subst c. rewrite path_mark, name_mark.
  unfold childOrNew, mark. destruct (children t !! p) as [c|] eqn:Hc.
  - destruct (Ht [p] c) as (H1 & H2 & H3); [done| |].
    { cbn. by rewrite Hc. }
    split_and!; try done. case_decide; [done|]. apply H3.
  - split_and!; try done. case_decide; cbn; [done|]. split; [done|].
    by intros.
Qed.

Lemma described_walkParts ps cp t :
  described pathSet cp t → described pathSet cp (walkParts pathSet ps cp t).
Proof.
  revert cp t. induction ps as [|p r IH]; intros cp t Ht; [done|].
  intros [|s rest] n Hne Hn; [done|].
  rewrite nodeAt_walkParts_cons in Hn. case_decide as Hs; [subst s|by apply Ht].
  destruct rest as [|s' rest'].
  - cbn in Hn. injection Hn as <-.
    rewrite walkParts_path, walkParts_name, walkParts_isSelectable.
    apply (described_top cp p t Ht).
  - apply (IH _ _ (described_childOrNew cp p t Ht)) in Hn; [|done].
    apply Hn.
Qed.

Lemma described_foldl l t :
  described pathSet "" t → described pathSet "" (foldl (addPath pathSet) t l).
Proof.
  revert t. induction l as [|p l IH]; intros t Ht; [done|]. cbn. apply IH.
  unfold addPath. case_decide; [done|]. by apply described_walkParts.
Qed.

(** The walk creates the node at the end of its segment list and keeps
    every node that was there. *)
Lemma nodeAt_walkParts_self ps cp t :
  is_Some (nodeAt ps (walkParts pathSet ps cp t)).
Proof.
  revert cp t. induction ps as [|p r IH]; intros cp t; [by eexists|].
  rewrite nodeAt_walkParts_cons, decide_True by done. apply IH.
Qed.

Lemma nodeAt_walkParts_mono segs ps cp t :
  is_Some (nodeAt segs t) → is_Some (nodeAt segs (walkParts pathSet ps cp t)).
Proof.
  revert ps cp t. induction segs as [|s rest IH]; intros ps cp t Hs.
  { by eexists. }
  destruct ps as [|p r]; [done|].
  rewrite nodeAt_walkParts_cons. case_decide as Hsp; [subst s|done].
  apply IH. cbn in Hs. destruct rest as [|s' rest']; [by eexists|].
  rewrite (nodeAt_children _ _ (childOrNew t p (extendPath cp p)))
    by (done || apply children_mark).
  unfold childOrNew. destruct (children t !! p); [done|].
  by destruct Hs.
Qed.

Lemma nodeAt_foldl_mono segs l t :
  is_Some (nodeAt segs t) → is_Some (nodeAt segs (foldl (addPath pathSet) t l)).
Proof.
  revert t. induction l as [|p l IH]; intros t Ht; [done|]. cbn. apply IH.
  unfold addPath. case_decide; [done|]. by apply nodeAt_walkParts_mono.
Qed.

Lemma nodeAt_foldl_elem p l t :
  p ∈ l → p ≠ "" →
  is_Some (nodeAt (Str.split "/" p) (foldl (addPath pathSet) t l)).
Proof.
  revert t. induction l as [|q l IH]; intros t Hin Hp.
  { by apply elem_of_nil in Hin. }
  apply elem_of_cons in Hin as [->|Hin]; [|by apply IH].
  cbn. apply nodeAt_foldl_mono. unfold addPath. rewrite decide_False by done.
  apply nodeAt_walkParts_self.
Qed.

End TreeInvariant.

(** ** Paths of nodes and uniqueness *)

Lemma append_assoc (a b c : string) : (a +:+ b) +:+ c = a +:+ (b +:+ c).
Proof.
  induction a as [|x a IH]; [done|].
  change (String x ((a +:+ b) +:+ c) = String x (a +:+ (b +:+ c))).
  by rewrite IH.
Qed.

Lemma append_empty_r (a : string) : a +:+ "" = a.
Proof.
  induction a as [|x a IH]; [done|].
  change (String x (a +:+ "") = String x a). by rewrite IH.
Qed.

Lemma append_nonempty (a b : string) : a ≠ "" → a +:+ b ≠ "".
Proof. by destruct a. Qed.

Lemma pathFrom_join cp segs :
  cp ≠ "" → pathFrom cp segs = Str.join "/" (cp :: segs).
Proof.
  revert cp. induction segs as [|x segs IH]; intros cp Hcp; [done|].
  unfold pathFrom. cbn [foldl]. fold (pathFrom (extendPath cp x) segs).
  unfold extendPath. rewrite decide_False by done.
  rewrite IH by by apply append_nonempty.
  destruct segs as [|y segs]; cbn [Str.join]; [done|].
  by rewrite append_assoc.
Qed.

Lemma pathFrom_root_join h segs :
  h ≠ "" → pathFrom "" (h :: segs) = Str.join "/" (h :: segs).
Proof. intros Hh. by rewrite <- pathFrom_join. Qed.

Section TreeShape.
Context (pathSet : gset string).

Lemma slashFree_child p c t :
  children t !! p = Some c → slashFree t → slashFree c.
Proof.
  intros Hc Ht segs n Hn. specialize (Ht (p :: segs) n). cbn in Ht.
  rewrite Hc in Ht. specialize (Ht Hn). by inversion Ht.
Qed.

Lemma slashFree_childOrNew cp cp' p t :
  slashFree t → slashFree (mark pathSet cp (childOrNew t p cp')).
Proof.
  intros Ht [|s rest] n Hn; [by constructor|].
  rewrite (nodeAt_children _ _ (childOrNew t p cp')) in Hn
    by (done || apply children_mark).
  unfold childOrNew in Hn. destruct (children t !! p) as [c|] eqn:Hc.
  - by apply (slashFree_child p c t Hc Ht _ n).
  - cbn in Hn. by rewrite lookup_empty in Hn.
Qed.

Lemma slashFree_walkParts ps cp t :
  Forall (λ seg, Str.contains "/" seg = false) ps →
  slashFree t → slashFree (walkParts pathSet ps cp t).
Proof.
  intros Hps. revert cp t.
  induction Hps as [|p r Hp Hr IH]; intros cp t Ht; [done|].
  intros [|s rest] n Hn; [by constructor|].
  rewrite nodeAt_walkParts_cons in Hn.
  case_decide as Hs; [subst s|by apply (Ht _ n)].
  constructor; [done|].
  eapply IH; [|exact Hn]. by apply slashFree_childOrNew.
Qed.

Lemma slashFree_foldl l t :
  slashFree t → slashFree (foldl (addPath pathSet) t l).
Proof.
  revert t. induction l as [|p l IH]; intros t Ht; [done|]. cbn. apply IH.
  unfold addPath. case_decide; [done|].
  apply slashFree_walkParts; [apply split_no_sep | done].
Qed.

Lemma no_empty_child_foldl l t :
  (∀ q, q ∈ l → Str.startsWith "/" q = false) →
  children t !! "" = None →
  children (foldl (addPath pathSet) t l) !! "" = None.
Proof.
  revert t. induction l as [|p l IH]; intros t Hl Ht; [done|]. cbn.
  apply IH; [intros q Hq; apply Hl; by right|].
  unfold addPath. case_decide as Hp; [done|].
  destruct (split_head_nonempty "/" p Hp) as (h & r & -> & Hh).
  { apply Hl. by left. }
  cbn. by rewrite lookup_insert_ne.
Qed.

End TreeShape.

Lemma buildTree_described paths :
  described (list_to_set paths) "" (buildTree paths).
Proof.
  apply described_foldl. intros [|s rest] n Hne Hn; [done|].
  cbn in Hn. by rewrite lookup_empty in Hn.
Qed.

Lemma buildTree_slashFree paths : slashFree (buildTree paths).
Proof.
  apply slashFree_foldl. intros [|s rest] n Hn; [by constructor|].
  cbn in Hn. by rewrite lookup_empty in Hn.
Qed.

(** Without a leading slash anywhere in the list, a node's path determines
    its position. *)
Lemma buildTree_position paths segs n :
  (∀ q, q ∈ paths → Str.startsWith "/" q = false) →
  segs ≠ [] → nodeAt segs (buildTree paths) = Some n →
  Str.split "/" (path n) = segs.
Proof.
  intros Hl Hne Hn.
  destruct (buildTree_described paths segs n Hne Hn) as (Hp & _ & _).
  pose proof (buildTree_slashFree paths segs n Hn) as Hfree.
  destruct segs as [|s rest]; [done|].
  assert (s ≠ "") as Hs.
  { intros ->. cbn in Hn.
    unfold buildTree in Hn. by rewrite no_empty_child_foldl in Hn. }
  rewrite Hp, pathFrom_root_join by done. by apply split_join.
Qed.

(** ** The folder cache *)

Section CacheFacts.
Import Cache.

Lemma load_cached getImages folderPath st :
  is_Some (imagesByFolder st !! folderPath) →
  loadImagesForFolder getImages folderPath st = st.
Proof. intros [imgs H]. unfold loadImagesForFolder. by rewrite H. Qed.

Lemma load_fills getImages folderPath st :
  is_Some (imagesByFolder (loadImagesForFolder getImages folderPath st)
             !! folderPath).
Proof.
  unfold loadImagesForFolder.
  destruct (imagesByFolder st !! folderPath) eqn:Hc; [by rewrite Hc|].
  destruct (getImages folderPath); cbn; by rewrite lookup_insert_eq.
Qed.

Lemma load_requests getImages folderPath st :
  imagesByFolder st !! folderPath = None →
  requests (loadImagesForFolder getImages folderPath st)
  = requests st ++ [folderPath].
Proof.
  intros Hc. unfold loadImagesForFolder. rewrite Hc.
  by destruct (getImages folderPath).
Qed.

Lemma load_failed getImages folderPath st :
  imagesByFolder st !! folderPath = None → getImages folderPath = None →
  imagesByFolder (loadImagesForFolder getImages folderPath st) !! folderPath
  = Some [].
Proof.
  intros Hc Hf. unfold loadImagesForFolder. rewrite Hc, Hf. cbn.
  by rewrite lookup_insert_eq.
Qed.

End CacheFacts.

(** C5: a call for a folder path the cache already has an entry for, an
    empty list included, fetches nothing and changes nothing; so of two
    calls in a row for a path not yet cached the first sends the one
    request and the second leaves the state, and with it the cached list,
    as the first left it. *)
Theorem C5_ensure_loaded_once
    (getImages getImages' : string → option (list string))
    (folderPath : string) (st : Cache.State) :
  (is_Some (Cache.imagesByFolder st !! folderPath) →
     Cache.loadImagesForFolder getImages folderPath st = st)
  ∧ (Cache.imagesByFolder st !! folderPath = Some [] →
     Cache.loadImagesForFolder getImages folderPath st = st)
  ∧ (Cache.imagesByFolder st !! folderPath = None →
     let st1 := Cache.loadImagesForFolder getImages folderPath st in
     let st2 := Cache.loadImagesForFolder getImages' folderPath st1 in
     st2 = st1
     ∧ Cache.requests st2 = Cache.requests st ++ [folderPath]
     ∧ Cache.imagesByFolder st2 !! folderPath
       = Cache.imagesByFolder st1 !! folderPath).
Proof.
  split_and!.
  - apply load_cached.
  - intros H. apply load_cached. by rewrite H.
  - intros Hc st1 st2.
    assert (st2 = st1) as -> by apply load_cached, load_fills.
    split_and!; [done | by apply load_requests | done].
Qed.

Lemma C5_ensure_loaded_once_witness :
  let st := Cache.mkState ∅ false [] [] in
  let g := λ _ : string, Some ["/a/b/x.JPG"] in
  Cache.requests
    (Cache.loadImagesForFolder g "/a/b" (Cache.loadImagesForFolder g "/a/b" st))
  = ["/a/b"].
Proof.
  intros st g.
  destruct (C5_ensure_loaded_once g g "/a/b" st) as (_ & _ & H).
  destruct (H (lookup_empty _)) as (_ & Hreq & _). exact Hreq.
Defined.

(** C6: when the fetch made by a call fails, the cache afterwards holds the
    empty list for that path and a further call fetches nothing; after the
    cache has been cleared by a refresh the next call fetches again. *)
Theorem C6_failed_fetch_cached
    (getImages getImages' : string → option (list string))
    (folderPath : string) (st : Cache.State) :
  Cache.imagesByFolder st !! folderPath = None →
  getImages folderPath = None →
  let st1 := Cache.loadImagesForFolder getImages folderPath st in
  Cache.imagesByFolder st1 !! folderPath = Some []
  ∧ Cache.requests st1 = Cache.requests st ++ [folderPath]
  ∧ Cache.loadImagesForFolder getImages' folderPath st1 = st1
  ∧ Cache.imagesByFolder (Cache.handleRefreshFolders st1) !! folderPath = None
  ∧ Cache.requests
      (Cache.loadImagesForFolder getImages' folderPath
         (Cache.handleRefreshFolders st1))
    = Cache.requests st ++ [folderPath; folderPath].
Proof.
  intros Hc Hf st1. split_and!.
  - by apply load_failed.
  - by apply load_requests.
  - apply load_cached, load_fills.
  - done.
  - rewrite load_requests by done. cbn. subst st1.
    rewrite load_requests by done. by rewrite <- app_assoc.
Qed.

Lemma C6_failed_fetch_cached_witness :
  let st := Cache.mkState ∅ false [] [] in
  let failing := λ _ : string, @None (list string) in
  let st1 := Cache.loadImagesForFolder failing "/a/b" st in
  Cache.imagesByFolder st1 !! "/a/b" = Some []
  ∧ Cache.loadImagesForFolder (λ _, Some ["/a/b/x.jpg"]) "/a/b" st1 = st1.
Proof.
  intros st failing st1.
  destruct (C6_failed_fetch_cached failing (λ _, Some ["/a/b/x.jpg"]) "/a/b" st
              (lookup_empty _) eq_refl) as (H1 & _ & H3 & _).
  split; [exact H1 | exact H3].
Defined.

(** ** The byte-stream reader *)

Section ReaderFacts.
Import Exif.
Local Open Scope Z_scope.
Context (stringToIndex : string → outcome Z).

Lemma byteAt_bounds file i : 0 ≤ byteAt file i < 256.
Proof.
  unfold byteAt. destruct (file !! Z.to_nat i) as [b|]; [|lia].
  pose proof (Byte.to_N_bounded b). lia.
Qed.

Lemma uint16At_bounds file index littleEndian v :
  uint16At file index littleEndian = Ok v → 0 ≤ v < 65536.
Proof.
  unfold uint16At. case_match; [|done]. intros [= <-].
  pose proof (byteAt_bounds file index).
  pose proof (byteAt_bounds file (index + 1)).
  destruct littleEndian; lia.
Qed.

Lemma uint32At_bounds file index littleEndian v :
  uint32At file index littleEndian = Ok v → 0 ≤ v < 4294967296.
Proof.
  unfold uint32At. case_match; [|done]. intros [= <-].
  pose proof (byteAt_bounds file index).
  pose proof (byteAt_bounds file (index + 1)).
  pose proof (byteAt_bounds file (index + 2)).
  pose proof (byteAt_bounds file (index + 3)).
  destruct littleEndian; lia.
Qed.

Lemma getUint16_bounds file offset littleEndian v :
  getUint16 stringToIndex file offset littleEndian = Ok v → 0 ≤ v < 65536.
Proof.
  unfold getUint16. destruct (toIndex stringToIndex offset); [|done].
  apply uint16At_bounds.
Qed.

Lemma getUint32_bounds file offset littleEndian v :
  getUint32 stringToIndex file offset littleEndian = Ok v →
  0 ≤ v < 4294967296.
Proof.
  unfold getUint32. destruct (toIndex stringToIndex offset); [|done].
  apply uint32At_bounds.
Qed.

Lemma getUint8_in_range file offset :
  0 ≤ offset → offset + 1 ≤ byteLength file →
  getUint8 stringToIndex file (OInt offset) = Ok (byteAt file offset).
Proof.
  intros H0 H1. unfold getUint8, uint8At, inRange. cbn.
  by rewrite (proj2 (Z.leb_le _ _) H0), (proj2 (Z.leb_le _ _) H1).
Qed.

Lemma getUint8_length file offset v :
  getUint8 stringToIndex file (OInt offset) = Ok v →
  offset + 1 ≤ byteLength file.
Proof.
  unfold getUint8, uint8At, inRange. cbn. case_match eqn:Hr; [|done].
  intros _. apply andb_true_iff in Hr as [_ Hr]. by apply Z.leb_le in Hr.
Qed.

End ReaderFacts.

(** ** The segment scan *)

Section ScanFacts.
Import Exif.
Local Open Scope Z_scope.
Context (stringToIndex : string → outcome Z).

(** A round that goes on moves the offset forward by at least two bytes and
    started at least four bytes before the end. *)
Lemma scanStep_advance dataView offset offset' :
  scanStep stringToIndex dataView offset = Ok (Continue offset') →
  offset + 2 ≤ offset' ∧ offset + 4 ≤ byteLength dataView.
Proof.
  unfold scanStep. destruct (offset <? byteLength dataView) eqn:H1; [|done].
  destruct (byteLength dataView <? offset + 4) eqn:H2; [done|]. cbn [negb].
  apply Z.ltb_ge in H2.
  destruct (getUint8 _ dataView (OInt offset)) as [prefix|]; [|done].
  cbn [mbind outcome_bind].
  destruct (negb (prefix =? 255)); [done|].
  destruct (getUint8 _ dataView (OInt (offset + 1))) as [marker|]; [|done].
  cbn [mbind outcome_bind]. destruct (marker =? 225).
  { destruct (app1Tags _ dataView offset); done. }
  destruct (getUint16 _ dataView (OInt (offset + 2)) false) as [size|] eqn:Hs;
    [|done].
  cbn [mbind outcome_bind]. intros [= <-]. apply getUint16_bounds in Hs. lia.
Qed.

(** Enough rounds: the loop ends within [fuel] rounds as soon as twice
    [fuel] exceeds the bytes left. *)
Lemma scan_enough fuel dataView offset :
  (0 < fuel)%nat → byteLength dataView - offset < 2 * Z.of_nat fuel →
  is_Some (scan stringToIndex fuel dataView offset).
Proof.
  revert offset. induction fuel as [|fuel IH]; intros offset Hpos Hlt; [lia|].
  cbn [scan].
  destruct (scanStep _ dataView offset) as [[r|offset']|e] eqn:Hs;
    [by eexists | | by eexists].
  apply scanStep_advance in Hs as [Hadv Hend]. apply IH; lia.
Qed.

(** More rounds than needed change nothing. *)
Lemma scan_more fuel fuel' dataView offset r :
  scan stringToIndex fuel dataView offset = Some r → (fuel ≤ fuel')%nat →
  scan stringToIndex fuel' dataView offset = Some r.
Proof.
  revert fuel' offset. induction fuel as [|fuel IH]; intros fuel' offset Hs Hle.
  { done. }
  destruct fuel' as [|fuel']; [lia|]. cbn [scan] in *.
  destruct (scanStep _ dataView offset) as [[r'|offset']|e]; try done.
  apply IH; [done | lia].
Qed.

Lemma notJpeg_length dataView :
  notJpeg stringToIndex dataView = Ok false → 2 ≤ byteLength dataView.
Proof.
  unfold notJpeg. destruct (getUint8 _ dataView (OInt 0)) as [b0|]; [|done].
  cbn [mbind outcome_bind]. destruct (negb (b0 =? 255)); [done|].
  destruct (getUint8 _ dataView (OInt 1)) as [b1|] eqn:H1; [|done]. intros _.
  apply getUint8_length in H1. lia.
Qed.

Lemma getExifData_total arrayBuffer :
  is_Some (getExifData stringToIndex arrayBuffer).
Proof.
  unfold getExifData, getExifDataFuel.
  destruct (notJpeg _ arrayBuffer) as [[|]|e] eqn:Hj;
    [by eexists | | by eexists].
  apply notJpeg_length in Hj. unfold byteLength in *.
  apply scan_enough; unfold byteLength; lia.
Qed.

Lemma getExifData_fuel fuel arrayBuffer :
  (length arrayBuffer ≤ fuel)%nat →
  getExifDataFuel stringToIndex fuel arrayBuffer
  = getExifData stringToIndex arrayBuffer.
Proof.
  intros Hle. destruct (getExifData_total arrayBuffer) as [r Hr].
  rewrite Hr. unfold getExifData, getExifDataFuel in *.
  destruct (notJpeg _ arrayBuffer) as [[|]|e]; try done.
  by apply (scan_more (length arrayBuffer)).
Qed.

End ScanFacts.

(** C10: [getExifData] ends on every buffer, whatever the engine's
    conversion of strings.  The loop over the segments, given one round per
    byte of the buffer, never runs out of rounds, and more rounds give the
    same result; a round that goes on moves the offset forward by at least
    two bytes; the loops of a directory decode run for the entry count
    (below [2^16]), for the component count (below [2^32]) or for at most
    100 characters. *)
Theorem C10_getExifData_terminates
    (stringToIndex : string → Exif.outcome Z) (arrayBuffer : list byte) :
  is_Some (Exif.getExifData stringToIndex arrayBuffer)
  ∧ (∀ fuel, length arrayBuffer ≤ fuel →
       Exif.getExifDataFuel stringToIndex fuel arrayBuffer
       = Exif.getExifData stringToIndex arrayBuffer)
  ∧ (∀ offset offset',
       Exif.scanStep stringToIndex arrayBuffer offset
       = Exif.Ok (Exif.Continue offset') →
       (offset + 2 ≤ offset')%Z)
  ∧ (∀ dirStart littleEndian entries,
       Exif.getUint16 stringToIndex arrayBuffer dirStart littleEndian
       = Exif.Ok entries →
       (0 ≤ entries < 65536)%Z)
  ∧ (∀ offset littleEndian components,
       Exif.getUint32 stringToIndex arrayBuffer offset littleEndian
       = Exif.Ok components →
       (0 ≤ components < 4294967296)%Z
       ∧ Z.to_nat (Z.min (components - 1) 100) ≤ 100).
Proof.
  split_and!.
  - apply getExifData_total.
  - intros fuel Hf. by apply getExifData_fuel.
  - intros offset offset' Hs. by apply scanStep_advance in Hs as [? _].
  - intros dirStart le entries He. apply getUint16_bounds in He. lia.
  - intros offset le components Hc. apply getUint32_bounds in Hc. lia.
Qed.

Lemma C10_getExifData_terminates_witness :
  Exif.getExifDataFuel Samples.engine 100 Samples.twoSegments
  = Exif.getExifData Samples.engine Samples.twoSegments
  ∧ (2 + 2 ≤ 6)%Z.
Proof.
  destruct (C10_getExifData_terminates Samples.engine Samples.twoSegments)
    as (_ & Hfuel & Hadv & _).
  split.
  - apply Hfuel. cbn. lia.
  - apply Hadv. vm_compute. reflexivity.
Defined.

(** ** The marker check *)

Section MarkerFacts.
Import Exif.
Local Open Scope Z_scope.
Context (stringToIndex : string → outcome Z).

Lemma byte_of_code (b b' : byte) :
  Z.of_N (Byte.to_N b) = Z.of_N (Byte.to_N b') → b = b'.
Proof.
  intros H. apply N2Z.inj in H.
  pose proof (Byte.of_to_N b) as Hb. rewrite H, Byte.of_to_N in Hb.
  by injection Hb.
Qed.

Lemma getUint8_head b rest :
  getUint8 stringToIndex (b :: rest) (OInt 0) = Ok (Z.of_N (Byte.to_N b)).
Proof.
  rewrite getUint8_in_range; [done | lia |].
  unfold byteLength. cbn [length]. lia.
Qed.

Lemma getUint8_second b0 b1 rest :
  getUint8 stringToIndex (b0 :: b1 :: rest) (OInt 1)
  = Ok (Z.of_N (Byte.to_N b1)).
Proof.
  rewrite getUint8_in_range; [done | lia |].
  unfold byteLength. cbn [length]. lia.
Qed.

Lemma notJpeg_two b0 b1 rest :
  b0 ≠ xff ∨ b1 ≠ xd8 →
  notJpeg stringToIndex (b0 :: b1 :: rest) = Ok true.
Proof.
  intros Hm. unfold notJpeg. rewrite getUint8_head. cbn [mbind outcome_bind].
  destruct (Z.of_N (Byte.to_N b0) =? 255) eqn:H0; [|done]. cbn [negb].
  rewrite getUint8_second. cbn [mbind outcome_bind].
  destruct (Z.of_N (Byte.to_N b1) =? 216) eqn:H1; [|done].
  apply Z.eqb_eq in H0, H1.
  apply (byte_of_code b0 xff) in H0. apply (byte_of_code b1 xd8) in H1.
  by destruct Hm.
Qed.

Lemma notJpeg_one b0 : b0 ≠ xff → notJpeg stringToIndex [b0] = Ok true.
Proof.
  intros Hm. unfold notJpeg. rewrite getUint8_head. cbn [mbind outcome_bind].
  destruct (Z.of_N (Byte.to_N b0) =? 255) eqn:H0; [|done].
  apply Z.eqb_eq in H0. by apply (byte_of_code b0 xff) in H0.
Qed.

End MarkerFacts.

(** C2, as the code has it.  On a buffer of at least two bytes that does not
    begin with the marker [FF D8], and on a one-byte buffer other than [FF],
    [getExifData] returns [null] and throws nothing.  On the empty buffer
    and on the one-byte buffer [FF] the read of the marker itself is outside
    the buffer and its [RangeError] reaches the caller. *)
Theorem C2_getExifData_marker_check
    (stringToIndex : string → Exif.outcome Z) (arrayBuffer : list byte) :
  (∀ b0 b1 rest, arrayBuffer = b0 :: b1 :: rest → b0 ≠ xff ∨ b1 ≠ xd8 →
     Exif.getExifData stringToIndex arrayBuffer = Some (Exif.Ok None))
  ∧ (∀ b0, arrayBuffer = [b0] → b0 ≠ xff →
       Exif.getExifData stringToIndex arrayBuffer = Some (Exif.Ok None))
  ∧ (arrayBuffer = [xff] →
       Exif.getExifData stringToIndex arrayBuffer
       = Some (Exif.Throw Exif.RangeError))
  ∧ (arrayBuffer = [] →
       Exif.getExifData stringToIndex arrayBuffer
       = Some (Exif.Throw Exif.RangeError)).
Proof.
  split_and!.
  - intros b0 b1 rest -> Hm. unfold Exif.getExifData, Exif.getExifDataFuel.
    by rewrite notJpeg_two.
  - intros b0 -> Hm. unfold Exif.getExifData, Exif.getExifDataFuel.
    by rewrite notJpeg_one.
  - by intros ->.
  - by intros ->.
Qed.

Lemma C2_getExifData_marker_check_witness :
  Exif.getExifData Samples.engine [x89; x50; x4e; x47] = Some (Exif.Ok None).
Proof.
  destruct (C2_getExifData_marker_check Samples.engine [x89; x50; x4e; x47])
    as (H & _).
  apply (H x89 x50 [x4e; x47] eq_refl). by left.
Defined.

(** C2 as stated fails: the empty buffer, and a buffer cut off inside the
    Exif segment, make [getExifData] throw. *)
Lemma C2_counterexample :
  Exif.getExifData Samples.engine [] = Some (Exif.Throw Exif.RangeError)
  ∧ Exif.getExifData Samples.engine Samples.truncated
    = Some (Exif.Throw Exif.RangeError).
Proof. split; vm_compute; reflexivity. Qed.

(** ** Directory entries *)

Section EntryFacts.
Import Exif.
Local Open Scope Z_scope.
Context (stringToIndex : string → outcome Z).
Context (file : list byte) (tiffStart : Z) (dirStart : Offset)
        (tags : gmap Z string) (bigEnd : bool).

(** An entry whose header reads well and whose tag and format are known is
    decoded by [readValue]. *)
Lemma readEntry_known i result tagId tagName format components typeSize
    valuePointer :
  let entryOffset := plus (plus dirStart (i * 12)) 2 in
  getUint16 stringToIndex file entryOffset (negb bigEnd) = Ok tagId →
  tags !! tagId = Some tagName →
  getUint16 stringToIndex file (plus entryOffset 2) (negb bigEnd)
  = Ok format →
  getUint32 stringToIndex file (plus entryOffset 4) (negb bigEnd)
  = Ok components →
  typeSizeOf format = Some typeSize → typeSize ≠ 0 →
  getUint32 stringToIndex file (plus entryOffset 8) (negb bigEnd)
  = Ok valuePointer →
  readEntry stringToIndex file tiffStart dirStart tags bigEnd i result
  = (value ← readValue stringToIndex file bigEnd format components
               (components * typeSize) (plus entryOffset 8) valuePointer
               (if 4 <? components * typeSize
                then OInt (tiffStart + valuePointer)
                else plus entryOffset 8);
     match value with
     | Some v => Ok (<[tagName := v]> result)
     | None => Ok result
     end).
Proof.
  intros entryOffset Hid Htag Hfmt Hcomp Hsize Hnz Hptr. unfold readEntry.
  fold entryOffset. rewrite Hid. cbn [mbind outcome_bind]. rewrite Htag, Hfmt.
  cbn [mbind outcome_bind]. rewrite Hcomp. cbn [mbind outcome_bind].
  rewrite Hsize. rewrite (proj2 (Z.eqb_neq _ _) Hnz). by rewrite Hptr.
Qed.

Lemma asciiLoop_reads address k : ∀ n str,
  0 ≤ address + n →
  address + n + Z.of_nat k ≤ byteLength file →
  asciiLoop stringToIndex file (OInt address) k n str
  = Ok (str +:+ charsOf (take k (drop (Z.to_nat (address + n)) file))).
Proof.
  induction k as [|k IH]; intros n str H0 Hlen.
  - change (Ok str = Ok (str +:+ "")). by rewrite append_empty_r.
  - cbn [asciiLoop plus]. rewrite getUint8_in_range by lia.
    cbn [mbind outcome_bind]. rewrite IH by lia.
    unfold byteAt, byteLength in *.
    destruct (file !! Z.to_nat (address + n)) as [b|] eqn:Hb.
    2:{ apply lookup_ge_None in Hb. lia. }
    rewrite (drop_S _ _ _ Hb). cbn [take charsOf].
    replace (Z.to_nat (address + (n + 1)))
      with (S (Z.to_nat (address + n))) by lia.
    by rewrite append_assoc.
Qed.

End EntryFacts.

(** C4, as the code has it.  For an entry whose tag is in the table and
    whose format has a known size, and that is neither ASCII nor RATIONAL:
    unless it has a single component of at most four bytes, the raw
    four-byte value field becomes the value of the tag; with a single
    component of at most four bytes and a format other than SHORT and LONG
    nothing is stored. *)
Theorem C4_raw_pointer_stored (stringToIndex : string → Exif.outcome Z)
    (file : list byte) (tiffStart : Z) (dirStart : Exif.Offset)
    (tags : gmap Z string) (bigEnd : bool) (i : Z)
    (result : gmap string Exif.Value) (tagId : Z) (tagName : string)
    (format components typeSize valuePointer : Z) :
  let entryOffset := Exif.plus (Exif.plus dirStart (i * 12)) 2 in
  Exif.getUint16 stringToIndex file entryOffset (negb bigEnd)
  = Exif.Ok tagId →
  tags !! tagId = Some tagName →
  Exif.getUint16 stringToIndex file (Exif.plus entryOffset 2) (negb bigEnd)
  = Exif.Ok format →
  Exif.getUint32 stringToIndex file (Exif.plus entryOffset 4) (negb bigEnd)
  = Exif.Ok components →
  Exif.typeSizeOf format = Some typeSize → typeSize ≠ 0%Z →
  Exif.getUint32 stringToIndex file (Exif.plus entryOffset 8) (negb bigEnd)
  = Exif.Ok valuePointer →
  format ≠ 2%Z → format ≠ 5%Z →
  (¬ (components = 1 ∧ components * typeSize ≤ 4)%Z →
     Exif.readEntry stringToIndex file tiffStart dirStart tags bigEnd i result
     = Exif.Ok (<[tagName := Exif.VNum (Exif.Num valuePointer)]> result))
  ∧ ((components = 1 ∧ components * typeSize ≤ 4)%Z →
     format ≠ 3%Z → format ≠ 4%Z →
     Exif.readEntry stringToIndex file tiffStart dirStart tags bigEnd i result
     = Exif.Ok result).
Proof.
  intros entryOffset Hid Htag Hfmt Hcomp Hsize Hnz Hptr Hf2 Hf5.
  rewrite (readEntry_known stringToIndex file tiffStart dirStart tags bigEnd
             i result tagId tagName format components typeSize valuePointer)
    by done.
  unfold Exif.readValue.
  rewrite (proj2 (Z.eqb_neq _ _) Hf2), (proj2 (Z.eqb_neq _ _) Hf5).
  split.
  - intros Hmany.
    destruct ((components =? 1)%Z && (components * typeSize <=? 4)%Z) eqn:Hc;
      [|done].
    apply andb_true_iff in Hc as [H1 H2].
    apply Z.eqb_eq in H1. apply Z.leb_le in H2. by destruct Hmany.
  - intros [H1 H2] Hf3 Hf4.
    rewrite (proj2 (Z.eqb_eq _ _) H1), (proj2 (Z.leb_le _ _) H2).
    by rewrite (proj2 (Z.eqb_neq _ _) Hf3), (proj2 (Z.eqb_neq _ _) Hf4).
Qed.

Lemma C4_raw_pointer_stored_witness :
  Exif.readEntry Samples.engine Samples.undefinedEntry 0 (Exif.OInt 0)
    Exif.EXIF_TAGS true 0 ∅
  = Exif.Ok (<["ExifVersion" := Exif.VNum (Exif.Num 0x30323230)]> ∅).
Proof.
  refine (proj1 (C4_raw_pointer_stored Samples.engine Samples.undefinedEntry
                   0 (Exif.OInt 0) Exif.EXIF_TAGS true 0 ∅ 0x9000
                   "ExifVersion" 7 4 1 0x30323230 _ _ _ _ _ _ _ _ _) _);
    first [ vm_compute; reflexivity | lia ].
Defined.

(** C4 as stated fails: an entry of format BYTE with one component is not
    ASCII, not RATIONAL and not a SHORT or LONG, and its tag is in the
    table; nothing is stored for it. *)
Lemma C4_counterexample :
  let file := Samples.byteEntry in
  Exif.getUint16 Samples.engine file (Exif.OInt 2) false = Exif.Ok 0x0112%Z
  ∧ Exif.EXIF_TAGS !! 0x0112%Z = Some "Orientation"
  ∧ Exif.getUint16 Samples.engine file (Exif.OInt 4) false = Exif.Ok 1%Z
  ∧ Exif.typeSizeOf 1 = Some 1%Z
  ∧ Exif.getUint32 Samples.engine file (Exif.OInt 10) false
    = Exif.Ok 0x05000000%Z
  ∧ Exif.readTags Samples.engine file 0 (Exif.OInt 0) Exif.EXIF_TAGS true
    = Exif.Ok ∅.
Proof. cbv zeta. split_and!; vm_compute; reflexivity. Qed.

(** C8, as the code has it: an ASCII entry with component count
    [components] whose characters lie inside the buffer is decoded to the
    string of the [min(components - 1, 100)] bytes at the value address
    (none when that number is negative), with the white space removed at
    both ends. *)
Theorem C8_ascii_value (stringToIndex : string → Exif.outcome Z)
    (file : list byte) (tiffStart : Z) (dirStart : Exif.Offset)
    (tags : gmap Z string) (bigEnd : bool) (i : Z)
    (result : gmap string Exif.Value) (tagId : Z) (tagName : string)
    (components valuePointer address : Z) :
  let entryOffset := Exif.plus (Exif.plus dirStart (i * 12)) 2 in
  let count := Z.to_nat (Z.min (components - 1) 100) in
  let valueAddress :=
    if (4 <? components)%Z then Exif.OInt (tiffStart + valuePointer)
    else Exif.plus entryOffset 8 in
  Exif.getUint16 stringToIndex file entryOffset (negb bigEnd)
  = Exif.Ok tagId →
  tags !! tagId = Some tagName →
  Exif.getUint16 stringToIndex file (Exif.plus entryOffset 2) (negb bigEnd)
  = Exif.Ok 2%Z →
  Exif.getUint32 stringToIndex file (Exif.plus entryOffset 4) (negb bigEnd)
  = Exif.Ok components →
  Exif.getUint32 stringToIndex file (Exif.plus entryOffset 8) (negb bigEnd)
  = Exif.Ok valuePointer →
  valueAddress = Exif.OInt address →
  (0 ≤ address)%Z →
  (address + Z.of_nat count ≤ Exif.byteLength file)%Z →
  Exif.readEntry stringToIndex file tiffStart dirStart tags bigEnd i result
  = Exif.Ok (<[tagName :=
                 Exif.VStr (Exif.trim (Exif.charsOf
                   (take count (drop (Z.to_nat address) file))))]>
               result).
Proof.
  intros entryOffset count valueAddress Hid Htag Hfmt Hcomp Hptr Haddr H0 Hlen.
  rewrite (readEntry_known stringToIndex file tiffStart dirStart tags bigEnd
             i result tagId tagName 2 components 1 valuePointer)
    by done.
  unfold Exif.readValue. cbn [Z.eqb Pos.eqb]. fold entryOffset.
  replace (components * 1)%Z with components by lia. fold valueAddress.
  fold count. rewrite Haddr, asciiLoop_reads by lia.
  replace (address + 0)%Z with address by lia. done.
Qed.

Lemma C8_ascii_value_witness :
  Exif.readEntry Samples.engine Samples.asciiEntry 0 (Exif.OInt 0)
    Exif.EXIF_TAGS true 0 ∅
  = Exif.Ok (<["Make" := Exif.VStr "a"]> ∅).
Proof.
  refine (C8_ascii_value Samples.engine Samples.asciiEntry 0 (Exif.OInt 0)
            Exif.EXIF_TAGS true 0 ∅ 0x010F "Make" 3 0x20610000 10
            _ _ _ _ _ _ _ _);
    first [ vm_compute; reflexivity | vm_compute; discriminate ].
Defined.

(** C8 as stated fails: white space before the first other character is
    removed as well.  The two bytes read are a space and [a]; the decoded
    value is ["a"], not those bytes with the trailing white space removed. *)
Lemma C8_counterexample :
  let file := Samples.asciiEntry in
  Exif.readTags Samples.engine file 0 (Exif.OInt 0) Exif.EXIF_TAGS true
  = Exif.Ok {[ "Make" := Exif.VStr "a" ]}
  ∧ Exif.trimEnd (Exif.charsOf (take 2 (drop 10 file))) = " a"
  ∧ Exif.VStr "a" ≠ Exif.VStr " a".
Proof. cbv zeta. split_and!; [vm_compute; reflexivity .. | discriminate]. Qed.

(** ** The coordinates *)

Section GpsFacts.
Import Exif.
Context (stringToIndex : string → outcome Z).

Lemma scanStep_returns dataView offset output :
  scanStep stringToIndex dataView offset = Ok (Done (Some output)) →
  ∃ tags, app1Tags stringToIndex dataView offset = Ok (Some tags)
          ∧ finishTags tags = Some output.
Proof.
  unfold scanStep. destruct (negb _); [done|]. destruct (_ <? _)%Z; [done|].
  destruct (getUint8 _ dataView (OInt offset)) as [prefix|]; [|done].
  cbn [mbind outcome_bind]. destruct (negb _); [done|].
  destruct (getUint8 _ dataView (OInt (offset + 1))) as [marker|]; [|done].
  cbn [mbind outcome_bind]. destruct (marker =? 225)%Z.
  - destruct (app1Tags _ dataView offset) as [[tags|]|]; try done.
    cbn [mbind outcome_bind]. intros [= H]. by exists tags.
  - by destruct (getUint16 _ dataView (OInt (offset + 2)) false).
Qed.

Lemma scan_returns fuel dataView offset output :
  scan stringToIndex fuel dataView offset = Some (Ok (Some output)) →
  ∃ offset' tags, app1Tags stringToIndex dataView offset' = Ok (Some tags)
                  ∧ finishTags tags = Some output.
Proof.
  revert offset. induction fuel as [|fuel IH]; intros offset; [done|].
  cbn [scan]. destruct (scanStep _ dataView offset) as [[r|offset']|e] eqn:Hs.
  - intros [= ->]. exists offset. by apply scanStep_returns.
  - apply IH.
  - done.
Qed.

Lemma getExifData_returns arrayBuffer output :
  getExifData stringToIndex arrayBuffer = Some (Ok (Some output)) →
  ∃ offset tags, app1Tags stringToIndex arrayBuffer offset = Ok (Some tags)
                 ∧ finishTags tags = Some output.
Proof.
  unfold getExifData, getExifDataFuel.
  destruct (notJpeg _ arrayBuffer) as [[|]|]; try done. apply scan_returns.
Qed.

Lemma finishTags_lookup tags output key :
  finishTags tags = Some output →
  key ≠ "GPSInfoIFDPointer" → key ≠ "ExifIFDPointer" →
  output !! key = roundValue <$> convertGPS tags !! key.
Proof.
  unfold finishTags. case_match; [|done]. intros [= <-] H1 H2.
  by rewrite lookup_fmap, !lookup_delete_ne.
Qed.

Lemma gpsTry_valid tags d m s d' m' s' ref ref' :
  tags !! "GPSLatitude" = Some (VArr [d; m; s]) →
  tags !! "GPSLongitude" = Some (VArr [d'; m'; s']) →
  tags !! "GPSLatitudeRef" = Some (VStr ref) →
  tags !! "GPSLongitudeRef" = Some (VStr ref') →
  gpsTry tags
  = Some (<["GPSLongitude" := VNum (signed ref' "E" (toDecimal d' m' s'))]>
            (<["GPSLatitude" := VNum (signed ref "N" (toDecimal d m s))]> 
               tags)).
Proof.
  intros H1 H2 H3 H4. unfold gpsTry. rewrite H1, H2, H3.
  by rewrite lookup_insert_ne, H4.
Qed.

Lemma gpsTry_Some tags converted :
  gpsTry tags = Some converted → gpsValid tags.
Proof.
  unfold gpsTry, gpsValid. intros H.
  repeat case_match; try done; simplify_eq.
  rewrite lookup_insert_ne in * by done. repeat eexists; eauto.
Qed.

(** What the conversion leaves at the four fields. *)
Lemma convertGPS_fields tags :
  if gpsComplete tags then
    convertGPS tags !! "GPSLatitudeRef" = None
    ∧ convertGPS tags !! "GPSLongitudeRef" = None
    ∧ ((∃ d m s d' m' s' ref ref',
          tags !! "GPSLatitude" = Some (VArr [d; m; s])
          ∧ tags !! "GPSLongitude" = Some (VArr [d'; m'; s'])
          ∧ tags !! "GPSLatitudeRef" = Some (VStr ref)
          ∧ tags !! "GPSLongitudeRef" = Some (VStr ref')
          ∧ convertGPS tags !! "GPSLatitude"
            = Some (VNum (signed ref "N" (toDecimal d m s)))
          ∧ convertGPS tags !! "GPSLongitude"
            = Some (VNum (signed ref' "E" (toDecimal d' m' s'))))
       ∨ (¬ gpsValid tags
          ∧ convertGPS tags !! "GPSLatitude" = None
          ∧ convertGPS tags !! "GPSLongitude" = None))
  else convertGPS tags = tags.
Proof.
  unfold convertGPS. destruct (gpsComplete tags); [|done].
  split_and!; [by rewrite lookup_delete_ne, lookup_delete_eq
              | by rewrite lookup_delete_eq |].
  destruct (gpsTry tags) as [converted|] eqn:Htry.
  - left. destruct (gpsTry_Some _ _ Htry)
      as (d & m & s & d' & m' & s' & ref & ref' & H1 & H2 & H3 & H4).
    rewrite (gpsTry_valid _ _ _ _ _ _ _ _ _ H1 H2 H3 H4) in Htry.
    injection Htry as <-. exists d, m, s, d', m', s', ref, ref'.
    split_and!; try done.
    + rewrite !lookup_delete_ne by done.
      by rewrite lookup_insert_ne, lookup_insert_eq.
    + rewrite !lookup_delete_ne by done. by rewrite lookup_insert_eq.
  - right. split_and!.
    + intros (d & m & s & d' & m' & s' & ref & ref' & H1 & H2 & H3 & H4).
      by rewrite (gpsTry_valid _ _ _ _ _ _ _ _ _ H1 H2 H3 H4) in Htry.
    + rewrite !lookup_delete_ne by done. by rewrite lookup_delete_eq.
    + rewrite !lookup_delete_ne by done. by rewrite lookup_delete_eq.
Qed.

(** The samples give the same result with every engine. *)
Lemma samples_any_engine :
  getExifData stringToIndex Samples.gpsNorthWest
  = getExifData Samples.engine Samples.gpsNorthWest
  ∧ getExifData stringToIndex Samples.gpsLatitudeOnly
    = getExifData Samples.engine Samples.gpsLatitudeOnly
  ∧ getExifData stringToIndex Samples.truncated
    = getExifData Samples.engine Samples.truncated
  ∧ getExifData stringToIndex Samples.twoSegments
    = getExifData Samples.engine Samples.twoSegments
  ∧ readTags stringToIndex Samples.byteEntry 0 (OInt 0) EXIF_TAGS true
    = readTags Samples.engine Samples.byteEntry 0 (OInt 0) EXIF_TAGS true
  ∧ readTags stringToIndex Samples.undefinedEntry 0 (OInt 0) EXIF_TAGS true
    = readTags Samples.engine Samples.undefinedEntry 0 (OInt 0) EXIF_TAGS true
  ∧ readTags stringToIndex Samples.asciiEntry 0 (OInt 0) EXIF_TAGS true
    = readTags Samples.engine Samples.asciiEntry 0 (OInt 0) EXIF_TAGS true.
Proof. split_and!; vm_compute; reflexivity. Qed.

End GpsFacts.

(** C3, as the code has it.  A returned map [output] comes from the merged
    tags of the Exif segment.  When all four GPS fields were decoded with
    truthy values, [output] has neither reference field, and either both
    magnitudes are arrays of three Numbers and both references are strings,
    and then latitude and longitude are the rounded signed decimal degrees,
    or both coordinates are absent.  When one of the four is missing or
    falsy, the four fields are in [output] as they were decoded, Numbers
    rounded. *)
Theorem C3_gps_fields (stringToIndex : string → Exif.outcome Z)
    (arrayBuffer : list byte) (output : gmap string Exif.Value) :
  Exif.getExifData stringToIndex arrayBuffer = Some (Exif.Ok (Some output)) →
  ∃ offset tags,
    Exif.app1Tags stringToIndex arrayBuffer offset = Exif.Ok (Some tags)
    ∧ (Exif.gpsComplete tags = true →
       output !! "GPSLatitudeRef" = None
       ∧ output !! "GPSLongitudeRef" = None
       ∧ ((∃ d m s d' m' s' ref ref',
             tags !! "GPSLatitude" = Some (Exif.VArr [d; m; s])
             ∧ tags !! "GPSLongitude" = Some (Exif.VArr [d'; m'; s'])
             ∧ tags !! "GPSLatitudeRef" = Some (Exif.VStr ref)
             ∧ tags !! "GPSLongitudeRef" = Some (Exif.VStr ref')
             ∧ output !! "GPSLatitude"
               = Some (Exif.VNum (Exif.round4
                   (Exif.signed ref "N" (Exif.toDecimal d m s))))
             ∧ output !! "GPSLongitude"
               = Some (Exif.VNum (Exif.round4
                   (Exif.signed ref' "E" (Exif.toDecimal d' m' s')))))
          ∨ (¬ Exif.gpsValid tags
             ∧ output !! "GPSLatitude" = None
             ∧ output !! "GPSLongitude" = None)))
    ∧ (Exif.gpsComplete tags = false →
       ∀ key, key ∈ ["GPSLatitude"; "GPSLongitude";
                     "GPSLatitudeRef"; "GPSLongitudeRef"] →
         output !! key = Exif.roundValue <$> tags !! key).
Proof.
  intros Hret.
  destruct (getExifData_returns _ _ _ Hret) as (offset & tags & Happ & Hfin).
  exists offset, tags. split; [done|].
  pose proof (convertGPS_fields tags) as Hgps.
  assert (∀ key, key ≠ "GPSInfoIFDPointer" → key ≠ "ExifIFDPointer" →
            output !! key = Exif.roundValue <$> Exif.convertGPS tags !! key)
    as Hout by (intros; by apply (finishTags_lookup tags)).
  split.
  - intros Hc. rewrite Hc in Hgps.
    destruct Hgps as (Href & Href' & Hcoord).
    rewrite (Hout "GPSLatitudeRef"), (Hout "GPSLongitudeRef") by done.
    rewrite (Hout "GPSLatitude"), (Hout "GPSLongitude") by done.
    rewrite Href, Href'. split_and!; [done..|].
    destruct Hcoord as [(d & m & s & d' & m' & s' & ref & ref' &
                         H1 & H2 & H3 & H4 & H5 & H6) | (Hn & H5 & H6)].
    + left. exists d, m, s, d', m', s', ref, ref'. by rewrite H5, H6.
    + right. by rewrite H5, H6.
  - intros Hc key Hkey. rewrite Hc in Hgps. rewrite Hgps in Hout.
    apply Hout;
      repeat (apply elem_of_cons in Hkey as [->|Hkey]); try done;
      by apply elem_of_nil in Hkey.
Qed.

Lemma C3_gps_fields_witness :
  ∃ offset tags,
    Exif.app1Tags Samples.engine Samples.gpsNorthWest offset
    = Exif.Ok (Some tags).
Proof.
  destruct (C3_gps_fields Samples.engine Samples.gpsNorthWest
              (<["GPSLatitude" := Exif.VNum 40]>
                 (<["GPSLongitude" := Exif.VNum (-74)]> ∅)))
    as (offset & tags & Happ & _).
  - vm_compute. reflexivity.
  - by exists offset, tags.
Defined.

(** C3 as stated fails.  With only a latitude reference and a one-rational
    latitude in the GPS directory, the returned map holds the reference
    field and a latitude Number, and no longitude. *)
Lemma C3_counterexample :
  ∃ output,
    Exif.getExifData Samples.engine Samples.gpsLatitudeOnly
    = Some (Exif.Ok (Some output))
    ∧ output !! "GPSLatitudeRef" = Some (Exif.VStr "N")
    ∧ output !! "GPSLatitude" = Some (Exif.VNum 5)
    ∧ output !! "GPSLongitude" = None
    ∧ output !! "GPSLongitudeRef" = None.
Proof.
  eexists. split; [vm_compute; reflexivity|].
  split_and!; vm_compute; reflexivity.
Qed.

(** The sample with all four fields gives 40 degrees north, 74 degrees
    west. *)
Example getExifData_gpsNorthWest :
  Exif.getExifData Samples.engine Samples.gpsNorthWest
  = Some (Exif.Ok (Some (<["GPSLatitude" := Exif.VNum 40]>
                           (<["GPSLongitude" := Exif.VNum (-74)]> ∅)))).
Proof. vm_compute. reflexivity. Qed.

(** * Further properties *)

(** ** The shape of the tree *)

Section TreeShapeFacts.
Context (pathSet : gset string).

Lemma nodeAt_app segs k t :
  nodeAt (segs ++ [k]) t = nodeAt segs t ≫= λ n, children n !! k.
Proof.
  revert t. induction segs as [|s segs IH]; intros t; cbn.
  - by destruct (children t !! k).
  - destruct (children t !! s); [apply IH | done].
Qed.

(** The positions below a node after a walk: those there before, and the
    prefixes of the segments walked. *)
Lemma walkParts_positions ps : ∀ cp t segs,
  segs ≠ [] →
  is_Some (nodeAt segs (walkParts pathSet ps cp t))
  ↔ is_Some (nodeAt segs t) ∨ segs `prefix_of` ps.
Proof.
  induction ps as [|p r IH]; intros cp t segs Hne.
  { cbn. split; [by left|]. intros [?|Hp]; [done|].
    by apply prefix_nil_inv in Hp. }
  destruct segs as [|s rest]; [done|]. rewrite nodeAt_walkParts_cons.
  case_decide as Hs.
  - subst s. destruct rest as [|s' rest'].
    { split; [|by eexists]. intros _. right. apply prefix_cons, prefix_nil. }
    rewrite IH by done.
    rewrite (nodeAt_children _ _ (childOrNew t p (extendPath cp p)))
      by (done || apply children_mark).
    assert (is_Some (nodeAt (s' :: rest') (childOrNew t p (extendPath cp p)))
            ↔ is_Some (nodeAt (p :: s' :: rest') t)) as ->.
    { unfold childOrNew. cbn. destruct (children t !! p); [done|].
      cbn. rewrite lookup_empty. split; by intros []. }
    split; (intros [?|Hp]; [by left | right]).
    + by apply prefix_cons.
    + by apply prefix_cons_inv_2 in Hp.
  - split; [by left|]. intros [?|Hp]; [done|].
    by apply prefix_cons_inv_1 in Hp.
Qed.

Lemma foldl_addPath_positions l : ∀ t segs,
  segs ≠ [] →
  is_Some (nodeAt segs (foldl (addPath pathSet) t l))
  ↔ is_Some (nodeAt segs t)
    ∨ ∃ p, p ∈ l ∧ p ≠ "" ∧ segs `prefix_of` Str.split "/" p.
Proof.
  induction l as [|q l IH]; intros t segs Hne.
  { cbn. split; [by left|]. intros [?|(p & Hp & _)]; [done|].
    by apply elem_of_nil in Hp. }
  cbn [foldl]. rewrite IH by done. unfold addPath. case_decide as Hq.
  - split; (intros [?|(p & Hp & Hpne & Hpre)]; [by left | right]).
    + exists p. split_and!; [by right | done..].
    + exists p. apply elem_of_cons in Hp as [->|Hp]; done.
  - rewrite walkParts_positions by done.
    split.
    + intros [[?|Hpre]|(p & Hp & Hpne & Hpre)]; [by left | right..].
      * exists q. split_and!; [by left | done..].
      * exists p. split_and!; [by right | done..].
    + intros [?|(p & Hp & Hpne & Hpre)]; [by left; left|].
      apply elem_of_cons in Hp as [->|Hp]; [by left; right|].
      right. by exists p.
Qed.

End TreeShapeFacts.

Lemma buildTree_positions (paths : list string) (segs : list string) :
  is_Some (nodeAt segs (buildTree paths))
  ↔ segs = []
    ∨ ∃ p, p ∈ paths ∧ p ≠ "" ∧ segs `prefix_of` Str.split "/" p.
Proof.
  destruct segs as [|s rest].
  { split; [by left | by eexists]. }
  unfold buildTree. rewrite foldl_addPath_positions by done. cbn.
  rewrite lookup_empty. split.
  - intros [[? ?]|?]; [done | by right].
  - intros [?|?]; [done | by right].
Qed.

(** X3: in [buildTree paths] every child is stored under its own name, and
    its full path is its parent's path extended by that name (the name
    alone below the root or below a node with an empty path). *)
Theorem X3_buildTree_child (paths segs : list string) (n c : TreeNode)
    (k : string) :
  nodeAt segs (buildTree paths) = Some n →
  children n !! k = Some c →
  name c = k ∧ path c = extendPath (path n) k.
Proof.
  intros Hn Hc.
  assert (nodeAt (segs ++ [k]) (buildTree paths) = Some c) as Hpos.
  { rewrite nodeAt_app, Hn. done. }
  destruct (buildTree_described paths (segs ++ [k]) c) as (Hp & Hname & _);
    [by destruct segs | done |].
  split.
  - rewrite Hname. unfold Str.pop. by rewrite last_last.
  - rewrite Hp. unfold pathFrom. rewrite foldl_app. cbn. f_equal.
    destruct segs as [|s rest].
    + cbn in Hn. injection Hn as <-.
      by destruct (buildTree_root_fields paths) as (_ & -> & _).
    + by destruct (buildTree_described paths (s :: rest) n) as (-> & _ & _).
Qed.

Lemma X3_buildTree_child_witness :
  ∃ c, children (buildTree ["a/b"]) !! "a" = Some c
       ∧ name c = "a" ∧ path c = "a".
Proof.
  eexists. split; [vm_compute; reflexivity|].
  apply (X3_buildTree_child ["a/b"] [] (buildTree ["a/b"]) _ "a");
    vm_compute; reflexivity.
Defined.

(** ** The default selection *)

Section SelectionFacts.
Import Selection.

Lemma depth_unfold t :
  depth t = S (map_fold (λ _ child acc, depth child `max` acc) 0 (children t)).
Proof. by destruct t. Qed.

Lemma map_fold_max_le (f : TreeNode → nat) (m : gmap string TreeNode) k c :
  m !! k = Some c → f c ≤ map_fold (λ _ child acc, f child `max` acc) 0 m.
Proof.
  revert k c.
  induction m as [|i x m Hi Hfold IH] using map_first_key_ind;
    intros k c Hk.
  { by rewrite lookup_empty in Hk. }
  rewrite map_fold_insert_first_key by done.
  destruct (decide (i = k)) as [->|Hne].
  - rewrite lookup_insert_eq in Hk. injection Hk as ->. lia.
  - rewrite lookup_insert_ne in Hk by done. specialize (IH k c Hk). lia.
Qed.

Lemma depth_child t k c : children t !! k = Some c → depth c < depth t.
Proof.
  intros Hc. rewrite (depth_unfold t).
  pose proof (map_fold_max_le depth (children t) k c Hc). lia.
Qed.

(** Induction on a tree through its children. *)
Lemma TreeNode_children_ind (P : TreeNode → Prop) :
  (∀ t, (∀ k c, children t !! k = Some c → P c) → P t) → ∀ t, P t.
Proof.
  intros Hstep t. remember (depth t) as d eqn:Hd.
  revert t Hd. induction (lt_wf d) as [d _ IH]. intros t ->.
  apply Hstep. intros k c Hc. by apply (IH (depth c) (depth_child t k c Hc)).
Qed.

Lemma firstFound_Some results p :
  firstFound results = Some p → Some p ∈ results ∧ p ≠ "".
Proof.
  induction results as [|[q|] rest IH]; cbn; [done| |].
  - case_decide.
    + intros Hf. destruct (IH Hf). split; [by right | done].
    + intros [= ->]. split; [by left | done].
  - intros Hf. destruct (IH Hf). split; [by right | done].
Qed.

Lemma firstFound_elem results p :
  Some p ∈ results → p ≠ "" → ∃ q, firstFound results = Some q ∧ q ≠ "".
Proof.
  intros Hin Hp. induction results as [|[q|] rest IH]; cbn.
  - by apply elem_of_nil in Hin.
  - case_decide as Hq; [|by eauto]. apply IH.
    apply elem_of_cons in Hin as [[= ->]|Hin]; done.
  - apply IH. by apply elem_of_cons in Hin as [?|Hin].
Qed.

Context (sortChildren : list (string * TreeNode) → list (string * TreeNode)).

Lemma findFirstSelectablePath_unfold node :
  findFirstSelectablePath sortChildren node
  = if isSelectable node then Some (path node)
    else
      firstFound
        ((λ entry, (findFirstSelectablePath sortChildren <$> children node)
                     !! entry.1 ≫= id)
           <$> sortChildren (map_to_list (children node))).
Proof. by destruct node. Qed.

(** A path found is the path of a selectable node, and it is not empty
    when the node lies below the one searched. *)
Lemma findFirstSelectablePath_sound : ∀ t p,
  findFirstSelectablePath sortChildren t = Some p →
  ∃ segs n, nodeAt segs t = Some n ∧ isSelectable n = true ∧ path n = p
            ∧ (segs ≠ [] → p ≠ "").
Proof.
  induction t as [t IH] using TreeNode_children_ind. intros p.
  rewrite findFirstSelectablePath_unfold.
  destruct (isSelectable t) eqn:Hsel.
  { intros [= <-]. by exists [], t. }
  intros Hf. apply firstFound_Some in Hf as [Hin Hp].
  apply list_elem_of_fmap in Hin as ([k c'] & Hr & _). cbn in Hr.
  rewrite lookup_fmap in Hr.
  destruct (children t !! k) as [c|] eqn:Hc; [|done]. cbn in Hr.
  symmetry in Hr. destruct (IH k c Hc p Hr) as (segs & n & Hn & Hs & Hpath & _).
  exists (k :: segs), n. cbn. rewrite Hc. done.
Qed.

(** With the children sorted into some order, the search finds a path as
    soon as a selectable node lies below an unselectable one, provided no
    node below has the empty path. *)
Lemma findFirstSelectablePath_complete :
  (∀ l, sortChildren l ≡ₚ l) →
  ∀ t,
    (∀ segs n, segs ≠ [] → nodeAt segs t = Some n → path n ≠ "") →
    isSelectable t = false →
    (∃ segs n, segs ≠ [] ∧ nodeAt segs t = Some n ∧ isSelectable n = true) →
    ∃ p, findFirstSelectablePath sortChildren t = Some p ∧ p ≠ "".
Proof.
  intros Hperm. induction t as [t IH] using TreeNode_children_ind.
  intros Hpaths Hsel (segs & n & Hne & Hn & Hnsel).
  rewrite findFirstSelectablePath_unfold, Hsel.
  destruct segs as [|k rest]; [done|]. cbn in Hn.
  destruct (children t !! k) as [c|] eqn:Hc; [|done].
  assert (∃ p, findFirstSelectablePath sortChildren c = Some p ∧ p ≠ "")
    as (p & Hfind & Hp).
  { destruct (isSelectable c) eqn:Hcsel.
    - exists (path c). rewrite findFirstSelectablePath_unfold, Hcsel.
      split; [done|]. apply (Hpaths [k]); [done|]. cbn. by rewrite Hc.
    - apply (IH k c Hc); [|done|].
      + intros segs' n' Hne' Hn'. apply (Hpaths (k :: segs')); [done|].
        cbn. by rewrite Hc.
      + exists rest, n. split_and!; [|done..].
        intros ->. cbn in Hn. injection Hn as ->. congruence. }
  apply (firstFound_elem _ p); [|done].
  apply list_elem_of_fmap. exists (k, c). split.
  - cbn. by rewrite lookup_fmap, Hc, <- Hfind.
  - rewrite Hperm. by apply elem_of_map_to_list.
Qed.

End SelectionFacts.

(** ** Folder and name of an image path *)

Section PathFacts.
Import Gallery.
Local Open Scope Z_scope.
Context (c : ascii).

Lemma lastIndexOf_lower s : -1 ≤ lastIndexOf c s.
Proof. induction s as [|a s IH]; cbn; [done|]. repeat case_match; lia. Qed.

Lemma lastIndexOf_none s :
  lastIndexOf c s = -1 ↔ Str.contains c s = false.
Proof.
  induction s as [|a s IH]; cbn; [done|].
  pose proof (lastIndexOf_lower s).
  destruct (0 <=? lastIndexOf c s) eqn:Hr.
  - apply Z.leb_le in Hr. split; [lia|]. intros Hc.
    apply orb_false_iff in Hc as [_ Hc]. apply IH in Hc. lia.
  - apply Z.leb_gt in Hr. assert (lastIndexOf c s = -1) as Hs by lia.
    apply IH in Hs. rewrite Hs, orb_false_r. case_decide.
    + rewrite bool_decide_eq_true_2 by done. done.
    + by rewrite bool_decide_eq_false_2.
Qed.

Lemma lastIndexOf_upper s : lastIndexOf c s < stringLength s.
Proof.
  unfold stringLength. induction s as [|a s IH]; cbn [lastIndexOf]; [done|].
  cbn [String.length]. repeat case_match; lia.
Qed.

Lemma substring_prefix s n :
  0 ≤ n ≤ stringLength s →
  substring s 0 n = String.substring 0 (Z.to_nat n) s.
Proof.
  intros Hn. unfold substring. f_equal; lia.
Qed.

Lemma pop_split_cons a s :
  Str.contains c s = true →
  Str.pop (Str.split c (String a s)) = Str.pop (Str.split c s).
Proof.
  intros Hc. cbn [Str.split]. destruct (split_cons c s) as (h & t & Hs).
  rewrite Hs. case_decide; [done|]. destruct t as [|h' t]; [|done].
  pose proof (join_split c s) as Hj. rewrite Hs in Hj. cbn in Hj. subst h.
  pose proof (split_no_sep c s) as Hf. rewrite Hs in Hf.
  inversion Hf; congruence.
Qed.

(** A string with a separator is its part before the last separator, the
    separator, and the last piece of its split. *)
Lemma substring_lastIndexOf s :
  Str.contains c s = true →
  s = substring s 0 (lastIndexOf c s)
      +:+ String c (Str.pop (Str.split c s)).
Proof.
  intros Hc.
  pose proof (lastIndexOf_lower s). pose proof (lastIndexOf_upper s).
  assert (lastIndexOf c s ≠ -1) as Hne.
  { intros Hn. apply lastIndexOf_none in Hn. congruence. }
  rewrite substring_prefix by lia. clear H0.
  induction s as [|a s IH]; [done|].
  cbn [lastIndexOf] in *.
  pose proof (lastIndexOf_lower s).
  destruct (0 <=? lastIndexOf c s) eqn:Hr.
  - apply Z.leb_le in Hr.
    assert (Str.contains c s = true) as Hcs.
    { destruct (Str.contains c s) eqn:Hcs; [done|].
      apply lastIndexOf_none in Hcs. lia. }
    rewrite pop_split_cons by done.
    replace (Z.to_nat (lastIndexOf c s + 1))
      with (S (Z.to_nat (lastIndexOf c s))) by lia.
    cbn [String.substring].
    change (String a s
            = String a (String.substring 0 (Z.to_nat (lastIndexOf c s)) s
                          +:+ String c (Str.pop (Str.split c s)))).
    f_equal. apply IH; [done | lia | lia].
  - apply Z.leb_gt in Hr. assert (lastIndexOf c s = -1) as Hs by lia.
    apply lastIndexOf_none in Hs.
    case_decide as Ha; [|done]. subst a.
    cbn [Str.split]. rewrite decide_True by done.
    rewrite split_no_sep_id by done. by destruct s.
Qed.

End PathFacts.

(** X7: for an image path with a slash, the folder that
    [handleUpdateImageDetails] and MainPanel cut off it, a slash, and the
    last segment that [loadImagesForFolder] takes as the name give back the
    path; without a slash the folder is the empty string.  So the name of a
    cached image is the part of its path after its folder, unless the path
    ends with a slash, when the name is the whole path. *)
Theorem X7_folder_and_name (fullPath : string) :
  (Str.contains "/" fullPath = true →
   fullPath = Gallery.folderOf fullPath +:+ "/"
              +:+ Str.pop (Str.split "/" fullPath))
  ∧ (Str.contains "/" fullPath = false → Gallery.folderOf fullPath = "")
  ∧ (Str.pop (Str.split "/" fullPath) ≠ "" →
     Cache.name (Cache.toImage fullPath) = Str.pop (Str.split "/" fullPath))
  ∧ (Str.pop (Str.split "/" fullPath) = "" →
     Cache.name (Cache.toImage fullPath) = fullPath).
Proof.
  split_and!.
  - intros Hc. by apply (substring_lastIndexOf "/").
  - intros Hc. unfold Gallery.folderOf.
    rewrite (proj2 (lastIndexOf_none "/" fullPath) Hc).
    unfold Gallery.substring. by destruct fullPath.
  - intros Hp. cbn. unfold Cache.orElse. by rewrite decide_False.
  - intros Hp. cbn. unfold Cache.orElse. by rewrite decide_True.
Qed.

Lemma X7_folder_and_name_witness :
  "/a/b/x.jpg" = Gallery.folderOf "/a/b/x.jpg" +:+ "/"
                 +:+ Str.pop (Str.split "/" "/a/b/x.jpg").
Proof.
  destruct (X7_folder_and_name "/a/b/x.jpg") as (H & _).
  apply H. vm_compute. reflexivity.
Defined.

(** ** Updating image details *)

Section DetailsFacts.
Import Cache Gallery.

Lemma update_lookup imageId merge st folder :
  imagesByFolder (handleUpdateImageDetails imageId merge st) !! folder
  = (λ imgs,
       if decide (folder = folderOf imageId)
       then (λ img, if decide (id img = imageId) then merge img else img)
              <$> imgs
       else imgs) <$> imagesByFolder st !! folder.
Proof.
  unfold handleUpdateImageDetails.
  destruct (imagesByFolder st !! folderOf imageId) as [imgs|] eqn:Hf.
  - cbn. destruct (decide (folder = folderOf imageId)) as [->|Hne].
    + by rewrite lookup_insert_eq, Hf.
    + rewrite lookup_insert_ne by done.
      by destruct (imagesByFolder st !! folder).
  - destruct (decide (folder = folderOf imageId)) as [->|Hne].
    + by rewrite Hf.
    + by destruct (imagesByFolder st !! folder).
Qed.

Lemma update_requests imageId merge st :
  requests (handleUpdateImageDetails imageId merge st) = requests st.
Proof.
  unfold handleUpdateImageDetails.
  by destruct (imagesByFolder st !! folderOf imageId).
Qed.

Lemma load_requests_cached getImages folderPath st :
  requests (loadImagesForFolder getImages folderPath st)
  = match imagesByFolder st !! folderPath with
    | Some _ => requests st
    | None => requests st ++ [folderPath]
    end.
Proof.
  unfold loadImagesForFolder.
  destruct (imagesByFolder st !! folderPath); [done|].
  by destruct (getImages folderPath).
Qed.

End DetailsFacts.

(** X8: [handleUpdateImageDetails] changes no more of the cache than the
    images with the given id in the folder of that id.  The same folders
    stay cached, each with as many images as before, every other folder and
    every image with another id is as it was, and nothing happens at all
    when the folder is not cached; so a later [loadImagesForFolder] sends
    the requests it would have sent without the update. *)
Theorem X8_update_details_local (imageId : string)
    (merge : Cache.Image → Cache.Image) (st : Cache.State) :
  let st' := Gallery.handleUpdateImageDetails imageId merge st in
  (∀ folder, is_Some (Cache.imagesByFolder st' !! folder)
             ↔ is_Some (Cache.imagesByFolder st !! folder))
  ∧ (∀ folder imgs, Cache.imagesByFolder st !! folder = Some imgs →
       ∃ imgs', Cache.imagesByFolder st' !! folder = Some imgs'
                ∧ length imgs' = length imgs
                ∧ (folder ≠ Gallery.folderOf imageId → imgs' = imgs)
                ∧ ∀ i img, imgs !! i = Some img →
                    Cache.id img ≠ imageId → imgs' !! i = Some img)
  ∧ (Cache.imagesByFolder st !! Gallery.folderOf imageId = None → st' = st)
  ∧ (∀ getImages folderPath,
       Cache.requests (Cache.loadImagesForFolder getImages folderPath st')
       = Cache.requests (Cache.loadImagesForFolder getImages folderPath st)).
Proof.
  intros st'. split_and!.
  - intros folder. subst st'. rewrite update_lookup.
    by rewrite fmap_is_Some.
  - intros folder imgs Himgs. subst st'. rewrite update_lookup, Himgs. cbn.
    eexists. split; [done|]. case_decide as Hf.
    + split_and!; [by rewrite length_fmap | done |].
      intros i img Hi Hid. rewrite list_lookup_fmap, Hi. cbn.
      by rewrite decide_False.
    + done.
  - intros Hnone. subst st'. unfold Gallery.handleUpdateImageDetails.
    by rewrite Hnone.
  - intros getImages folderPath. rewrite !load_requests_cached. subst st'.
    rewrite update_lookup, update_requests.
    by destruct (Cache.imagesByFolder st !! folderPath).
Qed.

Lemma X8_update_details_local_witness :
  let st := Cache.mkState {[ "/a" := [Cache.toImage "/a/x.jpg"] ]} false [] [] in
  Gallery.handleUpdateImageDetails "/b/y.jpg" id st = st.
Proof.
  intros st.
  destruct (X8_update_details_local "/b/y.jpg" id st) as (_ & _ & H & _).
  apply H. vm_compute. reflexivity.
Defined.

(** ** What a load adds to the cache *)

(** X9: [loadImagesForFolder] only adds to the cache: every folder cached
    before the call is cached after it with the same list.  When the call
    fetches and the service answers, the list stored for the folder has one
    image for each path returned, in the order returned, with the path as
    its id and as its full path. *)
Theorem X9_load_only_adds (getImages : string → option (list string))
    (folderPath : string) (st : Cache.State) :
  let st' := Cache.loadImagesForFolder getImages folderPath st in
  Cache.imagesByFolder st ⊆ Cache.imagesByFolder st'
  ∧ (∀ imagePaths,
       Cache.imagesByFolder st !! folderPath = None →
       getImages folderPath = Some imagePaths →
       ∃ images, Cache.imagesByFolder st' !! folderPath = Some images
                 ∧ Cache.id <$> images = imagePaths
                 ∧ Cache.fullPath <$> images = imagePaths).
Proof.
  intros st'. subst st'. unfold Cache.loadImagesForFolder. split.
  - destruct (Cache.imagesByFolder st !! folderPath) eqn:Hc; [done|].
    destruct (getImages folderPath); cbn; by apply insert_subseteq.
  - intros imagePaths Hc Hg. rewrite Hc, Hg. cbn. eexists.
    rewrite lookup_insert_eq. split; [done|].
    rewrite <- !list_fmap_compose. split; apply list_fmap_id.
Qed.

Lemma X9_load_only_adds_witness :
  ∃ images,
    Cache.imagesByFolder
      (Cache.loadImagesForFolder (λ _, Some ["/a/x.JPG"]) "/a"
         (Cache.mkState ∅ false [] [])) !! "/a" = Some images
    ∧ Cache.id <$> images = ["/a/x.JPG"]
    ∧ Cache.fullPath <$> images = ["/a/x.JPG"].
Proof.
  destruct (X9_load_only_adds (λ _, Some ["/a/x.JPG"]) "/a"
              (Cache.mkState ∅ false [] [])) as (_ & H).
  by apply H.
Defined.

(** ** Moving through the images of a folder *)

Section NavigationFacts.
Import Cache Gallery.

Lemma findIndex_range {A} (pred : A → bool) (l : list A) :
  findIndex pred l = (-1)%Z
  ∨ (0 ≤ findIndex pred l < Z.of_nat (length l))%Z.
Proof.
  induction l as [|x l IH]; cbn [findIndex length]; [by left|].
  destruct (pred x); [right; lia|].
  destruct (Z.leb_spec 0 (findIndex pred l)); [right; lia | by left].
Qed.

Lemma findIndex_lookup {A} (pred : A → bool) (l : list A) :
  (0 ≤ findIndex pred l)%Z →
  ∃ x, l !! Z.to_nat (findIndex pred l) = Some x ∧ pred x = true.
Proof.
  induction l as [|x l IH]; cbn [findIndex]; [lia|].
  destruct (pred x) eqn:Hx; [intros _; by exists x|].
  destruct (Z.leb_spec 0 (findIndex pred l)) as [Hr|Hr]; [|lia].
  intros _. destruct (IH Hr) as (y & Hy & Hp). exists y. split; [|done].
  replace (Z.to_nat (findIndex pred l + 1)) with (S (Z.to_nat (findIndex pred l)))
    by lia.
  done.
Qed.

Lemma findIndex_NoDup (l : list Image) (i : nat) (x : Image) :
  NoDup (id <$> l) → l !! i = Some x →
  findIndex (λ img, bool_decide (id img = id x)) l = Z.of_nat i.
Proof.
  revert i. induction l as [|y l IH]; intros i Hnd Hi; [done|].
  rewrite fmap_cons in Hnd. apply NoDup_cons in Hnd as [Hy Hnd].
  cbn [findIndex]. destruct i as [|i].
  - injection Hi as ->. by rewrite bool_decide_eq_true_2.
  - cbn in Hi. rewrite bool_decide_eq_false_2.
    + rewrite (IH i Hnd Hi).
      destruct (Z.leb_spec 0 (Z.of_nat i)); lia.
    + intros Heq. apply Hy. rewrite Heq.
      apply list_elem_of_fmap. exists x. split; [done|].
      by eapply list_elem_of_lookup_2.
Qed.

(** What [navigateImage] computes, once the folder list is known. *)
Lemma navigateImage_eq m selected d r :
  navigateImage m selected d = Some r →
  ∃ list index,
    m !! folderOf (fullPath selected) = Some list
    ∧ index = findIndex (λ img, bool_decide (id img = id selected)) list
    ∧ (0 ≤ index < Z.of_nat (length list))%Z
    ∧ r = list !! Z.to_nat
            (match d with
             | next => Z.rem (index + 1) (Z.of_nat (length list))
             | prev => Z.rem (index - 1 + Z.of_nat (length list))
                         (Z.of_nat (length list))
             end).
Proof.
  unfold navigateImage, currentIndex, imageList.
  destruct (m !! folderOf (fullPath selected)) as [list|] eqn:Hl; [|done].
  destruct (Z.eqb_spec
              (findIndex (λ img, bool_decide (id img = id selected)) list) (-1))
    as [|Hne]; [done|].
  intros [= <-]. eexists list, _.
  split; [done|]. split; [reflexivity|]. split; [|done].
  destruct (findIndex_range (λ img, bool_decide (id img = id selected)) list);
    [done | lia].
Qed.

Lemma rem_next_range (index len : Z) :
  (0 ≤ index < len → 0 ≤ Z.rem (index + 1) len < len)%Z.
Proof.
  intros H. rewrite Z.rem_mod_nonneg by lia. apply Z.mod_pos_bound. lia.
Qed.

Lemma rem_prev_range (index len : Z) :
  (0 ≤ index < len → 0 ≤ Z.rem (index - 1 + len) len < len)%Z.
Proof.
  intros H. rewrite Z.rem_mod_nonneg by lia. apply Z.mod_pos_bound. lia.
Qed.

Lemma rem_next_prev (index len : Z) :
  (0 ≤ index < len →
   Z.rem (Z.rem (index + 1) len - 1 + len) len = index)%Z.
Proof.
  intros H. pose proof (rem_next_range index len H) as Hr.
  rewrite (Z.rem_mod_nonneg (index + 1)) in * by lia.
  rewrite Z.rem_mod_nonneg by lia.
  destruct (decide (index + 1 = len)%Z) as [He|Hne].
  - rewrite He, Z.mod_same by lia.
    replace (0 - 1 + len)%Z with index by lia. apply Z.mod_small. lia.
  - rewrite (Z.mod_small (index + 1)) by lia.
    replace (index + 1 - 1 + len)%Z with (index + 1 * len)%Z by lia.
    rewrite Z.mod_add by lia. apply Z.mod_small. lia.
Qed.

Lemma rem_prev_next (index len : Z) :
  (0 ≤ index < len →
   Z.rem (Z.rem (index - 1 + len) len + 1) len = index)%Z.
Proof.
  intros H. pose proof (rem_prev_range index len H) as Hr.
  rewrite (Z.rem_mod_nonneg (index - 1 + len)) in * by lia.
  rewrite Z.rem_mod_nonneg by lia.
  destruct (decide (index = 0)%Z) as [He|Hne].
  - rewrite He. replace (0 - 1 + len)%Z with (len - 1)%Z by lia.
    rewrite (Z.mod_small (len - 1)) by lia.
    replace (len - 1 + 1)%Z with len by lia. apply Z.mod_same. lia.
  - replace (index - 1 + len)%Z with (index - 1 + 1 * len)%Z by lia.
    rewrite Z.mod_add by lia. rewrite (Z.mod_small (index - 1)) by lia.
    replace (index - 1 + 1)%Z with index by lia. apply Z.mod_small. lia.
Qed.

End NavigationFacts.

(** X10: when [navigateImage] selects something, it selects an image of the
    folder list of the current image, never [undefined]: the new index is
    inside the list in both directions, also when it wraps around. *)
Theorem X10_navigate_in_list (m : gmap string (list Cache.Image))
    (selected : Cache.Image) (d : Gallery.direction)
    (r : option Cache.Image) :
  Gallery.navigateImage m selected d = Some r →
  ∃ list img,
    Gallery.imageList m selected = Some list ∧ r = Some img ∧ img ∈ list.
Proof.
  intros Hnav.
  destruct (navigateImage_eq _ _ _ _ Hnav)
    as (list & index & Hl & Hidx & Hrange & Hr).
  assert (∃ k, r = list !! k ∧ k < length list) as (k & -> & Hk).
  { eexists. split; [exact Hr|].
    destruct d;
      [pose proof (rem_next_range _ _ Hrange)
      |pose proof (rem_prev_range _ _ Hrange)]; lia. }
  destruct (lookup_lt_is_Some_2 list k Hk) as [img Himg].
  exists list, img. split_and!; [done | done |].
  by eapply list_elem_of_lookup_2.
Qed.

Lemma X10_navigate_in_list_witness :
  let a := Cache.toImage "/f/a.jpg" in
  let b := Cache.toImage "/f/b.jpg" in
  ∃ list img,
    Gallery.imageList {[ "/f" := [a; b] ]} b = Some list
    ∧ Some a = Some img ∧ img ∈ list.
Proof.
  intros a b.
  refine (X10_navigate_in_list {[ "/f" := [a; b] ]} b Gallery.next (Some a) _).
  vm_compute. reflexivity.
Defined.

(** X11: stepping one way and then the other comes back.  When the ids of
    the folder list are pairwise different and every image of the list lies
    in that folder (its path up to the last slash is the folder of the
    current image), a step of [navigateImage] followed by a step in the
    other direction from the image reached selects the image of the list
    that has the id of the image started from. *)
Theorem X11_navigate_back (m : gmap string (list Cache.Image))
    (selected img' : Cache.Image) (d : Gallery.direction) :
  Gallery.navigateImage m selected d = Some (Some img') →
  (∀ list, Gallery.imageList m selected = Some list →
     NoDup (Cache.id <$> list)
     ∧ ∀ img, img ∈ list →
         Gallery.folderOf (Cache.fullPath img)
         = Gallery.folderOf (Cache.fullPath selected)) →
  ∃ img0 list,
    Gallery.navigateImage m img'
      (match d with
       | Gallery.next => Gallery.prev
       | Gallery.prev => Gallery.next
       end) = Some (Some img0)
    ∧ Gallery.imageList m selected = Some list
    ∧ img0 ∈ list
    ∧ Cache.id img0 = Cache.id selected.
Proof.
  intros Hnav Hlist.
  destruct (navigateImage_eq _ _ _ _ Hnav)
    as (list & index & Hl & Hidx & Hrange & Hr).
  destruct (Hlist list Hl) as [Hnd Hfolder].
  symmetry in Hr.
  pose proof (list_elem_of_lookup_2 _ _ _ Hr) as Hin.
  pose proof (findIndex_NoDup _ _ _ Hnd Hr) as Hidx'.
  assert (0 ≤ index)%Z as Hpos by lia.
  rewrite Hidx in Hpos.
  destruct (findIndex_lookup _ _ Hpos) as (img0 & Himg0 & Hp).
  apply bool_decide_eq_true_1 in Hp. rewrite <- Hidx in Himg0.
  exists img0, list. split_and!; [|done|by eapply list_elem_of_lookup_2|done].
  unfold Gallery.navigateImage, Gallery.currentIndex, Gallery.imageList.
  rewrite (Hfolder img' Hin), Hl, Hidx'.
  set (len := Z.of_nat (length list)) in *.
  destruct d.
  - pose proof (rem_next_range index len Hrange).
    rewrite Z2Nat.id by lia.
    destruct (Z.eqb_spec (Z.rem (index + 1) len) (-1)); [lia|].
    by rewrite rem_next_prev, Himg0.
  - pose proof (rem_prev_range index len Hrange).
    rewrite Z2Nat.id by lia.
    destruct (Z.eqb_spec (Z.rem (index - 1 + len) len) (-1)); [lia|].
    by rewrite rem_prev_next, Himg0.
Qed.

Lemma X11_navigate_back_witness :
  let a := Cache.toImage "/f/a.jpg" in
  let b := Cache.toImage "/f/b.jpg" in
  ∃ img0 list,
    Gallery.navigateImage {[ "/f" := [a; b] ]} a Gallery.prev
    = Some (Some img0)
    ∧ Gallery.imageList {[ "/f" := [a; b] ]} b = Some list
    ∧ img0 ∈ list
    ∧ Cache.id img0 = Cache.id b.
Proof.
  intros a b.
  refine (X11_navigate_back {[ "/f" := [a; b] ]} b a Gallery.next _ _).
  - vm_compute. reflexivity.
  - intros list Hl. vm_compute in Hl. injection Hl as <-. split.
    + apply NoDup_cons. split; [|apply NoDup_singleton].
      intros Hin. apply list_elem_of_singleton in Hin. discriminate Hin.
    + intros img Hin.
      apply elem_of_cons in Hin as [->|Hin];
        [|apply list_elem_of_singleton in Hin as ->]; vm_compute; reflexivity.
Defined.

(** ** The shape of what the decoder returns *)

Section TrimFacts.
Import Exif.

Lemma length_append (a b : string) :
  String.length (a +:+ b) = String.length a + String.length b.
Proof. induction a as [|c a IH]; [done|]. cbn. by rewrite <- IH. Qed.

Lemma trimStart_length s : String.length (trimStart s) ≤ String.length s.
Proof.
  induction s as [|a s IH]; cbn [trimStart]; [done|].
  destruct (isWhiteSpace a); cbn [String.length]; lia.
Qed.

Lemma trimEnd_length s : String.length (trimEnd s) ≤ String.length s.
Proof.
  induction s as [|a s IH]; cbn [trimEnd]; [done|].
  destruct (trimEnd s); [destruct (isWhiteSpace a)|];
    cbn [String.length] in *; lia.
Qed.

Lemma trim_length s : String.length (trim s) ≤ String.length s.
Proof.
  unfold trim. pose proof (trimEnd_length (trimStart s)).
  pose proof (trimStart_length s). lia.
Qed.

Lemma trimEnd_idemp s : trimEnd (trimEnd s) = trimEnd s.
Proof.
  induction s as [|a s IH]; [done|]. cbn [trimEnd].
  destruct (trimEnd s) as [|b t] eqn:Ht.
  - destruct (isWhiteSpace a) eqn:Ha; [done|]. cbn [trimEnd]. by rewrite Ha.
  - cbn [trimEnd] in *. by rewrite IH.
Qed.

Lemma trimStart_head s :
  trimStart s = "" ∨ ∃ a t, trimStart s = String a t ∧ isWhiteSpace a = false.
Proof.
  induction s as [|a s IH]; [by left|]. cbn [trimStart].
  destruct (isWhiteSpace a) eqn:Ha; [done|]. right. by exists a, s.
Qed.

Lemma trimStart_trimEnd a t :
  isWhiteSpace a = false →
  trimStart (trimEnd (String a t)) = trimEnd (String a t).
Proof.
  intros Ha. cbn [trimEnd].
  destruct (trimEnd t); rewrite ?Ha; cbn [trimStart]; by rewrite Ha.
Qed.

Lemma trim_idemp s : trim (trim s) = trim s.
Proof.
  unfold trim. destruct (trimStart_head s) as [->|(a & t & -> & Ha)]; [done|].
  by rewrite trimStart_trimEnd, trimEnd_idemp.
Qed.

End TrimFacts.

Section ShapeFacts.
Import Exif Decoded.
Context (stringToIndex : string → outcome Z).
Context (file : list byte) (tiffStart : Z) (dirStart : Offset)
        (tags : gmap Z string) (bigEnd : bool).

Lemma asciiLoop_length address k : ∀ n str s,
  asciiLoop stringToIndex file address k n str = Ok s →
  String.length s = String.length str + k.
Proof.
  induction k as [|k IH]; intros n str s; cbn [asciiLoop].
  - intros [= <-]. lia.
  - destruct (getUint8 _ file (plus address n)) as [b|]; [|done].
    cbn [mbind outcome_bind]. intros Hs. apply IH in Hs.
    rewrite length_append in Hs. cbn [String.length] in Hs. lia.
Qed.

Lemma rationalLoop_length address k : ∀ j value xs,
  rationalLoop stringToIndex file bigEnd address k j value = Ok xs →
  length xs = length value + k.
Proof.
  induction k as [|k IH]; intros j value xs; cbn [rationalLoop].
  - intros [= <-]. lia.
  - destruct (readRational _ file (plus address (j * 8)) bigEnd) as [x|];
      [|done].
    cbn [mbind outcome_bind]. intros Hs. apply IH in Hs.
    rewrite length_app in Hs. cbn [length] in Hs. lia.
Qed.

Lemma readValue_stored format components totalSize dataOffset valuePointer
    valueAddress v :
  readValue stringToIndex file bigEnd format components totalSize dataOffset
    valuePointer valueAddress = Ok (Some v) →
  stored v.
Proof.
  unfold readValue. destruct (format =? 2)%Z.
  { destruct (asciiLoop _ file valueAddress _ 0 "") as [str|] eqn:Hs; [|done].
    cbn [mbind outcome_bind]. intros [= <-]. cbn [stored].
    split; [apply trim_idemp|].
    apply asciiLoop_length in Hs. pose proof (trim_length str).
    cbn [String.length] in Hs. lia. }
  destruct (format =? 5)%Z.
  { destruct (1 <? components)%Z eqn:Hc.
    - destruct (rationalLoop _ file bigEnd valueAddress _ 0 []) as [xs|] eqn:Hs;
        [|done].
      cbn [mbind outcome_bind]. intros [= <-]. cbn [stored].
      apply rationalLoop_length in Hs. apply Z.ltb_lt in Hc.
      cbn [length] in Hs. lia.
    - destruct (readRational _ file valueAddress bigEnd); [|done].
      cbn [mbind outcome_bind]. by intros [= <-]. }
  destruct (_ && _).
  - destruct (format =? 3)%Z.
    + destruct (getUint16 _ file dataOffset (negb bigEnd)); [|done].
      cbn [mbind outcome_bind]. destruct (format =? 4)%Z.
      * destruct (getUint32 _ file dataOffset (negb bigEnd)); [|done].
        cbn [mbind outcome_bind]. by intros [= <-].
      * by intros [= <-].
    + cbn [mbind outcome_bind]. destruct (format =? 4)%Z; [|done].
      destruct (getUint32 _ file dataOffset (negb bigEnd)); [|done].
      cbn [mbind outcome_bind]. by intros [= <-].
  - by intros [= <-].
Qed.

(** An entry leaves the tags as they are or stores one value under a name
    of the table. *)
Lemma readEntry_result i result result' :
  readEntry stringToIndex file tiffStart dirStart tags bigEnd i result
  = Ok result' →
  result' = result
  ∨ ∃ tagName v, fromTable tags tagName ∧ stored v
                 ∧ result' = <[tagName := v]> result.
Proof.
  unfold readEntry. cbv zeta.
  set (entryOffset := plus (plus dirStart (i * 12)) 2).
  destruct (getUint16 _ file entryOffset (negb bigEnd)) as [tagId|]; [|done].
  cbn [mbind outcome_bind].
  destruct (tags !! tagId) as [tagName|] eqn:Htag; [|intros [= <-]; by left].
  destruct (getUint16 _ file (plus entryOffset 2) (negb bigEnd)) as [format|];
    [|done].
  cbn [mbind outcome_bind].
  destruct (getUint32 _ file (plus entryOffset 4) (negb bigEnd))
    as [components|]; [|done].
  cbn [mbind outcome_bind].
  destruct (typeSizeOf format) as [typeSize|]; [|intros [= <-]; by left].
  destruct (typeSize =? 0)%Z; [intros [= <-]; by left|].
  destruct (getUint32 _ file (plus entryOffset 8) (negb bigEnd))
    as [valuePointer|]; [|done].
  cbn [mbind outcome_bind].
  destruct (readValue _ file bigEnd format components _ _ valuePointer _)
    as [[v|]|] eqn:Hv; [| intros [= <-]; by left | done].
  cbn [mbind outcome_bind]. intros [= <-]. right. exists tagName, v.
  split_and!; [by exists tagId | by eapply readValue_stored | done].
Qed.

Lemma entryLoop_result k : ∀ i result result',
  entryLoop stringToIndex file tiffStart dirStart tags bigEnd k i result
  = Ok result' →
  map_Forall (λ key v, fromTable tags key ∧ stored v) result →
  map_Forall (λ key v, fromTable tags key ∧ stored v) result'
  ∧ size result' ≤ size result + k.
Proof.
  induction k as [|k IH]; intros i result result'; cbn [entryLoop].
  - intros [= <-] H. split; [done | lia].
  - destruct (readEntry _ file tiffStart dirStart tags bigEnd i result)
      as [result1|] eqn:He; [|done].
    cbn [mbind outcome_bind]. intros Hloop Hall.
    apply readEntry_result in He as [->|(tagName & v & Hn & Hv & ->)].
    + destruct (IH _ _ _ Hloop Hall). split; [done | lia].
    + destruct (IH _ _ _ Hloop) as [H1 H2].
      { by apply map_Forall_insert_2. }
      split; [done|]. rewrite map_size_insert in H2.
      destruct (result !! tagName); cbn in H2; lia.
Qed.

Lemma readTags_result result :
  readTags stringToIndex file tiffStart dirStart tags bigEnd = Ok result →
  map_Forall (λ key v, fromTable tags key ∧ stored v) result
  ∧ ∃ entries, getUint16 stringToIndex file dirStart (negb bigEnd) = Ok entries
               ∧ (Z.of_nat (size result) ≤ entries)%Z.
Proof.
  unfold readTags.
  destruct (getUint16 _ file dirStart (negb bigEnd)) as [entries|] eqn:He;
    [|done].
  cbn [mbind outcome_bind]. intros Hloop.
  apply entryLoop_result in Hloop as [H1 H2]; [|apply map_Forall_empty].
  split; [done|]. exists entries. split; [done|].
  rewrite map_size_empty in H2. apply getUint16_bounds in He. lia.
Qed.

End ShapeFacts.

(** X12: what one directory gives.  The map [readTags] returns has only
    names of the tag table it was given as keys, at most as many of them as
    the entry count at the start of the directory says, and each value is a
    Number, a trimmed string of at most 100 characters, or an array of at
    least two Numbers. *)
Theorem X12_readTags_result (stringToIndex : string → Exif.outcome Z)
    (file : list byte) (tiffStart : Z) (dirStart : Exif.Offset)
    (tags : gmap Z string) (bigEnd : bool) (result : gmap string Exif.Value) :
  Exif.readTags stringToIndex file tiffStart dirStart tags bigEnd
  = Exif.Ok result →
  (∀ key v, result !! key = Some v →
     Decoded.fromTable tags key ∧ Decoded.stored v)
  ∧ ∃ entries,
      Exif.getUint16 stringToIndex file dirStart (negb bigEnd)
      = Exif.Ok entries
      ∧ (Z.of_nat (size result) ≤ entries)%Z.
Proof.
  intros Hread.
  destruct (readTags_result _ _ _ _ _ _ _ Hread) as [Hall Hsize].
  split; [|exact Hsize]. intros key v Hv. exact (Hall key v Hv).
Qed.

Lemma X12_readTags_result_witness :
  (∀ key v, ({[ "Make" := Exif.VStr "a" ]} : gmap string Exif.Value) !! key
            = Some v →
     Decoded.fromTable Exif.EXIF_TAGS key ∧ Decoded.stored v)
  ∧ ∃ entries,
      Exif.getUint16 Samples.engine Samples.asciiEntry (Exif.OInt 0)
        (negb true) = Exif.Ok entries
      ∧ (Z.of_nat (size ({[ "Make" := Exif.VStr "a" ]}
                         : gmap string Exif.Value)) ≤ entries)%Z.
Proof.
  refine (X12_readTags_result Samples.engine Samples.asciiEntry 0
            (Exif.OInt 0) Exif.EXIF_TAGS true {[ "Make" := Exif.VStr "a" ]} _).
  vm_compute. reflexivity.
Defined.

Section OutputFacts.
Import Exif Decoded.
Context (stringToIndex : string → outcome Z).







End OutputFacts.





(** ** Buffers without an APP1 marker *)

Section NoApp1Facts.
Import Exif.
Local Open Scope Z_scope.
Context (stringToIndex : string → outcome Z).

Lemma byteAt_elem (dataView : list byte) i :
  (∀ b, b ∈ dataView → b ≠ xe1) → byteAt dataView i ≠ 225.
Proof.
  intros Hno. unfold byteAt.
  destruct (dataView !! Z.to_nat i) as [b|] eqn:Hb; [|done].
  intros Heq. apply (Hno b); [by eapply list_elem_of_lookup_2|].
  by apply byte_of_code.
Qed.

Lemma getUint16_in_range file offset littleEndian :
  0 ≤ offset → offset + 2 ≤ byteLength file →
  ∃ v, getUint16 stringToIndex file (OInt offset) littleEndian = Ok v.
Proof.
  intros H0 H1. unfold getUint16, uint16At, inRange. cbn.
  rewrite (proj2 (Z.leb_le _ _) H0), (proj2 (Z.leb_le _ _) H1). by eexists.
Qed.

Lemma scanStep_no_app1 dataView offset :
  0 ≤ offset → (∀ b, b ∈ dataView → b ≠ xe1) →
  scanStep stringToIndex dataView offset = Ok (Done None)
  ∨ ∃ offset', scanStep stringToIndex dataView offset = Ok (Continue offset').
Proof.
  intros H0 Hno. unfold scanStep.
  destruct (offset <? byteLength dataView) eqn:H1; [|by left]. cbn [negb].
  destruct (byteLength dataView <? offset + 4) eqn:H2; [by left|].
  apply Z.ltb_ge in H2.
  rewrite (getUint8_in_range _ dataView offset) by lia.
  cbn [mbind outcome_bind]. destruct (negb _); [by left|].
  rewrite (getUint8_in_range _ dataView (offset + 1)) by lia.
  cbn [mbind outcome_bind].
  rewrite (proj2 (Z.eqb_neq _ _) (byteAt_elem dataView (offset + 1) Hno)).
  destruct (getUint16_in_range dataView (offset + 2) false) as [size ->];
    [lia | lia |].
  right. by eexists.
Qed.

Lemma scan_no_app1 fuel dataView : ∀ offset r,
  0 ≤ offset → (∀ b, b ∈ dataView → b ≠ xe1) →
  scan stringToIndex fuel dataView offset = Some r → r = Ok None.
Proof.
  induction fuel as [|fuel IH]; intros offset r H0 Hno; [done|].
  cbn [scan].
  destruct (scanStep_no_app1 dataView offset H0 Hno) as [->|[offset' Hs]].
  - by intros [= <-].
  - rewrite Hs. apply scanStep_advance in Hs as [Hadv _].
    apply IH; [lia | done].
Qed.

Lemma notJpeg_no_throw dataView :
  (2 ≤ length dataView)%nat →
  ∃ r, notJpeg stringToIndex dataView = Ok r.
Proof.
  destruct dataView as [|b0 [|b1 rest]]; cbn [length]; [lia | lia |].
  intros _. unfold notJpeg. rewrite getUint8_head. cbn [mbind outcome_bind].
  destruct (negb _); [by eexists|].
  rewrite getUint8_second. by eexists.
Qed.

End NoApp1Facts.

(** X15: without an APP1 marker there is nothing to read and nothing to
    throw.  On a buffer of at least two bytes none of which is [0xE1],
    [getExifData] ends with [null]: the loop walks the segments by their
    length fields, reads only inside the buffer, and stops at its end or at
    a byte that is not [0xFF]. *)
Theorem X15_getExifData_no_app1 (stringToIndex : string → Exif.outcome Z)
    (arrayBuffer : list byte) :
  2 ≤ length arrayBuffer →
  (∀ b, b ∈ arrayBuffer → b ≠ xe1) →
  Exif.getExifData stringToIndex arrayBuffer = Some (Exif.Ok None).
Proof.
  intros Hlen Hno. destruct (getExifData_total stringToIndex arrayBuffer)
    as [r Hr].
  rewrite Hr. f_equal. revert Hr.
  unfold Exif.getExifData, Exif.getExifDataFuel.
  destruct (notJpeg_no_throw stringToIndex arrayBuffer Hlen) as [[|] ->].
  - by intros [= <-].
  - by apply scan_no_app1.
Qed.

Lemma X15_getExifData_no_app1_witness :
  Exif.getExifData Samples.engine Samples.twoSegments = Some (Exif.Ok None).
Proof.
  refine (X15_getExifData_no_app1 Samples.engine Samples.twoSegments _ _).
  - cbn. lia.
  - intros b Hb. unfold Samples.twoSegments in Hb.
    repeat (apply elem_of_cons in Hb as [->|Hb]; [discriminate|]).
    by apply elem_of_nil in Hb.
Defined.

(** ** Expanding and collapsing folders *)

Section PanelFacts.
Import Panel.

Lemma elem_addPrefixes parts : ∀ cp (S : gset string) q,
  q ∈ addPrefixes parts cp S
  ↔ q ∈ S ∨ ∃ k, 0 < k ≤ length parts ∧ q = pathFrom cp (take k parts).
Proof.
  induction parts as [|part rest IH]; intros cp S q; cbn [addPrefixes length].
  - split; [by left | intros [?|(k & ? & _)]; [done | lia]].
  - rewrite IH, elem_of_union, elem_of_singleton. split.
    + intros [[->|?]|(k & Hk & ->)].
      * right. exists 1. split; [lia | done].
      * by left.
      * right. exists (Datatypes.S k). split; [lia | done].
    + intros [?|(k & Hk & ->)]; [by left; right|].
      destruct k as [|k]; [lia|]. destruct k as [|k].
      * left. left. by destruct rest.
      * right. exists (Datatypes.S k). split; [lia | done].
Qed.

(** The members of the new set: the values of [currentPath] after [k] parts,
    for every [k] from 1 to the number of parts, less one when the folder
    was expanded. *)
Lemma elem_toggleFolder path prev q :
  q ∈ toggleFolder path prev
  ↔ ∃ k, 0 < k ≤ length (Str.split "/" path)
         ∧ (path ∈ prev → k < length (Str.split "/" path))
         ∧ q = pathFrom "" (take k (Str.split "/" path)).
Proof.
  unfold toggleFolder. destruct (bool_decide_reflect (path ∈ prev)) as [Hin|Hin];
    rewrite elem_addPrefixes, elem_of_empty.
  - rewrite length_take. split.
    + intros [[]|(k & Hk & ->)]. exists k.
      split; [lia|]. split; [intros _; lia|].
      by rewrite take_take, Nat.min_l by lia.
    + intros (k & Hk & Hlt & ->). right. exists k. specialize (Hlt Hin).
      split; [lia|]. by rewrite take_take, Nat.min_l by lia.
  - split.
    + intros [[]|(k & Hk & ->)]. by exists k.
    + intros (k & Hk & _ & ->). right. by exists k.
Qed.

Lemma nodeAt_append a b t : nodeAt (a ++ b) t = nodeAt a t ≫= nodeAt b.
Proof.
  revert t. induction a as [|s a IH]; intros t; cbn; [done|].
  destruct (children t !! s); [apply IH | done].
Qed.

Lemma split_app (c : ascii) a b :
  Str.split c (a +:+ String c b) = Str.split c a ++ Str.split c b.
Proof.
  induction a as [|x a IH].
  - change ("" +:+ String c b) with (String c b). cbn [Str.split].
    by rewrite decide_True.
  - change (String x a +:+ String c b) with (String x (a +:+ String c b)).
    cbn [Str.split]. rewrite IH. destruct (decide (x = c)); [done|].
    by destruct (split_cons c a) as (h & t & ->).
Qed.

Lemma join_app (c : ascii) a b :
  a ≠ [] → b ≠ [] →
  Str.join c (a ++ b) = Str.join c a +:+ String c (Str.join c b).
Proof.
  intros Ha Hb. induction a as [|p a IH]; [done|].
  destruct a as [|p' a].
  - destruct b; [done|]. done.
  - change (Str.join c ((p :: p' :: a) ++ b))
      with (p +:+ String c (Str.join c ((p' :: a) ++ b))).
    rewrite IH by done.
    change (Str.join c (p :: p' :: a))
      with (p +:+ String c (Str.join c (p' :: a))).
    by rewrite append_assoc.
Qed.

Lemma pathFrom_take_join h t k :
  h ≠ "" → 0 < k →
  pathFrom "" (take k (h :: t)) = Str.join "/" (take k (h :: t)).
Proof.
  intros Hh Hk. destruct k as [|k]; [lia|]. cbn [take].
  by apply pathFrom_root_join.
Qed.

Lemma append_longer (a b : string) : b ≠ "" → a ≠ a +:+ b.
Proof.
  intros Hb Heq. apply (f_equal String.length) in Heq.
  rewrite length_append in Heq. destruct b; [done|]. cbn in Heq. lia.
Qed.

(** The members of the new set, in terms of the path itself. *)
Lemma toggleFolder_ancestors path prev q :
  Str.startsWith "/" path = false →
  q ∈ toggleFolder path prev
  ↔ (q = path ∧ path ∉ prev) ∨ ∃ rest, path = q +:+ "/" +:+ rest.
Proof.
  intros Hstart. rewrite elem_toggleFolder.
  destruct (decide (path = "")) as [->|Hne].
  { cbn. split.
    - intros (k & Hk & Hlt & ->). left. assert (k = 1) as -> by lia.
      split; [done|]. intros Hin. specialize (Hlt Hin). lia.
    - intros [[-> Hin]|[rest Hrest]].
      + exists 1. split; [cbn; lia|]. split; [by intros ?|done].
      + by destruct q. }
  destruct (split_head_nonempty "/" path Hne Hstart) as (h & t & Hsplit & Hh).
  pose proof (join_split "/" path) as Hjoin.
  rewrite Hsplit in *. split.
  - intros (k & Hk & Hlt & ->). rewrite pathFrom_take_join by (done || lia).
    destruct (decide (k = length (h :: t))) as [->|Hk'].
    + left. rewrite firstn_all. split; [done|]. intros Hin.
      specialize (Hlt Hin). lia.
    + right. exists (Str.join "/" (drop k (h :: t))).
      rewrite <- Hjoin at 1. rewrite <- (take_drop k (h :: t)) at 1.
      apply join_app.
      * destruct k; [lia | done].
      * intros Hnil. apply (f_equal length) in Hnil.
        rewrite length_drop in Hnil. cbn [length] in *. lia.
  - intros [[-> Hnin]|[rest Hrest]].
    + exists (length (h :: t)).
      split; [cbn; lia|]. split; [done|]. rewrite firstn_all.
      by rewrite pathFrom_root_join.
    + assert (Str.split "/" q ++ Str.split "/" rest = h :: t) as Happ.
      { rewrite <- Hsplit, Hrest. symmetry. apply split_app. }
      destruct (split_cons "/" q) as (hq & tq & Hq).
      destruct (split_cons "/" rest) as (hr & tr & Hr).
      exists (length (Str.split "/" q)).
      assert (length (Str.split "/" q) < length (h :: t)) as Hlen.
      { rewrite <- Happ, length_app, Hr. cbn [length]. lia. }
      assert (0 < length (Str.split "/" q)) as Hpos.
      { rewrite Hq. cbn. lia. }
      split; [lia|]. split; [by intros _|].
      rewrite pathFrom_take_join by done.
      rewrite <- Happ, take_app_length. by rewrite join_split.
Qed.

End PanelFacts.

(** X16: [toggleFolder] keeps one branch open.  For a path that does not
    begin with a slash, the new set of expanded folders holds the ancestors
    of the path (the strings [q] with [path = q + "/" + rest]) and, when the
    path was not expanded before, the path itself; nothing else.  So the
    path changes sides, and whatever was expanded beside this branch is
    collapsed. *)
Theorem X16_toggleFolder_branch (path : string) (prev : gset string) :
  Str.startsWith "/" path = false →
  (∀ q, q ∈ Panel.toggleFolder path prev
        ↔ (q = path ∧ path ∉ prev) ∨ ∃ rest, path = q +:+ "/" +:+ rest)
  ∧ (path ∈ Panel.toggleFolder path prev ↔ path ∉ prev).
Proof.
  intros Hstart. split.
  - intros q. by apply toggleFolder_ancestors.
  - rewrite toggleFolder_ancestors by done. split.
    + intros [[_ ?]|[rest Hrest]]; [done|].
      by apply append_longer in Hrest.
    + intros ?. by left.
Qed.

Lemma X16_toggleFolder_branch_witness :
  "a/b" ∈ Panel.toggleFolder "a/b" {[ "c" ]} ↔ "a/b" ∉ ({[ "c" ]} : gset string).
Proof.
  refine (proj2 (X16_toggleFolder_branch "a/b" {[ "c" ]} _)).
  vm_compute. reflexivity.
Defined.

(** X17: [toggleFolder] on a node of the tree.  With no listed path
    beginning with a slash, toggling the path of the node at [segs] leaves
    expanded exactly the paths of the nodes above it on its branch, and the
    node's own path when it was not expanded before. *)
Theorem X17_toggleFolder_node (paths : list string) (segs : list string)
    (n : TreeNode) (prev : gset string) (q : string) :
  (∀ p, p ∈ paths → Str.startsWith "/" p = false) →
  segs ≠ [] →
  nodeAt segs (buildTree paths) = Some n →
  q ∈ Panel.toggleFolder (path n) prev
  ↔ (q = path n ∧ path n ∉ prev)
    ∨ ∃ segs' rest n', segs' ≠ [] ∧ rest ≠ [] ∧ segs = segs' ++ rest
                       ∧ nodeAt segs' (buildTree paths) = Some n'
                       ∧ path n' = q.
Proof.
  intros Hl Hne Hn. rewrite elem_toggleFolder.
  rewrite (buildTree_position paths segs n Hl Hne Hn).
  destruct (buildTree_described paths segs n Hne Hn) as (Hp & _ & _).
  split.
  - intros (k & Hk & Hlt & ->).
    destruct (decide (k = length segs)) as [->|Hk'].
    + left. rewrite firstn_all. split; [done|]. intros Hin.
      specialize (Hlt Hin). lia.
    + right. rewrite <- (take_drop k segs) in Hn.
      rewrite nodeAt_append in Hn.
      destruct (nodeAt (take k segs) (buildTree paths)) as [n'|] eqn:Hn';
        [|done].
      assert (take k segs ≠ []) as Hne'.
      { destruct k; [lia|]. by destruct segs. }
      exists (take k segs), (drop k segs), n'. split_and!; try done.
      * intros Hnil. apply (f_equal length) in Hnil.
        rewrite length_drop in Hnil. cbn [length] in Hnil. lia.
      * by rewrite take_drop.
      * by destruct (buildTree_described paths _ n' Hne' Hn') as (-> & _ & _).
  - intros [[-> Hnin]|(segs' & rest & n' & Hne' & Hrest & -> & Hn' & <-)].
    + exists (length segs).
      split; [destruct segs; [done | cbn; lia]|].
      split; [done | by rewrite firstn_all].
    + exists (length segs').
      assert (0 < length segs' ∧ 0 < length rest) as [? ?].
      { destruct segs', rest; cbn; try done; lia. }
      rewrite length_app. split; [lia|]. split; [intros _; lia|].
      rewrite take_app_length.
      by destruct (buildTree_described paths _ n' Hne' Hn') as (-> & _ & _).
Qed.

Lemma X17_toggleFolder_node_witness :
  "a" ∈ Panel.toggleFolder "a/b" {[ "a/b" ]}
  ↔ ("a" = "a/b" ∧ "a/b" ∉ ({[ "a/b" ]} : gset string))
    ∨ ∃ segs' rest n', segs' ≠ [] ∧ rest ≠ [] ∧ ["a"; "b"] = segs' ++ rest
                       ∧ nodeAt segs' (buildTree ["a/b"; "c"]) = Some n'
                       ∧ path n' = "a".
Proof.
  refine (X17_toggleFolder_node ["a/b"; "c"] ["a"; "b"]
            (mkTreeNode "b" "a/b" true ∅) {[ "a/b" ]} "a" _ _ _).
  - intros p Hp. apply elem_of_cons in Hp as [->|Hp]; [done|].
    by apply list_elem_of_singleton in Hp as ->.
  - done.
  - vm_compute. reflexivity.
Defined.

(** X18: [toggleStory] and [toggleImageList] change one member only.  The
    path given changes sides, every other path stays where it was, and
    toggling the same path twice gives the set back. *)
Theorem X18_toggle_member (path : string) (prev : gset string) :
  (path ∈ Panel.toggleStory path prev ↔ path ∉ prev)
  ∧ (∀ q, q ≠ path → q ∈ Panel.toggleStory path prev ↔ q ∈ prev)
  ∧ Panel.toggleStory path (Panel.toggleStory path prev) = prev
  ∧ (path ∈ Panel.toggleImageList path prev ↔ path ∉ prev)
  ∧ (∀ q, q ≠ path → q ∈ Panel.toggleImageList path prev ↔ q ∈ prev)
  ∧ Panel.toggleImageList path (Panel.toggleImageList path prev) = prev.
Proof.
  assert (path ∈ Panel.toggleStory path prev ↔ path ∉ prev) as Hflip.
  { unfold Panel.toggleStory. cbv zeta.
    destruct (bool_decide_reflect (path ∈ prev)) as [Hin|Hin].
    - rewrite elem_of_difference, elem_of_singleton. by split; [intros []|].
    - rewrite elem_of_union, elem_of_singleton. by split; [|left]. }
  assert (∀ S q, q ≠ path → q ∈ Panel.toggleStory path S ↔ q ∈ S) as Hother.
  { intros S q Hq. unfold Panel.toggleStory. cbv zeta.
    destruct (bool_decide_reflect (path ∈ S)) as [Hin|Hin].
    - rewrite elem_of_difference, elem_of_singleton. by split; [intros []|].
    - rewrite elem_of_union, elem_of_singleton.
      by split; [intros [|]|right]. }
  assert (Panel.toggleStory path (Panel.toggleStory path prev) = prev) as Htwice.
  { apply set_eq. intros q. destruct (decide (q = path)) as [->|Hq].
    - unfold Panel.toggleStory at 1. cbv zeta.
      destruct (bool_decide_reflect (path ∈ Panel.toggleStory path prev))
        as [Hin|Hin].
      + rewrite elem_of_difference, elem_of_singleton.
        apply Hflip in Hin. by split; [intros []|].
      + rewrite elem_of_union, elem_of_singleton. split; [|by left].
        intros _. destruct (decide (path ∈ prev)) as [|Hnin]; [done|].
        by apply Hflip in Hnin.
    - by rewrite !Hother. }
  split_and!;
    [exact Hflip | exact (Hother prev) | exact Htwice
    |exact Hflip | exact (Hother prev) | exact Htwice].
Qed.

(** ** The format of an image *)

Section FormatFacts.
Import Cache.

Lemma lowerChar_idemp a : lowerChar (lowerChar a) = lowerChar a.
Proof. destruct a as [[] [] [] [] [] [] [] []]; vm_compute; reflexivity. Qed.

Lemma lowerChar_dot a : lowerChar a = "."%char → a = "."%char.
Proof.
  destruct a as [[] [] [] [] [] [] [] []]; vm_compute; intros H;
    first [reflexivity | discriminate H].
Qed.

Lemma toLowerCase_idemp s : toLowerCase (toLowerCase s) = toLowerCase s.
Proof.
  induction s as [|a s IH]; [done|]. cbn [toLowerCase].
  by rewrite lowerChar_idemp, IH.
Qed.

Lemma toLowerCase_no_dot s :
  Str.contains "." s = false → Str.contains "." (toLowerCase s) = false.
Proof.
  induction s as [|a s IH]; [done|]. cbn [toLowerCase Str.contains].
  intros H. apply orb_false_iff in H as [Ha Hs]. rewrite (IH Hs).
  apply bool_decide_eq_false in Ha. rewrite orb_false_r.
  apply bool_decide_eq_false. intros Hdot. by apply Ha, lowerChar_dot.
Qed.

Lemma pop_no_sep (c : ascii) s :
  Str.contains c (Str.pop (Str.split c s)) = false.
Proof.
  pose proof (split_no_sep c s) as Hall.
  destruct (split_cons c s) as (h & t & Hs). rewrite Hs in *.
  unfold Str.pop. clear Hs. revert h Hall.
  induction t as [|x t IH]; intros h Hall.
  - by apply Forall_cons in Hall as [? _].
  - apply Forall_cons in Hall as [_ Hall]. by apply IH.
Qed.

Lemma pop_snoc (l : list string) x : Str.pop (l ++ [x]) = x.
Proof. unfold Str.pop. apply List.last_last. Qed.

Lemma format_cases fullPath :
  let ext := toLowerCase (Str.pop (Str.split "." fullPath)) in
  format (toImage fullPath) = (if decide (ext = "") then "unknown" else ext).
Proof. done. Qed.

End FormatFacts.

(** X19: the format [loadImagesForFolder] gives an image.  It is never
    empty, has no dot and is its own lower case.  A path that ends with a
    dot, and the empty path, get ["unknown"]; a path without any dot gets
    the whole path in lower case, slashes included. *)
Theorem X19_image_format (fullPath : string) :
  let format := Cache.format (Cache.toImage fullPath) in
  format ≠ ""
  ∧ Str.contains "." format = false
  ∧ Cache.toLowerCase format = format
  ∧ (fullPath = "" ∨ (∃ stem, fullPath = stem +:+ ".") → format = "unknown")
  ∧ (fullPath ≠ "" → Str.contains "." fullPath = false →
       format = Cache.toLowerCase fullPath).
Proof.
  intros format. subst format. rewrite format_cases. cbv zeta.
  split_and!.
  - by case_decide.
  - case_decide; [done|]. apply toLowerCase_no_dot, pop_no_sep.
  - case_decide; [done|]. apply toLowerCase_idemp.
  - intros [->|[stem ->]]; [done|].
    change (stem +:+ ".") with (stem +:+ String "." "").
    rewrite split_app. change (Str.split "." "") with [""].
    by rewrite pop_snoc.
  - intros Hne Hdot. rewrite split_no_sep_id by done.
    change (Str.pop [fullPath]) with fullPath.
    case_decide as Hlow; [|done]. by destruct fullPath.
Qed.

Lemma X19_image_format_witness :
  Cache.format (Cache.toImage "/photos/README") = "/photos/readme".
Proof.
  refine (proj2 (proj2 (proj2 (proj2
            (X19_image_format "/photos/README")))) _ _).
  - discriminate.
  - vm_compute. reflexivity.
Defined.

(** ** Any sequence of loads *)

Section LoadSequence.
Import Cache.

Lemma load_lookup getImages folderPath st f :
  is_Some (imagesByFolder (loadImagesForFolder getImages folderPath st) !! f)
  ↔ is_Some (imagesByFolder st !! f) ∨ f = folderPath.
Proof.
  unfold loadImagesForFolder.
  destruct (imagesByFolder st !! folderPath) as [imgs|] eqn:Hc.
  - split; [by left | intros [?| ->]; [done | by rewrite Hc]].
  - destruct (getImages folderPath); cbn; rewrite lookup_insert_is_Some;
      (destruct (decide (folderPath = f)) as [->|Hne];
       [split; intros _; [by right | by left]
       |split; [intros [?|[_ ?]]; [done | by left]
               |intros [?| ->]; [by right | done]]]).
Qed.

End LoadSequence.

(** X20: any run of calls of [loadImagesForFolder], each with the answer
    the service gives at that time, sends one request for each folder
    asked for that was not cached at the start, and no request twice; after
    the run the cache has an entry for each folder it had one for and for
    each folder asked for. *)
Theorem X20_loads_fetch_once
    (calls : list ((string → option (list string)) * string))
    (st : Cache.State) :
  let st' :=
    foldl (λ st call, Cache.loadImagesForFolder call.1 call.2 st) st calls in
  ∃ new,
    Cache.requests st' = Cache.requests st ++ new
    ∧ NoDup new
    ∧ (∀ f, f ∈ new ↔ f ∈ calls.*2 ∧ Cache.imagesByFolder st !! f = None)
    ∧ (∀ f, is_Some (Cache.imagesByFolder st' !! f)
            ↔ is_Some (Cache.imagesByFolder st !! f) ∨ f ∈ calls.*2).
Proof.
  revert st. induction calls as [|[g folder] calls IH]; intros st.
  { exists []. cbn. split_and!.
    - by rewrite app_nil_r.
    - constructor.
    - intros f. rewrite !elem_of_nil. tauto.
    - intros f. rewrite elem_of_nil. tauto. }
  destruct (IH (Cache.loadImagesForFolder g folder st))
    as (new & Hreq & Hnd & Hnew & Hdom).
  cbn [foldl fst snd fmap list_fmap] in *.
  destruct (Cache.imagesByFolder st !! folder) as [imgs|] eqn:Hc.
  - rewrite (load_cached g folder st) in * by (by rewrite Hc).
    exists new. cbv zeta. split_and!; [done | done | |].
    + intros f. rewrite Hnew, elem_of_cons. split; [tauto|].
      intros [[->|?] Hf]; [congruence | done].
    + intros f. rewrite Hdom, elem_of_cons. split; [tauto|].
      intros [?|[->|?]]; [by left | left; by rewrite Hc | by right].
  - exists (folder :: new). cbv zeta. split_and!.
    + rewrite Hreq, load_requests by done. by rewrite <- app_assoc.
    + apply NoDup_cons. split; [|done]. rewrite Hnew. intros [_ Hnone].
      pose proof (load_fills g folder st) as [x Hx]. congruence.
    + intros f. rewrite !elem_of_cons, Hnew. split.
      * intros [->|[Hf Hnone]]; [by split; [left|]|].
        split; [by right|].
        destruct (Cache.imagesByFolder st !! f) eqn:Hf'; [|done].
        assert (is_Some (Cache.imagesByFolder
                           (Cache.loadImagesForFolder g folder st) !! f))
          as [x Hx]; [|congruence].
        apply load_lookup. left. by rewrite Hf'.
      * intros [[->|Hf] Hnone]; [by left|].
        destruct (decide (f = folder)) as [->|Hne]; [by left|]. right.
        split; [done|].
        destruct (Cache.imagesByFolder
                    (Cache.loadImagesForFolder g folder st) !! f)
          eqn:Hf'; [|done].
        assert (is_Some (Cache.imagesByFolder st !! f) ∨ f = folder)
          as [[x Hx]| ->].
        { apply (load_lookup g). by rewrite Hf'. }
        -- congruence.
        -- done.
    + intros f. rewrite Hdom, load_lookup, elem_of_cons. tauto.
Qed.

(** * The tree on plain objects

    In the statements below [strict] says whether the code runs as strict
    code, and [proto] and [proto'] whether [Object.prototype] has the
    property [isSelectable] when the call of [buildTree] begins and when it
    ends.  A segment is plain ([Proto.plain]) when no property is inherited
    under its name. *)

(** ** Walks along lists of segments *)

Section WalksFacts.
Context (pathSet : gset string).

Lemma addPath_segments t p :
  addPath pathSet t p = walkParts pathSet (Proto.segments p) "" t.
Proof. unfold addPath, Proto.segments. by case_decide. Qed.

Lemma foldl_addPath_walks l t :
  foldl (addPath pathSet) t l = Proto.walks pathSet t (Proto.segments <$> l).
Proof.
  revert t. induction l as [|p l IH]; intros t; [done|].
  cbn. by rewrite IH, addPath_segments.
Qed.

Lemma walks_perm l l' t :
  l ≡ₚ l' → Proto.walks pathSet t l = Proto.walks pathSet t l'.
Proof.
  intros Hp. revert t. unfold Proto.walks.
  induction Hp as [|x l l' _ IH|x y l|l l' l'' _ IH1 _ IH2]; intros t; cbn.
  - done.
  - apply IH.
  - by rewrite walkParts_comm.
  - by rewrite IH1.
Qed.

Lemma walks_absorb l t x :
  x ∈ l →
  Proto.walks pathSet (walkParts pathSet x "" t) l = Proto.walks pathSet t l.
Proof.
  intros Hin. apply list_elem_of_split in Hin as (l1 & l2 & ->).
  change (Proto.walks pathSet t (x :: l1 ++ x :: l2)
          = Proto.walks pathSet t (l1 ++ x :: l2)).
  rewrite (walks_perm (x :: l1 ++ x :: l2) (x :: x :: l1 ++ l2))
    by (constructor; by rewrite Permutation_middle).
  rewrite (walks_perm (l1 ++ x :: l2) (x :: l1 ++ l2))
    by (by rewrite Permutation_middle).
  unfold Proto.walks. cbn. by rewrite walkParts_idemp.
Qed.

Lemma walks_remove_dups l t :
  Proto.walks pathSet t (remove_dups l) = Proto.walks pathSet t l.
Proof.
  revert t. induction l as [|x l IH]; intros t; [done|].
  change (Proto.walks pathSet t (x :: l))
    with (Proto.walks pathSet (walkParts pathSet x "" t) l).
  cbn [remove_dups]. case_decide as Hin.
  - by rewrite IH, walks_absorb.
  - change (Proto.walks pathSet t (x :: remove_dups l))
      with (Proto.walks pathSet (walkParts pathSet x "" t) (remove_dups l)).
    apply IH.
Qed.

(** The tree after the walks depends on the set of segment lists only. *)
Lemma walks_same_members l l' t :
  (∀ x, x ∈ l ↔ x ∈ l') →
  Proto.walks pathSet t l = Proto.walks pathSet t l'.
Proof.
  intros Hsame.
  rewrite <- (walks_remove_dups l), <- (walks_remove_dups l').
  apply walks_perm, NoDup_Permutation; try apply NoDup_remove_dups.
  intros x. by rewrite !elem_of_remove_dups.
Qed.

Lemma walks_fields l t :
  name (Proto.walks pathSet t l) = name t
  ∧ path (Proto.walks pathSet t l) = path t
  ∧ isSelectable (Proto.walks pathSet t l) = isSelectable t.
Proof.
  revert t. induction l as [|x l IH]; intros t; [done|].
  destruct (IH (walkParts pathSet x "" t)) as (H1 & H2 & H3).
  unfold Proto.walks in *. cbn. rewrite H1, H2, H3.
  by rewrite walkParts_name, walkParts_path, walkParts_isSelectable.
Qed.

Lemma described_walks l t :
  described pathSet "" t → described pathSet "" (Proto.walks pathSet t l).
Proof.
  revert t. induction l as [|x l IH]; intros t Ht; [done|].
  apply (IH (walkParts pathSet x "" t)). by apply described_walkParts.
Qed.

Lemma slashFree_walks l t :
  Forall (Forall (λ seg, Str.contains "/" seg = false)) l →
  slashFree t → slashFree (Proto.walks pathSet t l).
Proof.
  intros Hl. revert t. induction Hl as [|x l Hx Hl IH]; intros t Ht; [done|].
  apply (IH (walkParts pathSet x "" t)). by apply slashFree_walkParts.
Qed.

Lemma walks_positions l : ∀ t segs,
  segs ≠ [] →
  is_Some (nodeAt segs (Proto.walks pathSet t l))
  ↔ is_Some (nodeAt segs t) ∨ ∃ x, x ∈ l ∧ segs `prefix_of` x.
Proof.
  induction l as [|y l IH]; intros t segs Hne.
  { cbn. split; [by left|]. intros [?|(x & Hx & _)]; [done|].
    by apply elem_of_nil in Hx. }
  change (Proto.walks pathSet t (y :: l))
    with (Proto.walks pathSet (walkParts pathSet y "" t) l).
  rewrite IH, walkParts_positions by done. split.
  - intros [[?|Hpre]|(x & Hx & Hpre)]; [by left | right..].
    + exists y. split; [by left | done].
    + exists x. split; [by right | done].
  - intros [?|(x & Hx & Hpre)]; [by left; left|].
    apply elem_of_cons in Hx as [->|Hx]; [by left; right|].
    right. by exists x.
Qed.

Lemma walks_no_empty_child l t :
  (∀ x, x ∈ l → head x ≠ Some "") →
  children t !! "" = None →
  children (Proto.walks pathSet t l) !! "" = None.
Proof.
  revert t. induction l as [|x l IH]; intros t Hl Ht; [done|].
  apply (IH (walkParts pathSet x "" t)); [intros y Hy; apply Hl; by right|].
  destruct x as [|h r]; [done|]. cbn. rewrite lookup_insert_ne; [done|].
  intros ->. by apply (Hl ("" :: r)); [left|].
Qed.

End WalksFacts.

Lemma buildTree_walks paths :
  buildTree paths
  = Proto.walks (list_to_set paths) emptyRoot (Proto.segments <$> paths).
Proof. apply foldl_addPath_walks. Qed.

(** ** What a returned tree is *)

Section ProtoReturns.
Context (strict : bool) (pathSet : gset string).

(** [Object.prototype] never loses [isSelectable], so what is inherited
    later was not less before. *)
Lemma lookupInherited_earlier flag flag' part :
  (flag = true → flag' = true) →
  Proto.lookupInherited flag' part = None →
  Proto.lookupInherited flag part = None.
Proof.
  intros Hmono. unfold Proto.lookupInherited.
  destruct (decide (part = "__proto__")); [done|].
  destruct (decide (part ∈ Proto.prototypeNames)); [done|].
  destruct flag; [by rewrite Hmono | done].
Qed.

Lemma keeps_later flag flag' parts pre :
  (flag = true → flag' = true) →
  Proto.keeps flag parts pre → Proto.keeps flag' parts pre.
Proof.
  intros Hmono [Hpre Hfar]. split; [done|]. intros segs Hsegs Hall.
  apply Hfar; [done|]. eapply Forall_impl; [exact Hall|].
  intros seg. by apply lookupInherited_earlier.
Qed.

Lemma assignSelectable_later v flag flag' :
  Proto.assignSelectable strict v flag = Proto.Ok flag' →
  flag = true → flag' = true.
Proof. destruct v, strict; cbn; by intros [= <-]. Qed.

(** A walk that returns has walked, as [Tree] does, the parts up to the
    first one that was inherited, or all of them. *)
Lemma proto_walkParts_returns parts : ∀ cp t flag t' flag',
  Proto.walkParts strict pathSet parts cp t flag = (Proto.Ok t', flag') →
  ∃ pre, t' = walkParts pathSet pre cp t
         ∧ (flag = true → flag' = true)
         ∧ Proto.keeps flag' parts pre.
Proof.
  induction parts as [|part rest IH]; intros cp t flag t' flag'.
  { cbn. intros [= <- <-]. exists []. split_and!; [done..|].
    split; [done|]. by intros segs Hsegs _. }
  cbn [Proto.walkParts].
  assert (∀ child, childOrNew t part (extendPath cp part) = child →
            match Proto.walkParts strict pathSet rest (extendPath cp part)
                    (mark pathSet (extendPath cp part) child) flag with
            | (Proto.Ok child', flag1) =>
                (Proto.Ok (setChildren t (<[part := child']> (children t))),
                 flag1)
            | (Proto.Throw e, flag1) => (Proto.Throw e, flag1)
            end = (Proto.Ok t', flag') →
            ∃ pre, t' = walkParts pathSet pre cp t
                   ∧ (flag = true → flag' = true)
                   ∧ Proto.keeps flag' (part :: rest) pre) as Hown.
  { intros child Hchild.
    destruct (Proto.walkParts strict pathSet rest (extendPath cp part)
                (mark pathSet (extendPath cp part) child) flag)
      as [[child'|e] flag1] eqn:Hw; [|done].
    intros [= <- <-].
    destruct (IH _ _ _ _ _ Hw) as (pre & -> & Hmono & Hpre & Hfar).
    exists (part :: pre). split_and!; [|done|].
    - cbn [walkParts]. by rewrite Hchild.
    - split; [by apply prefix_cons|]. intros [|s segs] Hsegs Hall.
      + apply prefix_nil.
      + pose proof (prefix_cons_inv_1 _ _ _ _ Hsegs) as ->.
        apply prefix_cons, Hfar; [by apply prefix_cons_inv_2 in Hsegs|].
        by inversion Hall. }
  destruct (children t !! part) as [child|] eqn:Hc.
  { apply Hown. unfold childOrNew. by rewrite Hc. }
  destruct (Proto.lookupInherited flag part) as [v|] eqn:Hv.
  2:{ apply Hown. unfold childOrNew. by rewrite Hc. }
  clear Hown.
  assert (∀ flag1, (flag = true → flag1 = true) →
            match rest with
            | [] => (Proto.Ok t, flag1)
            | _ :: _ => (Proto.Throw Proto.TypeError, flag1)
            end = (Proto.Ok t', flag') →
            ∃ pre, t' = walkParts pathSet pre cp t
                   ∧ (flag = true → flag' = true)
                   ∧ Proto.keeps flag' (part :: rest) pre) as Hend.
  { intros flag1 Hmono. destruct rest as [|part' rest']; [|done].
    intros [= <- <-]. exists []. split_and!; [done..|].
    split; [apply prefix_nil|]. intros [|s segs] Hsegs Hall; [done|].
    pose proof (prefix_cons_inv_1 _ _ _ _ Hsegs) as ->.
    apply Forall_cons in Hall as [Hpart _].
    apply (lookupInherited_earlier flag) in Hpart; [congruence | done]. }
  case_decide.
  - destruct (Proto.assignSelectable strict v flag) as [flag1|e] eqn:Ha;
      [|done].
    apply Hend. by apply (assignSelectable_later v).
  - by apply Hend.
Qed.

Lemma proto_forEach_returns paths : ∀ t flag t' flag',
  Proto.forEach strict pathSet paths t flag = (Proto.Ok t', flag') →
  ∃ l, t' = Proto.walks pathSet t l
       ∧ (flag = true → flag' = true)
       ∧ Forall2 (λ p pre, Proto.keeps flag' (Proto.segments p) pre) paths l.
Proof.
  induction paths as [|p paths IH]; intros t flag t' flag'.
  { cbn. intros [= <- <-]. by exists []. }
  cbn [Proto.forEach]. unfold Proto.addPath.
  assert (∀ t1 flag1 pre,
            t1 = walkParts pathSet pre "" t → (flag = true → flag1 = true) →
            Proto.keeps flag1 (Proto.segments p) pre →
            Proto.forEach strict pathSet paths t1 flag1 = (Proto.Ok t', flag') →
            ∃ l, t' = Proto.walks pathSet t l
                 ∧ (flag = true → flag' = true)
                 ∧ Forall2 (λ p pre, Proto.keeps flag' (Proto.segments p) pre)
                     (p :: paths) l) as Hrest.
  { intros t1 flag1 pre -> Hmono Hkeeps Hrun.
    destruct (IH _ _ _ _ Hrun) as (l & -> & Hmono' & Hl).
    exists (pre :: l). split_and!; [done | by auto |].
    constructor; [|done]. by apply (keeps_later flag1). }
  case_decide as Hp.
  - apply (Hrest t flag []); [done | done |].
    unfold Proto.segments. rewrite decide_True by done.
    split; [done|]. by intros segs Hsegs _.
  - destruct (Proto.walkParts strict pathSet (Str.split "/" p) "" t flag)
      as [[t1|e] flag1] eqn:Hw; [|done].
    destruct (proto_walkParts_returns _ _ _ _ _ _ Hw)
      as (pre & -> & Hmono & Hkeeps).
    apply (Hrest _ flag1 pre); [done | done |].
    unfold Proto.segments. by rewrite decide_False.
Qed.

End ProtoReturns.

(** A tree [buildTree] returns is the tree of [Tree]'s walks along what
    was kept of each listed path. *)
Lemma proto_buildTree_returns strict flag paths t flag' :
  Proto.buildTree strict flag paths = (Proto.Ok t, flag') →
  ∃ l, t = Proto.walks (list_to_set paths) emptyRoot l
       ∧ (flag = true → flag' = true)
       ∧ Forall2 (λ p pre, Proto.keeps flag' (Proto.segments p) pre) paths l.
Proof. apply proto_forEach_returns. Qed.

Lemma Forall2_elem_of_r {A B} (R : A → B → Prop) l k y :
  Forall2 R l k → y ∈ k → ∃ x, x ∈ l ∧ R x y.
Proof.
  intros HR. induction HR as [|x y' l k Hxy _ IH]; intros Hy.
  { by apply elem_of_nil in Hy. }
  apply elem_of_cons in Hy as [->|Hy].
  - exists x. split; [by left | done].
  - destruct (IH Hy) as (x' & Hx' & HR'). exists x'. split; [by right | done].
Qed.

Lemma Forall2_elem_of_l {A B} (R : A → B → Prop) l k x :
  Forall2 R l k → x ∈ l → ∃ y, y ∈ k ∧ R x y.
Proof.
  intros HR. induction HR as [|x' y l k Hxy _ IH]; intros Hx.
  { by apply elem_of_nil in Hx. }
  apply elem_of_cons in Hx as [->|Hx].
  - exists y. split; [by left | done].
  - destruct (IH Hx) as (y' & Hy' & HR'). exists y'. split; [by right | done].
Qed.

Lemma segments_nonempty p : p ≠ "" → Proto.segments p = Str.split "/" p.
Proof. intros Hp. unfold Proto.segments. by rewrite decide_False. Qed.

Lemma segments_prefix p segs :
  segs ≠ [] → segs `prefix_of` Proto.segments p →
  p ≠ "" ∧ segs `prefix_of` Str.split "/" p.
Proof.
  unfold Proto.segments. case_decide as Hp; [|done].
  intros Hne Hpre. by apply prefix_nil_inv in Hpre.
Qed.

Lemma segments_no_sep p :
  Forall (λ seg, Str.contains "/" seg = false) (Proto.segments p).
Proof. unfold Proto.segments. case_decide; [done | apply split_no_sep]. Qed.

Lemma emptyRoot_described S : described S "" emptyRoot.
Proof.
  intros [|s rest] n Hne Hn; [done|]. cbn in Hn. by rewrite lookup_empty in Hn.
Qed.

Lemma emptyRoot_slashFree : slashFree emptyRoot.
Proof.
  intros [|s rest] n Hn; [by constructor|].
  cbn in Hn. by rewrite lookup_empty in Hn.
Qed.

Section ReturnedTree.
Context (strict flag : bool) (paths : list string) (t : TreeNode)
        (flag' : bool).
Context (Hrun : Proto.buildTree strict flag paths = (Proto.Ok t, flag')).

Lemma returned_described : described (list_to_set paths) "" t.
Proof.
  destruct (proto_buildTree_returns _ _ _ _ _ Hrun) as (l & -> & _ & _).
  apply described_walks, emptyRoot_described.
Qed.

Lemma returned_fields : name t = "root" ∧ path t = "" ∧ isSelectable t = false.
Proof.
  destruct (proto_buildTree_returns _ _ _ _ _ Hrun) as (l & -> & _ & _).
  apply walks_fields.
Qed.

Lemma returned_slashFree : slashFree t.
Proof.
  destruct (proto_buildTree_returns _ _ _ _ _ Hrun) as (l & -> & _ & Hl).
  apply slashFree_walks; [|apply emptyRoot_slashFree].
  apply Forall_forall. intros pre Hpre.
  destruct (Forall2_elem_of_r _ _ _ _ Hl Hpre) as (p & _ & [[k Hk] _]).
  pose proof (segments_no_sep p) as Hall. rewrite Hk in Hall.
  by apply Forall_app in Hall as [? _].
Qed.

(** Every node is at a prefix of the segments of a listed path. *)
Lemma returned_node_prefix segs :
  segs ≠ [] → is_Some (nodeAt segs t) →
  ∃ p, p ∈ paths ∧ p ≠ "" ∧ segs `prefix_of` Str.split "/" p.
Proof.
  destruct (proto_buildTree_returns _ _ _ _ _ Hrun) as (l & -> & _ & Hl).
  intros Hne Hn. apply walks_positions in Hn as [Hn|(pre & Hpre & Hsegs)];
    [| |done].
  { destruct segs; [done|]. cbn in Hn. rewrite lookup_empty in Hn.
    by destruct Hn. }
  destruct (Forall2_elem_of_r _ _ _ _ Hl Hpre) as (p & Hp & [Hkept _]).
  exists p. split; [done|]. apply segments_prefix; [done|].
  by transitivity pre.
Qed.

(** Every prefix of the segments of a listed path that has no inherited
    name in it has a node. *)
Lemma returned_prefix_node p segs :
  p ∈ paths → p ≠ "" → segs `prefix_of` Str.split "/" p →
  Forall (Proto.plain flag') segs →
  is_Some (nodeAt segs t).
Proof.
  destruct (proto_buildTree_returns _ _ _ _ _ Hrun) as (l & -> & _ & Hl).
  intros Hp Hne Hsegs Hall. destruct (decide (segs = [])) as [->|Hnil].
  { by eexists. }
  apply walks_positions; [done|]. right.
  destruct (Forall2_elem_of_l _ _ _ _ Hl Hp) as (pre & Hpre & [_ Hfar]).
  exists pre. split; [done|]. apply Hfar; [|done].
  by rewrite segments_nonempty.
Qed.

Lemma returned_no_empty_child :
  (∀ q, q ∈ paths → Str.startsWith "/" q = false) →
  children t !! "" = None.
Proof.
  destruct (proto_buildTree_returns _ _ _ _ _ Hrun) as (l & -> & _ & Hl).
  intros Hslash. apply walks_no_empty_child; [|done].
  intros pre Hpre Hhead.
  destruct (Forall2_elem_of_r _ _ _ _ Hl Hpre) as (p & Hp & [Hkept _]).
  destruct pre as [|h r]; [done|]. injection Hhead as ->.
  destruct (segments_prefix p ("" :: r)) as [Hne [k Hk]]; [done..|].
  destruct (split_head_nonempty "/" p Hne (Hslash p Hp)) as (h & r' & Hs & Hh).
  rewrite Hs in Hk. by injection Hk as -> _.
Qed.

(** Without a leading slash anywhere in the list, a node's path determines
    its position. *)
Lemma returned_position segs n :
  (∀ q, q ∈ paths → Str.startsWith "/" q = false) →
  segs ≠ [] → nodeAt segs t = Some n →
  Str.split "/" (path n) = segs.
Proof.
  intros Hslash Hne Hn.
  destruct (returned_described segs n Hne Hn) as (Hp & _ & _).
  pose proof (returned_slashFree segs n Hn) as Hfree.
  destruct segs as [|s rest]; [done|].
  assert (s ≠ "") as Hs.
  { intros ->. cbn in Hn. by rewrite returned_no_empty_child in Hn. }
  rewrite Hp, pathFrom_root_join by done. by apply split_join.
Qed.

(** A listed path without a leading slash and without an inherited name is
    the path of the node its segments name, and that node is selectable. *)
Lemma returned_listed p :
  p ∈ paths → p ≠ "" →
  Forall (Proto.plain flag') (Str.split "/" p) →
  ∃ n, nodeAt (Str.split "/" p) t = Some n
       ∧ (Str.startsWith "/" p = false → path n = p ∧ isSelectable n = true).
Proof.
  intros Hp Hne Hall.
  destruct (returned_prefix_node p (Str.split "/" p) Hp Hne) as [n Hn];
    [done..|].
  exists n. split; [done|]. intros Hslash.
  destruct (split_head_nonempty "/" p Hne Hslash) as (h & r & Hs & Hh).
  destruct (returned_described (Str.split "/" p) n) as (Hpath & _ & Hsel);
    [by rewrite Hs | done |].
  assert (path n = p) as Hpn.
  { rewrite Hpath, Hs, pathFrom_root_join by done.
    rewrite <- Hs. apply join_split. }
  split; [done|]. apply Hsel. rewrite <- Hpath, Hpn.
  by apply elem_of_list_to_set.
Qed.

End ReturnedTree.

(** ** While [Object.prototype] stays as it is *)

Section NamesFacts.
Context (pathSet : gset string) (P : string → Prop).

Lemma namesAll_child t k c :
  children t !! k = Some c → Proto.namesAll P t → P k ∧ Proto.namesAll P c.
Proof.
  intros Hc Ht. split.
  - specialize (Ht [k] c). cbn in Ht. rewrite Hc in Ht.
    specialize (Ht eq_refl). by inversion Ht.
  - intros segs n Hn. specialize (Ht (k :: segs) n). cbn in Ht.
    rewrite Hc in Ht. specialize (Ht Hn). by inversion Ht.
Qed.

Lemma namesAll_childOrNew cp cp' p t :
  Proto.namesAll P t →
  Proto.namesAll P (mark pathSet cp (childOrNew t p cp')).
Proof.
  intros Ht [|s rest] n Hn; [by constructor|].
  rewrite (nodeAt_children _ _ (childOrNew t p cp')) in Hn
    by (done || apply children_mark).
  unfold childOrNew in Hn. destruct (children t !! p) as [c|] eqn:Hc.
  - by apply (proj2 (namesAll_child t p c Hc Ht) _ n).
  - cbn in Hn. by rewrite lookup_empty in Hn.
Qed.

Lemma namesAll_walkParts ps cp t :
  Forall P ps → Proto.namesAll P t →
  Proto.namesAll P (walkParts pathSet ps cp t).
Proof.
  intros Hps. revert cp t.
  induction Hps as [|p r Hp Hr IH]; intros cp t Ht; [done|].
  intros [|s rest] n Hn; [by constructor|].
  rewrite nodeAt_walkParts_cons in Hn.
  case_decide as Hs; [subst s|by apply (Ht _ n)].
  constructor; [done|].
  eapply IH; [|exact Hn]. by apply namesAll_childOrNew.
Qed.

Lemma namesAll_emptyRoot : Proto.namesAll P emptyRoot.
Proof.
  intros [|s rest] n Hn; [by constructor|].
  cbn in Hn. by rewrite lookup_empty in Hn.
Qed.

End NamesFacts.

Section FixedPrototype.
Context (strict : bool) (pathSet : gset string) (flag : bool).

Lemma walked_plain parts : ∀ cp pre,
  Proto.walked strict pathSet flag cp parts = Some pre →
  Forall (Proto.plain flag) pre.
Proof.
  induction parts as [|part rest IH]; intros cp pre; cbn [Proto.walked].
  { by intros [= <-]. }
  destruct (Proto.lookupInherited flag part) as [v|] eqn:Hv.
  - destruct (if decide (extendPath cp part ∈ pathSet)
              then Proto.assignSelectable strict v flag
              else Proto.Ok flag); [|done].
    destruct rest; [|done]. by intros [= <-].
  - destruct (Proto.walked strict pathSet flag (extendPath cp part) rest)
      as [pre'|] eqn:Hw; [|done].
    cbn. intros [= <-]. constructor; [done|]. by apply (IH _ _ Hw).
Qed.

Lemma walked_all parts : ∀ cp,
  Forall (Proto.plain flag) parts →
  Proto.walked strict pathSet flag cp parts = Some parts.
Proof.
  induction parts as [|part rest IH]; intros cp Hall; [done|].
  apply Forall_cons in Hall as [Hpart Hrest]. cbn [Proto.walked].
  by rewrite Hpart, IH.
Qed.

Lemma lookupInherited_prototype part :
  Proto.lookupInherited flag part = Some Proto.PrototypeObject →
  part = "__proto__".
Proof.
  unfold Proto.lookupInherited.
  destruct (decide (part = "__proto__")); [done|].
  destruct (decide (part ∈ Proto.prototypeNames)); [done|].
  by destruct (flag && _).
Qed.

(** While [Object.prototype] stays as it is and no node has an inherited
    name, a walk is [Tree]'s walk of the parts before the first inherited
    one, or throws. *)
Lemma proto_walkParts_walked parts : ∀ cp t,
  flag = true ∨ "__proto__" ∉ parts →
  Proto.namesAll (Proto.plain flag) t →
  Proto.walkParts strict pathSet parts cp t flag
  = (match Proto.walked strict pathSet flag cp parts with
     | Some pre => Proto.Ok (walkParts pathSet pre cp t)
     | None => Proto.Throw Proto.TypeError
     end, flag).
Proof.
  induction parts as [|part rest IH]; intros cp t Hfixed Ht; [done|].
  assert (flag = true ∨ "__proto__" ∉ rest) as Hfixed'.
  { destruct Hfixed as [?|Hnot]; [by left | right].
    intros Hin. apply Hnot. by right. }
  cbn [Proto.walkParts Proto.walked].
  assert (∀ child, childOrNew t part (extendPath cp part) = child →
            Proto.namesAll (Proto.plain flag) child →
            match Proto.walkParts strict pathSet rest (extendPath cp part)
                    (mark pathSet (extendPath cp part) child) flag with
            | (Proto.Ok child', flag1) =>
                (Proto.Ok (setChildren t (<[part := child']> (children t))),
                 flag1)
            | (Proto.Throw e, flag1) => (Proto.Throw e, flag1)
            end
            = (match (part ::.)
                       <$> Proto.walked strict pathSet flag
                             (extendPath cp part) rest with
               | Some pre => Proto.Ok (walkParts pathSet pre cp t)
               | None => Proto.Throw Proto.TypeError
               end, flag)) as Hown.
  { intros child Hchild Hnames. rewrite IH; [|done|].
    2:{ intros segs n Hn. destruct segs as [|s segs']; [by constructor|].
        rewrite (nodeAt_children _ _ child) in Hn
          by (done || apply children_mark).
        by apply (Hnames _ n). }
    destruct (Proto.walked strict pathSet flag (extendPath cp part) rest)
      as [pre|]; [|done].
    cbn [fmap option_fmap option_map walkParts]. by rewrite Hchild. }
  destruct (children t !! part) as [child|] eqn:Hc.
  { destruct (namesAll_child _ t part child Hc Ht) as [Hpart Hchild].
    cbn beta in Hpart. rewrite Hpart. apply Hown; [|done].
    unfold childOrNew. by rewrite Hc. }
  destruct (Proto.lookupInherited flag part) as [v|] eqn:Hv.
  2:{ apply Hown.
      - unfold childOrNew. by rewrite Hc.
      - intros [|s segs] n Hn; [by constructor|].
        cbn in Hn. by rewrite lookup_empty in Hn. }
  clear Hown. case_decide as Hin; [|by destruct rest].
  destruct v; cbn [Proto.assignSelectable].
  - assert (flag = true) as ->.
    { destruct Hfixed as [?|Hnot]; [done|]. destruct Hnot.
      apply lookupInherited_prototype in Hv as ->. by left. }
    by destruct rest.
  - by destruct rest.
  - destruct strict; [done|]. by destruct rest.
Qed.

Lemma proto_addPath_segments t p flag0 :
  Proto.addPath strict pathSet t p flag0
  = Proto.walkParts strict pathSet (Proto.segments p) "" t flag0.
Proof. unfold Proto.addPath, Proto.segments. by case_decide. Qed.

Lemma segments_elem p seg : seg ∈ Proto.segments p → seg ∈ Str.split "/" p.
Proof.
  unfold Proto.segments. case_decide; [|done]. intros Hin.
  by apply elem_of_nil in Hin.
Qed.

Lemma proto_forEach_walked paths : ∀ t,
  flag = true ∨ (∀ p, p ∈ paths → "__proto__" ∉ Str.split "/" p) →
  Proto.namesAll (Proto.plain flag) t →
  Proto.forEach strict pathSet paths t flag
  = (match mapM (λ p, Proto.walked strict pathSet flag ""
                        (Proto.segments p)) paths with
     | Some l => Proto.Ok (Proto.walks pathSet t l)
     | None => Proto.Throw Proto.TypeError
     end, flag).
Proof.
  induction paths as [|p paths IH]; intros t Hfixed Ht; [done|].
  cbn [Proto.forEach mapM]. rewrite proto_addPath_segments.
  rewrite proto_walkParts_walked; [|..|done].
  2:{ destruct Hfixed as [?|Hnot]; [by left | right].
      intros Hin. apply (Hnot p); [by left|]. by apply segments_elem. }
  destruct (Proto.walked strict pathSet flag "" (Proto.segments p))
    as [pre|] eqn:Hw; [|done].
  rewrite IH.
  - cbn. by destruct (mapM _ paths).
  - destruct Hfixed as [?|Hnot]; [by left | right].
    intros q Hq. apply Hnot. by right.
  - apply namesAll_walkParts; [|done]. by apply (walked_plain _ _ _ Hw).
Qed.

End FixedPrototype.

(** While [Object.prototype] stays as it is, [buildTree] is decided path by
    path: it throws when the walk of some listed path does, and otherwise
    returns the tree of [Tree]'s walks along what is kept of each path. *)
Lemma proto_buildTree_walked strict flag paths :
  flag = true ∨ (∀ p, p ∈ paths → "__proto__" ∉ Str.split "/" p) →
  Proto.buildTree strict flag paths
  = (match mapM (λ p, Proto.walked strict (list_to_set paths) flag ""
                        (Proto.segments p)) paths with
     | Some l => Proto.Ok (Proto.walks (list_to_set paths) emptyRoot l)
     | None => Proto.Throw Proto.TypeError
     end, flag).
Proof.
  intros Hfixed. apply proto_forEach_walked; [done|].
  apply namesAll_emptyRoot.
Qed.

(** So it depends on the set of listed paths only. *)
Lemma proto_buildTree_set strict flag paths paths' :
  (∀ p, p ∈ paths ↔ p ∈ paths') →
  flag = true ∨ (∀ p, p ∈ paths → "__proto__" ∉ Str.split "/" p) →
  Proto.buildTree strict flag paths = Proto.buildTree strict flag paths'.
Proof.
  intros Hsame Hfixed.
  rewrite (proto_buildTree_walked strict flag paths) by done.
  rewrite (proto_buildTree_walked strict flag paths').
  2:{ destruct Hfixed as [?|Hnot]; [by left | right].
      intros p Hp. apply Hnot. by apply Hsame. }
  assert (list_to_set paths' = (list_to_set paths : gset string)) as ->.
  { apply set_eq. intros x. by rewrite !elem_of_list_to_set, Hsame. }
  set (f := λ p, Proto.walked strict (list_to_set paths) flag ""
                   (Proto.segments p)).
  destruct (mapM f paths) as [l|] eqn:Hl, (mapM f paths') as [l'|] eqn:Hl'.
  - apply mapM_Some in Hl, Hl'. do 2 f_equal.
    apply walks_same_members. intros x. split; intros Hx.
    + destruct (Forall2_elem_of_r _ _ _ _ Hl Hx) as (p & Hp & Hfp).
      apply Hsame in Hp.
      destruct (Forall2_elem_of_l _ _ _ _ Hl' Hp) as (x' & Hx' & Hfp').
      congruence.
    + destruct (Forall2_elem_of_r _ _ _ _ Hl' Hx) as (p & Hp & Hfp).
      apply Hsame in Hp.
      destruct (Forall2_elem_of_l _ _ _ _ Hl Hp) as (x' & Hx' & Hfp').
      congruence.
  - apply mapM_None, Exists_exists in Hl' as (p & Hp & Hnone).
    apply mapM_Some in Hl. apply Hsame in Hp.
    destruct (Forall2_elem_of_l _ _ _ _ Hl Hp) as (x & _ & Hfp). congruence.
  - apply mapM_None, Exists_exists in Hl as (p & Hp & Hnone).
    apply mapM_Some in Hl'. apply Hsame in Hp.
    destruct (Forall2_elem_of_l _ _ _ _ Hl' Hp) as (x & _ & Hfp). congruence.
  - done.
Qed.

(** Without inherited names in the list, [buildTree] returns the tree of
    [Tree] and leaves [Object.prototype] as it was. *)
Lemma proto_buildTree_plain strict flag paths :
  (∀ p, p ∈ paths →
     Forall (Proto.plain flag) (Str.split "/" p)) →
  Proto.buildTree strict flag paths = (Proto.Ok (buildTree paths), flag).
Proof.
  intros Hplain. rewrite proto_buildTree_walked.
  2:{ right. intros p Hp Hin.
      pose proof (proj1 (Forall_forall _ _) (Hplain p Hp) _ Hin) as Hnone.
      by vm_compute in Hnone. }
  rewrite buildTree_walks.
  assert (mapM (λ p, Proto.walked strict (list_to_set paths) flag ""
                       (Proto.segments p)) paths
          = Some (Proto.segments <$> paths)) as ->; [|done].
  apply mapM_Some, Forall2_fmap_r, Forall_Forall2_diag, Forall_forall.
  intros p Hp. apply walked_all. unfold Proto.segments.
  case_decide; [done | by apply Hplain].
Qed.

(** ** Selectable nodes and listed paths *)




(** ** The order of the list *)




(** X1: while [Object.prototype] is not written (it has [isSelectable]
    already, or no listed path has a segment [__proto__]), [buildTree] is a
    function of the set of listed paths: two lists with the same members,
    in any order and with any repetitions, give the same tree, or throw
    both. *)
Theorem X1_buildTree_same_members (strict proto : bool)
    (paths paths' : list string) :
  proto = true ∨ (∀ p, p ∈ paths → "__proto__" ∉ Str.split "/" p) →
  (∀ p, p ∈ paths ↔ p ∈ paths') →
  Proto.buildTree strict proto paths = Proto.buildTree strict proto paths'.
Proof. intros Hfixed Hsame. by apply proto_buildTree_set. Qed.

Lemma X1_buildTree_same_members_witness :
  Proto.buildTree true false ["a/b"; "constructor"; "a"; "a/b"]
  = Proto.buildTree true false ["a"; "a/b"; "constructor"].
Proof.
  refine (X1_buildTree_same_members true false
            ["a/b"; "constructor"; "a"; "a/b"]
            ["a"; "a/b"; "constructor"] _ _).
  - right. intros p Hp.
    repeat (apply elem_of_cons in Hp as [->|Hp];
            [vm_compute; intros Hin;
             repeat (apply elem_of_cons in Hin as [Hin|Hin];
                     [discriminate Hin|]);
             by apply elem_of_nil in Hin|]).
    by apply elem_of_nil in Hp.
  - intros p. rewrite !elem_of_cons, !elem_of_nil. tauto.
Defined.

(** ** The shape of a returned tree *)

(** X2: the nodes of a tree [buildTree paths] returns lie at the root and
    at non-empty prefixes of the segment lists of non-empty listed paths:
    every node lies there, and every such prefix in which no segment is the
    name of an inherited property has a node.  So no node lies deeper than
    the longest listed path has segments. *)
Theorem X2_buildTree_nodes (strict proto : bool) (paths : list string)
    (t : TreeNode) (proto' : bool) (segs : list string) :
  Proto.buildTree strict proto paths = (Proto.Ok t, proto') →
  (is_Some (nodeAt segs t) →
   segs = []
   ∨ ∃ p, p ∈ paths ∧ p ≠ "" ∧ segs `prefix_of` Str.split "/" p)
  ∧ ((∃ p, p ∈ paths ∧ p ≠ "" ∧ segs `prefix_of` Str.split "/" p) →
     Forall (Proto.plain proto') segs →
     is_Some (nodeAt segs t))
  ∧ (is_Some (nodeAt segs t) →
     segs = []
     ∨ ∃ p, p ∈ paths ∧ length segs ≤ length (Str.split "/" p)).
Proof.
  intros Hrun.
  assert (is_Some (nodeAt segs t) →
          segs = []
          ∨ ∃ p, p ∈ paths ∧ p ≠ "" ∧ segs `prefix_of` Str.split "/" p)
    as Hnodes.
  { intros Hn. destruct (decide (segs = [])) as [?|Hne]; [by left | right].
    by apply (returned_node_prefix _ _ _ _ _ Hrun). }
  split_and!; [done | |].
  - intros (p & Hin & Hp & Hpre) Hplain.
    by apply (returned_prefix_node _ _ _ _ _ Hrun p).
  - intros Hn. destruct (Hnodes Hn) as [?|(p & Hin & _ & Hpre)];
      [by left | right].
    exists p. split; [done|]. by apply prefix_length.
Qed.

Lemma X2_buildTree_nodes_witness :
  ["a"] = []
  ∨ ∃ p, p ∈ ["a/b"; "constructor"]
         ∧ length ["a"] ≤ length (Str.split "/" p).
Proof.
  refine (proj2 (proj2 (X2_buildTree_nodes true false ["a/b"; "constructor"]
                          (buildTree ["a/b"]) false ["a"] _)) _).
  - vm_compute. reflexivity.
  - vm_compute. by eexists.
Defined.

(** X4: in a tree [buildTree paths] returns, a node without children,
    other than the root, is selectable as soon as every listed path that
    runs through it begins without a slash and has no segment that is the
    name of an inherited property: a node made only to carry deeper nodes
    then has a child. *)
Theorem X4_buildTree_leaves (strict proto : bool) (paths : list string)
    (t : TreeNode) (proto' : bool) (segs : list string) (n : TreeNode) :
  Proto.buildTree strict proto paths = (Proto.Ok t, proto') →
  (∀ p, p ∈ paths → segs `prefix_of` Str.split "/" p →
     Str.startsWith "/" p = false
     ∧ Forall (Proto.plain proto') (Str.split "/" p)) →
  segs ≠ [] → nodeAt segs t = Some n →
  children n = ∅ → isSelectable n = true.
Proof.
  intros Hrun Hthrough Hne Hn Hleaf.
  destruct (returned_node_prefix _ _ _ _ _ Hrun segs Hne)
    as (p & Hin & Hp & Hpre); [by eexists|].
  destruct (Hthrough p Hin Hpre) as [Hslash Hplain].
  destruct Hpre as [rest Hpre]. destruct rest as [|k rest].
  - rewrite app_nil_r in Hpre.
    destruct (returned_listed _ _ _ _ _ Hrun p Hin Hp Hplain)
      as (n' & Hn' & Hlisted).
    rewrite Hpre, Hn in Hn'. injection Hn' as <-. by apply Hlisted.
  - assert (is_Some (nodeAt (segs ++ [k]) t)) as [c Hc].
    { apply (returned_prefix_node _ _ _ _ _ Hrun p); [done..| |].
      - exists rest. by rewrite Hpre, <- app_assoc.
      - rewrite Hpre in Hplain. apply Forall_app in Hplain as [Hs Hk].
        apply Forall_cons in Hk as [Hk _]. apply Forall_app.
        split; [done | by constructor]. }
    rewrite nodeAt_app, Hn in Hc. cbn in Hc.
    by rewrite Hleaf, lookup_empty in Hc.
Qed.

Lemma X4_buildTree_leaves_witness :
  let t :=
    mkTreeNode "root" "" false
      {[ "a" := mkTreeNode "a" "a" false
                  {[ "b" := mkTreeNode "b" "a/b" true ∅ ]};
         "c" := mkTreeNode "c" "c" false ∅ ]} in
  Proto.buildTree true false ["a/b"; "c/constructor"] = (Proto.Ok t, false)
  ∧ ∃ n, nodeAt ["a"; "b"] t = Some n ∧ isSelectable n = true.
Proof.
  intros t. split; [vm_compute; reflexivity|].
  eexists. split; [vm_compute; reflexivity|].
  apply (X4_buildTree_leaves true false ["a/b"; "c/constructor"] t false
           ["a"; "b"]).
  - vm_compute. reflexivity.
  - intros p Hp Hpre.
    apply elem_of_cons in Hp as [->|Hp]; [split; [done | repeat constructor]|].
    apply list_elem_of_singleton in Hp as ->.
    vm_compute in Hpre. destruct Hpre as [k Hk]. discriminate Hk.
  - discriminate.
  - vm_compute. reflexivity.
  - vm_compute. reflexivity.
Defined.

(** ** The default selection on a returned tree *)

(** X5: whatever order the children are sorted into, a path that
    [findFirstSelectablePath] finds in a tree [buildTree paths] returned is
    a listed path and is not empty.  The default-selection effect selects
    the folder with that path when nothing was stored under
    [imageGallerySelection] and nothing is selected, and selects nothing
    otherwise, nor while there is no folder tree. *)
Theorem X5_default_selection_listed
    (sortChildren : list (string * TreeNode) → list (string * TreeNode))
    (strict proto : bool) (paths : list string) (t : TreeNode) (proto' : bool)
    (p : string) (stored : option string)
    (selectedItem : option Selection.SelectedItem) :
  Proto.buildTree strict proto paths = (Proto.Ok t, proto') →
  Selection.findFirstSelectablePath sortChildren t = Some p →
  p ∈ paths ∧ p ≠ ""
  ∧ Selection.defaultSelection sortChildren stored selectedItem (Some t)
    = (if Selection.wasStateRestored stored then None
       else match selectedItem with
            | None => Some (Selection.folderItem p [])
            | Some _ => None
            end)
  ∧ Selection.defaultSelection sortChildren stored selectedItem None = None.
Proof.
  intros Hrun Hf.
  destruct (findFirstSelectablePath_sound _ _ _ Hf)
    as (segs & n & Hn & Hsel & Hpath & Hne).
  destruct segs as [|s rest].
  { cbn in Hn. injection Hn as <-.
    destruct (returned_fields _ _ _ _ _ Hrun) as (_ & _ & Hroot).
    congruence. }
  assert (p ≠ "") as Hp by by apply Hne.
  split_and!; [|done| |].
  - destruct (returned_described _ _ _ _ _ Hrun (s :: rest) n)
      as (Hq & _ & Hiff); [done..|].
    apply Hiff in Hsel. rewrite <- Hq, Hpath in Hsel.
    by apply elem_of_list_to_set in Hsel.
  - unfold Selection.defaultSelection. rewrite Hf. cbn [Selection.firstFound].
    rewrite decide_False by done.
    by destruct (Selection.wasStateRestored stored), selectedItem.
  - unfold Selection.defaultSelection.
    by destruct (Selection.wasStateRestored stored), selectedItem.
Qed.

Lemma X5_default_selection_listed_witness :
  "a" ∈ ["b/c"; "a"] ∧ "a" ≠ ""
  ∧ Selection.defaultSelection id (Some "") None (Some (buildTree ["b/c"; "a"]))
    = Some (Selection.folderItem "a" [])
  ∧ Selection.defaultSelection id (Some "") None None = None.
Proof.
  apply (X5_default_selection_listed id true false ["b/c"; "a"]
           (buildTree ["b/c"; "a"]) false "a" (Some "") None);
    vm_compute; reflexivity.
Defined.

(** X6: in a tree [buildTree paths] returned, when the sort returns the
    children in some order, no listed path begins with a slash, and some
    listed path is not empty and has no segment that is the name of an
    inherited property, the default-selection effect selects a folder of
    the list, provided nothing was stored and nothing is selected. *)
Theorem X6_default_selection_exists
    (sortChildren : list (string * TreeNode) → list (string * TreeNode))
    (strict proto : bool) (paths : list string) (t : TreeNode) (proto' : bool)
    (stored : option string) :
  Proto.buildTree strict proto paths = (Proto.Ok t, proto') →
  (∀ l, sortChildren l ≡ₚ l) →
  (∀ q, q ∈ paths → Str.startsWith "/" q = false) →
  (∃ p, p ∈ paths ∧ p ≠ ""
        ∧ Forall (Proto.plain proto') (Str.split "/" p)) →
  Selection.wasStateRestored stored = false →
  ∃ p, p ∈ paths
       ∧ Selection.defaultSelection sortChildren stored None (Some t)
         = Some (Selection.folderItem p []).
Proof.
  intros Hrun Hperm Hl (p & Hin & Hp & Hplain) Hstored.
  destruct (findFirstSelectablePath_complete sortChildren Hperm t)
    as (q & Hq & Hqne).
  - intros segs n Hne Hn Hempty.
    pose proof (returned_position _ _ _ _ _ Hrun segs n Hl Hne Hn) as Hpos.
    rewrite Hempty in Hpos. cbn in Hpos. subst segs. cbn in Hn.
    by rewrite (returned_no_empty_child _ _ _ _ _ Hrun Hl) in Hn.
  - apply (returned_fields _ _ _ _ _ Hrun).
  - destruct (returned_listed _ _ _ _ _ Hrun p Hin Hp Hplain)
      as (n & Hn & Hlisted).
    exists (Str.split "/" p), n. split_and!; [|done|by apply Hlisted, Hl].
    by destruct (split_cons "/" p) as (h & r & ->).
  - exists q. split.
    + destruct (findFirstSelectablePath_sound _ _ _ Hq)
        as (segs & n & Hn & Hsel & Hpath & _).
      destruct segs as [|s rest].
      { cbn in Hn. injection Hn as <-.
        destruct (returned_fields _ _ _ _ _ Hrun) as (_ & _ & Hroot).
        congruence. }
      destruct (returned_described _ _ _ _ _ Hrun (s :: rest) n)
        as (Hpn & _ & Hiff); [done..|].
      apply Hiff in Hsel. rewrite <- Hpn, Hpath in Hsel.
      by apply elem_of_list_to_set in Hsel.
    + unfold Selection.defaultSelection.
      rewrite Hstored, Hq. cbn [Selection.firstFound].
      by rewrite decide_False.
Qed.

Lemma X6_default_selection_exists_witness :
  ∃ p, p ∈ ["b/c"; "a"]
       ∧ Selection.defaultSelection id None None
           (Some (buildTree ["b/c"; "a"]))
         = Some (Selection.folderItem p []).
Proof.
  apply (X6_default_selection_exists id true false ["b/c"; "a"]
           (buildTree ["b/c"; "a"]) false None).
  - vm_compute. reflexivity.
  - done.
  - intros q Hq. repeat (apply elem_of_cons in Hq as [->|Hq]); try done.
    by apply elem_of_nil in Hq.
  - exists "a". split_and!; [by right; left | done | repeat constructor].
  - reflexivity.
Defined.

(** ** The tree of own properties and the tree of the code *)

(** X21: on a list in which no segment of a path is the name of an
    inherited property, [buildTree] returns the tree of [Tree.buildTree],
    the walk on own properties, and does not write [Object.prototype]. *)
Theorem X21_buildTree_plain (strict proto : bool) (paths : list string) :
  (∀ p, p ∈ paths → Forall (Proto.plain proto) (Str.split "/" p)) →
  Proto.buildTree strict proto paths = (Proto.Ok (buildTree paths), proto)
  ∧ ∀ p, p ∈ paths → p ≠ "" →
      is_Some (nodeAt (Str.split "/" p) (buildTree paths)).
Proof.
  intros Hplain. split; [by apply proto_buildTree_plain|].
  intros p Hin Hp. by apply nodeAt_foldl_elem.
Qed.

Lemma X21_buildTree_plain_witness :
  Proto.buildTree true false ["a/b"; "a"]
  = (Proto.Ok (buildTree ["a/b"; "a"]), false).
Proof.
  refine (proj1 (X21_buildTree_plain true false ["a/b"; "a"] _)).
  intros p Hp.
  repeat (apply elem_of_cons in Hp as [->|Hp]; [repeat constructor|]).
  by apply elem_of_nil in Hp.
Defined.

(** X22: a tree [buildTree] returns is a part of the tree of
    [Tree.buildTree] for the same list: wherever it has a node, that tree
    has a node with the same name, path and selectable flag, and with a
    child under every name the node has a child under. *)
Theorem X22_buildTree_within (strict proto : bool) (paths : list string)
    (t : TreeNode) (proto' : bool) (segs : list string) (n : TreeNode) :
  Proto.buildTree strict proto paths = (Proto.Ok t, proto') →
  nodeAt segs t = Some n →
  ∃ m, nodeAt segs (buildTree paths) = Some m
       ∧ name m = name n ∧ path m = path n
       ∧ isSelectable m = isSelectable n
       ∧ ∀ k, is_Some (children n !! k) → is_Some (children m !! k).
Proof.
  intros Hrun Hn.
  assert (∀ segs', is_Some (nodeAt segs' t) →
                   is_Some (nodeAt segs' (buildTree paths))) as Hwithin.
  { intros segs' Hs. apply buildTree_positions.
    destruct (decide (segs' = [])) as [?|Hne]; [by left | right].
    by apply (returned_node_prefix _ _ _ _ _ Hrun). }
  destruct (Hwithin segs) as [m Hm]; [by eexists|].
  exists m. split; [done|].
  assert (∀ k, is_Some (children n !! k) → is_Some (children m !! k))
    as Hchildren.
  { intros k [c Hc].
    destruct (Hwithin (segs ++ [k])) as [c' Hc'].
    { rewrite nodeAt_app, Hn. by eexists. }
    rewrite nodeAt_app, Hm in Hc'. by eexists. }
  destruct segs as [|s rest].
  - cbn in Hn, Hm. injection Hn as <-. injection Hm as <-.
    destruct (returned_fields _ _ _ _ _ Hrun) as (-> & -> & ->).
    destruct (buildTree_root_fields paths) as (-> & -> & ->). done.
  - destruct (returned_described _ _ _ _ _ Hrun (s :: rest) n)
      as (-> & -> & Hsel); [done..|].
    destruct (buildTree_described paths (s :: rest) m)
      as (-> & -> & Hsel'); [done..|].
    split_and!; [done..| |done].
    destruct (isSelectable m), (isSelectable n); try done.
    + symmetry. by apply Hsel, Hsel'.
    + by apply Hsel', Hsel.
Qed.

Lemma X22_buildTree_within_witness :
  ∃ m, nodeAt ["a"] (buildTree ["a/constructor"; "a"]) = Some m
       ∧ name m = "a" ∧ path m = "a" ∧ isSelectable m = true
       ∧ ∀ k, is_Some ((∅ : gmap string TreeNode) !! k) →
              is_Some (children m !! k).
Proof.
  refine (X22_buildTree_within true false ["a/constructor"; "a"]
            (buildTree ["a"]) false ["a"] (mkTreeNode "a" "a" true ∅) _ _);
    vm_compute; reflexivity.
Defined.
